(** * lintorch.core.editable_module

    A shallow embedding of [src/lintorch/core/editable_module.py]:
    the identity-based de-duplication of parameters of an
    [EditableModule], the [useparams] context manager, the checks of
    [assertparams] on declared parameters, and the reflective traversal
    [_traverse_obj] with its two clients [_get_tensors] and [_set_tensors].

    Python objects are identified by their address ([id(x)]); everything
    that the source compares with [id] or looks up by identity is compared
    on these addresses.  Effects (attribute writes on [self], calls of the
    abstract methods, writes into containers) are threaded through a state
    and exception monad. *)

From stdpp Require Import gmap strings list fin_maps pretty.

(** ** Python exceptions and the state-and-exception monad *)

Module Py.

(** The value of [id(x)]. *)
Abbreviation pyid := nat (only parsing).

(** What a [GetSetParamsError] of lines 176-217 reports; the message
    text of the source is a rendering of these data (the names joined
    with a comma). *)
Inductive violation : Type :=
| NonFloatParam (i : nat)
| NotAMember (i : nat)
| ExcessParams (excess_names : list string).

(** Exception classes that the module raises or that the interpreter
    raises on its behalf.  [UserError] stands for any other class derived
    from [Exception]; [BaseOnly] for the classes derived from
    [BaseException] but not from [Exception] ([KeyboardInterrupt],
    [SystemExit], [GeneratorExit]). *)
Inductive exn : Type :=
| TypeError
| IndexError
| KeyError
| AttributeError
| RuntimeError
| RecursionError
| UnboundLocalError
| GetSetParamsError (why : violation)
| UserError (tag : nat)
| BaseOnly (tag : nat).

Global Instance violation_eq_dec : EqDecision violation.
Proof. solve_decision. Defined.

Global Instance exn_eq_dec : EqDecision exn.
Proof. solve_decision. Defined.

(** [isinstance(e, Exception)] *)
Definition isinstance_Exception (e : exn) : bool :=
  match e with
  | BaseOnly _ => false
  | _ => true
  end.

Inductive result (A : Type) : Type :=
| Ok (a : A)
| Raise (e : exn).
Global Arguments Ok {A} a.
Global Arguments Raise {A} e.

(** A computation over a mutable store [Σ].  The store is returned in
    both cases: a write that happened before an exception stays. *)
Definition M (Σ A : Type) : Type := Σ → Σ * result A.

Definition ret {Σ A} (a : A) : M Σ A := λ σ, (σ, Ok a).
Definition raise {Σ A} (e : exn) : M Σ A := λ σ, (σ, Raise e).
Definition bind {Σ A B} (k : A → M Σ B) (c : M Σ A) : M Σ B :=
  λ σ, match c σ with
       | (σ', Ok a) => k a σ'
       | (σ', Raise e) => (σ', Raise e)
       end.
Global Instance M_ret {Σ} : MRet (M Σ) := λ A, ret.
Global Instance M_bind {Σ} : MBind (M Σ) := λ A B, bind.
Definition get {Σ} : M Σ Σ := λ σ, (σ, Ok σ).
Definition put {Σ} (σ' : Σ) : M Σ unit := λ _, (σ', Ok tt).
Definition modify {Σ} (f : Σ → Σ) : M Σ unit := λ σ, (f σ, Ok tt).

(** Run [c] and hand its outcome to the continuation: the [try] of a
    [try]/[except]. *)
Definition attempt {Σ A} (c : M Σ A) : M Σ (result A) :=
  λ σ, let '(σ', r) := c σ in (σ', Ok r).

(** Lift a pure fallible value. *)
Definition lift {Σ A} (r : result A) : M Σ A := λ σ, (σ, r).

(** [o] if present, else the exception [e]. *)
Definition or_raise {A} (e : exn) (o : option A) : result A :=
  match o with
  | Some a => Ok a
  | None => Raise e
  end.

End Py.
Import Py.


(** [l.index(x)]: position of the first element equal to [x];
    [None] stands for the [ValueError] of Python. *)
Definition index `{EqDecision A} (x : A) (l : list A) : option nat :=
  fst <$> list_find (λ y, y = x) l.

(** ** The de-duplication layer of [EditableModule] *)

Section EditableModule.

(** The state of the concrete subclass, as far as its two abstract
    methods are concerned. *)
Context {Obj : Type}.

(** [self.getparams(methodname)]: the parameters, by identity. *)
Variable getparams : string → Obj → list pyid.

(** [self.setparams(methodname, *params)]; an argument [None] is the
    Python [None] with which [setuniqueparams] pads its list. *)
Variable setparams : string → list (option pyid) → Obj → Obj * result nat.

(** The three dictionaries created by [_get_unique_params_idxs]. *)
Record caches : Type := Caches {
  _unique_params_idxs : gmap string (list nat);
  _unique_params_maps : gmap string (list (list nat));
  _number_of_params : gmap string nat;
}.

(** What an observer of the object sees happen.  [EScan] is a ghost
    event: one run of the loop of lines 66-83. *)
Inductive event : Type :=
| EGetParams (methodname : string)
| ESetParams (methodname : string) (params : list (option pyid))
| EScan (methodname : string)
| EPrintExc (e : exn)
| EWarn (missing_names : list string).

Global Instance event_eq_dec : EqDecision event.
Proof. solve_decision. Defined.

(** An instance: the subclass state, the cache attributes ([None] when
    [hasattr(self, "_unique_params_idxs")] is false) and the history. *)
Record module : Type := Module_ {
  user : Obj;
  attrs : option caches;
  history : list event;
}.

Definition log (e : event) : M module unit :=
  modify (λ st, Module_ (user st) (attrs st) (history st ++ [e])).

Definition call_getparams (methodname : string) : M module (list pyid) :=
  log (EGetParams methodname) ;;
  st ← get;
  mret (getparams methodname (user st)).

Definition call_setparams (methodname : string) (params : list (option pyid))
  : M module nat :=
  log (ESetParams methodname params) ;;
  st ← get;
  let '(u, r) := setparams methodname params (user st) in
  put (Module_ u (attrs st) (history st)) ;;
  lift r.

(** Body of the loop of lines 69-83, on the triple
    [(ids, idxs, idx_map)]. *)
Definition scan_step (allparams : list pyid)
    (acc : list pyid * list nat * list (list nat)) (i : nat)
  : list pyid * list nat * list (list nat) :=
  let '(ids, idxs, idx_map) := acc in
  match allparams !! i with
  | None => acc (* not reached: [i < len(allparams)] *)
  | Some id_param =>
      match index id_param ids with
      | Some jfound => (ids, idxs, alter (λ g, g ++ [i]) jfound idx_map)
      | None => (ids ++ [id_param], idxs ++ [i], idx_map ++ [[i]])
      end
  end.

Definition scan (allparams : list pyid)
  : list pyid * list nat * list (list nat) :=
  foldl (scan_step allparams) ([], [], []) (seq 0 (length allparams)).

Definition empty_caches : caches := Caches ∅ ∅ ∅.

(** [self.<dict>[methodname]]: [AttributeError] without the attribute,
    [KeyError] without the key. *)
Definition read_cache {V} (field : caches → gmap string V)
    (methodname : string) : M module V :=
  st ← get;
  match attrs st with
  | None => raise AttributeError
  | Some c => lift (or_raise KeyError (field c !! methodname))
  end.

Definition _get_unique_params_idxs (methodname : string)
    (allparams : option (list pyid)) : M module (list nat) :=
  st ← get;
  (if attrs st is None
   then put (Module_ (user st) (Some empty_caches) (history st))
   else mret tt) ;;
  st ← get;
  let c := default empty_caches (attrs st) in
  match _unique_params_idxs c !! methodname with
  | Some idxs => mret idxs
  | None =>
      allparams ← (match allparams with
                   | None => call_getparams methodname
                   | Some l => mret l
                   end);
      log (EScan methodname) ;;
      let '(ids, idxs, idx_map) := scan allparams in
      modify (λ st,
        let c := default empty_caches (attrs st) in
        Module_ (user st)
          (Some (Caches
             (<[methodname := idxs]> (_unique_params_idxs c))
             (<[methodname := idx_map]> (_unique_params_maps c))
             (<[methodname := length allparams]> (_number_of_params c))))
          (history st)) ;;
      mret idxs
  end.

(** [[allparams[i] for i in idxs]] *)
Definition pick (allparams : list pyid) (idxs : list nat)
  : result (list pyid) :=
  or_raise IndexError (mapM (λ i, allparams !! i) idxs).

Definition getuniqueparams (methodname : string) : M module (list pyid) :=
  allparams ← call_getparams methodname;
  idxs ← _get_unique_params_idxs methodname (Some allparams);
  lift (pick allparams idxs).

(** [for i in jmap: allparams[i] = p] *)
Fixpoint broadcast (jmap : list nat) (p : pyid)
    (allparams : list (option pyid)) : result (list (option pyid)) :=
  match jmap with
  | [] => Ok allparams
  | i :: jmap =>
      if decide (i < length allparams)
      then broadcast jmap p (<[i := Some p]> allparams)
      else Raise IndexError
  end.

(** The loop of lines 44-48, [j] counting from [j0]. *)
Fixpoint fill (maps : list (list nat)) (j0 : nat) (uniqueparams : list pyid)
    (allparams : list (option pyid)) : result (list (option pyid)) :=
  match uniqueparams with
  | [] => Ok allparams
  | p :: rest =>
      match maps !! j0 with
      | None => Raise IndexError
      | Some jmap =>
          match broadcast jmap p allparams with
          | Ok allparams => fill maps (S j0) rest allparams
          | Raise e => Raise e
          end
      end
  end.

Definition setuniqueparams (methodname : string) (uniqueparams : list pyid)
  : M module nat :=
  nparams ← read_cache _number_of_params methodname;
  let allparams := replicate nparams None in
  maps ← read_cache _unique_params_maps methodname;
  allparams ← lift (fill maps 0 uniqueparams allparams);
  call_setparams methodname allparams.

(** *** [useparams]: a generator under [contextlib.contextmanager] *)

(** The [except Exception] clause (lines 96-97) and then the [finally]
    clause (lines 98-99), entered with the exception [pending] that left
    the [try] block, if any; [_orig_params_] is [None] while the local
    is not bound.  An exception that [except] does not match is raised
    again once [finally] has run to its end. *)
Definition handlers (methodname : string)
    (_orig_params_ : option (list pyid)) (pending : option exn)
  : M module unit :=
  pending ← match pending with
            | Some exc =>
                if isinstance_Exception exc
                then log (EPrintExc exc) ;; mret None
                else mret (Some exc)
            | None => mret None
            end;
  match _orig_params_ with
  | None => raise UnboundLocalError
  | Some orig =>
      setuniqueparams methodname orig ;;
      match pending with
      | Some exc => raise exc
      | None => mret tt
      end
  end.

(** The generator from its start to [yield self] ([Some] of the local
    [_orig_params_]) or to its end without a [yield] ([None]). *)
Definition useparams_start (methodname : string) (params : list pyid)
  : M module (option (list pyid)) :=
  r ← attempt (getuniqueparams methodname);
  match r with
  | Raise exc => handlers methodname None (Some exc) ;; mret None
  | Ok orig =>
      r ← attempt (setuniqueparams methodname params);
      match r with
      | Raise exc => handlers methodname (Some orig) (Some exc) ;; mret None
      | Ok _ => mret (Some orig)
      end
  end.

(** The generator resumed at its [yield], by [next] ([thrown = None])
    or by [throw] of the exception of the block; it has no second
    [yield], so it ends or raises. *)
Definition useparams_resume (methodname : string) (orig : list pyid)
    (thrown : option exn) : M module unit :=
  handlers methodname (Some orig) thrown.

(** [with self.useparams(methodname, *params): body].  [__enter__]
    raises [RuntimeError] for a generator that did not yield; [__exit__]
    resumes the generator, swallows the exception of the block when the
    generator ends normally, and lets every exception of the generator
    through. *)
Definition with_useparams (methodname : string) (params : list pyid)
    (body : M module unit) : M module unit :=
  y ← useparams_start methodname params;
  match y with
  | None => raise RuntimeError
  | Some orig =>
      r ← attempt body;
      match r with
      | Ok _ => useparams_resume methodname orig None
      | Raise exc => useparams_resume methodname orig (Some exc)
      end
  end.

(** *** The third check of [assertparams] *)

(** [isinstance(param, torch.Tensor) and param.dtype in torch_float_type] *)
Variable is_float_tensor : pyid → bool.

(** Lines 240-248: the tensors whose gradient is not [None], with their
    names.  The two lists [names] and [params] of the source grow in
    lockstep and are kept as one list of pairs, as are the two results
    of [_get_tensors]. *)
Fixpoint operating (all : list (pyid * string)) (grad_tensors : list bool)
  : list (pyid * string) :=
  match all, grad_tensors with
  | tn :: all, grad :: grad_tensors =>
      if grad then tn :: operating all grad_tensors
      else operating all grad_tensors
  | _, _ => []
  end.

(** Lines 164-168 *)
Definition _get_tensor_name (all : list (pyid * string)) (param : pyid)
  : option string :=
  snd <$> (snd <$> list_find (λ tn, tn.1 = param) all).

(** Lines 250-259: the message replays [setparams] on a prefix and
    keeps whatever it raises for the text. *)
Definition get_error_message_ith_params (methodname : string)
    (params : list pyid) (i : nat) : M module unit :=
  attempt (call_setparams methodname (Some <$> take i params)) ;; mret tt.

(** Lines 177-182 *)
Fixpoint check_float (methodname : string) (user_params : list pyid)
    (i : nat) (rest : list pyid) : M module unit :=
  match rest with
  | [] => mret tt
  | param :: rest =>
      if is_float_tensor param
      then check_float methodname user_params (S i) rest
      else get_error_message_ith_params methodname user_params i ;;
           raise (GetSetParamsError (NonFloatParam i))
  end.

(** Lines 185-188 *)
Definition missing (oper : list (pyid * string)) (user_params : list pyid)
  : list string :=
  snd <$> filter (λ tn, tn.1 ∉ user_params) oper.

(** Lines 197-208, with [excess_names] as the accumulator *)
Fixpoint check_excess (methodname : string) (all oper : list (pyid * string))
    (user_params : list pyid) (i : nat) (rest : list pyid)
    (excess_names : list string) : M module (list string) :=
  match rest with
  | [] => mret excess_names
  | param :: rest =>
      if decide (param ∈ oper.*1)
      then check_excess methodname all oper user_params (S i) rest
             excess_names
      else match _get_tensor_name all param with
           | None =>
               get_error_message_ith_params methodname user_params i ;;
               raise (GetSetParamsError (NotAMember i))
           | Some name =>
               check_excess methodname all oper user_params (S i) rest
                 (excess_names ++ [name])
           end
  end.

(** Lines 184-217, on the declared parameters [user_params] *)
Definition check_missing_excess (methodname : string)
    (all oper : list (pyid * string)) (user_params : list pyid)
  : M module unit :=
  let missing_names := missing oper user_params in
  (if decide (0 < length missing_names)
   then log (EWarn missing_names) else mret tt) ;;
  excess_names ← check_excess methodname all oper user_params 0
                   user_params [];
  if decide (0 < length excess_names)
  then raise (GetSetParamsError (ExcessParams excess_names))
  else mret tt.

(** [__assert_get_correct_params], given what line 163 collected and
    which gradients line 234 found. *)
Definition assert_get_correct_params (methodname : string)
    (all : list (pyid * string)) (grad_tensors : list bool)
  : M module unit :=
  let oper := operating all grad_tensors in
  user_params ← call_getparams methodname;
  check_float methodname user_params 0 user_params ;;
  check_missing_excess methodname all oper user_params.

(** *** Vocabulary of the statements about the layer *)

(** What the three dictionaries hold for [methodname]. *)
Definition cached_idxs (methodname : string) (st : module)
  : option (list nat) :=
  attrs st ≫= λ c, _unique_params_idxs c !! methodname.

Definition cached_maps (methodname : string) (st : module)
  : option (list (list nat)) :=
  attrs st ≫= λ c, _unique_params_maps c !! methodname.

Definition cached_number (methodname : string) (st : module) : option nat :=
  attrs st ≫= λ c, _number_of_params c !! methodname.

(** The entries of [methodname] are those the scan of [l] stores. *)
Definition cache_of (methodname : string) (l : list pyid) (st : module)
  : Prop :=
  cached_idxs methodname st = Some (scan l).1.2 ∧
  cached_maps methodname st = Some (scan l).2 ∧
  cached_number methodname st = Some (length l).

(** The design assumption on the cache: [methodname] has no entry yet,
    or its entry is the scan of the list that [getparams] returns now. *)
Definition cache_current (methodname : string) (st : module) : Prop :=
  cached_idxs methodname st = None ∨
  cache_of methodname (getparams methodname (user st)) st.

(** How often the history records an event. *)
Definition occurrences (e : event) (st : module) : nat :=
  length (filter (λ e', e' = e) (history st)).

(** [l] has one entry for each position of [slots] and the same entry
    wherever [slots] names the same attribute of the object twice. *)
Definition follows (slots : list nat) (l : list pyid) : Prop :=
  length l = length slots ∧
  ∀ i j s, slots !! i = Some s → slots !! j = Some s → l !! i = l !! j.

(** The contract of the two abstract methods for [methodname]: the
    parameter list reads fixed attributes of the object ([slots], one per
    position; an attribute may occur at several positions); [setparams]
    accepts any list of tensors that fits these attributes, reports its
    length, and [getparams] then returns the tensors that were set,
    identity for identity. *)
Definition conforming (methodname : string) : Prop :=
  ∃ slots, (∀ u, follows slots (getparams methodname u)) ∧
           ∀ u l, follows slots l →
                  ∃ u', setparams methodname (Some <$> l) u
                        = (u', Ok (length l)) ∧
                        getparams methodname u' = l.

(** The instance after the scan of [l] has been stored for [m]. *)
Definition stored (m : string) (l : list nat) (ev : list event)
    (st : module) : module :=
  let c := default empty_caches (attrs st) in
  Module_ (user st)
    (Some (Caches (<[m := (scan l).1.2]> (_unique_params_idxs c))
                  (<[m := (scan l).2]> (_unique_params_maps c))
                  (<[m := length l]> (_number_of_params c))))
    (history st ++ ev).

(** The instance with [ev] appended to its history. *)
Definition logged (ev : list event) (st : module) : module :=
  Module_ (user st) (attrs st) (history st ++ ev).

(** The history has one scan of each name that has an entry and none of
    the other names. *)
Definition scanned_once (st : module) : Prop :=
  ∀ m, occurrences (EScan m) st
       = if cached_idxs m st is Some _ then 1 else 0.

(** The parameters are those of [l], the cache of [m] is the scan of
    [l], and the last thing that happened to the instance is the call
    [setparams(m, *l)]. *)
Definition restored (m : string) (l : list pyid) (st : module) : Prop :=
  getparams m (user st) = l ∧
  cache_of m l st ∧
  last (history st) = Some (ESetParams m (Some <$> l)).

(** A newly constructed instance. *)
Definition fresh (u : Obj) : module := Module_ u None [].

(** The calls a client can make on the layer. *)
Inductive call : Type :=
| CallIdxs (methodname : string) (allparams : option (list pyid))
| CallGetUnique (methodname : string)
| CallSetUnique (methodname : string) (uniqueparams : list pyid)
| CallGetParams (methodname : string)
| CallSetParams (methodname : string) (params : list (option pyid)).

Definition run_call (c : call) : M module unit :=
  match c with
  | CallIdxs m allparams => _get_unique_params_idxs m allparams ;; mret tt
  | CallGetUnique m => getuniqueparams m ;; mret tt
  | CallSetUnique m uniqueparams => setuniqueparams m uniqueparams ;; mret tt
  | CallGetParams m => call_getparams m ;; mret tt
  | CallSetParams m params => call_setparams m params ;; mret tt
  end.

(** A sequence of calls; a call that raises leaves the instance as it
    is at that point and the client goes on. *)
Fixpoint run_calls (cs : list call) (st : module) : module :=
  match cs with
  | [] => st
  | c :: cs => run_calls cs (run_call c st).1
  end.

End EditableModule.

(** The names that lines 197-208 collect from the declared parameters
    [rest]: those of the parameters outside [oper] that [all] knows. *)
Definition excess_of (all oper : list (nat * string)) (rest : list nat)
  : list string :=
  omap (λ p, if decide (p ∈ oper.*1) then None else _get_tensor_name all p)
       rest.

(** What the triple [(ids, idxs, idx_map)] satisfies after the positions
    below [k] of [l] have been scanned. *)
Record scan_inv (l : list nat) (k : nat)
    (ids : list nat) (idxs : list nat) (idx_map : list (list nat)) : Prop := {
  si_nodup : NoDup ids;
  si_len_idxs : length idxs = length ids;
  si_len_map : length idx_map = length ids;
  si_idxs : ∀ j i, idxs !! j = Some i → i < k ∧ l !! i = ids !! j;
  si_map : ∀ j g i, idx_map !! j = Some g → i ∈ g → i < k ∧ l !! i = ids !! j;
  si_cover : ∀ i x, i < k → l !! i = Some x →
             ∃ j g, ids !! j = Some x ∧ idx_map !! j = Some g ∧ i ∈ g;
}.

(** The positions in [idxs] go up, and each is the first position of
    [l] that holds its identity. *)
Record scan_first (l : list nat) (ids idxs : list nat) : Prop := {
  sf_first : ∀ j i i' x, idxs !! j = Some i → i' < i → l !! i' = Some x →
             ids !! j ≠ Some x;
  sf_sorted : ∀ j1 j2 i1 i2, j1 < j2 → idxs !! j1 = Some i1 →
              idxs !! j2 = Some i2 → i1 < i2;
}.

(** The list that [setuniqueparams] hands to [setparams]: at each
    position of [l] the unique parameter of the group of the position. *)
Definition spread (ids us l : list nat) : list (option nat) :=
  (λ x, index x ids ≫= (us !!.)) <$> l.

(** ** The second check of [assertparams] and the method helpers *)

(** What the [GetSetParamsError] of lines 143-153 reports: the two counts
    of the message of line 144, or the position of the message of
    line 151. *)
Inductive mismatch : Type :=
| CountMismatch (n_getparams n_setparams : nat)
| ParamMismatch (i : nat).

(** What the argument [method] of lines 261-277 can be: a value for which
    [inspect.ismethod] is false, a method bound to an object that is no
    [EditableModule], or a method bound to the instance. *)
Inductive pymethod : Type :=
| NotAMethod
| MethodOfOther (methodname : string)
| MethodOfModule (methodname : string).

Section CheckAndHelpers.

Context {Obj : Type}.
Variable getparams : string → Obj → list pyid.
Variable setparams : string → list (option pyid) → Obj → Obj * result nat.

(** The loop of lines 149-153 over [zip(range(len(params0)), params0,
    params1)], [i] counting from its first argument; [Some why] is the
    [GetSetParamsError] that the loop raises. *)
Fixpoint check_order (methodname : string) (params1 : list pyid) (i : nat)
    (zipped : list (pyid * pyid)) : M (@module Obj) (option mismatch) :=
  match zipped with
  | [] => mret None
  | (p0, p1) :: zipped =>
      if decide (p0 ≠ p1)
      then get_error_message_ith_params setparams methodname params1 i ;;
           mret (Some (ParamMismatch i))
      else check_order methodname params1 (S i) zipped
  end.

(** [__assert_match_getsetparams] (lines 136-153).  [None]: the check
    returns; [Some why]: it raises [GetSetParamsError] with the message
    that [why] stands for.  An exception of [setparams] itself leaves
    the check as it is. *)
Definition assert_match_getsetparams (methodname : string)
  : M (@module Obj) (option mismatch) :=
  params0 ← call_getparams getparams methodname;
  len_setparams0 ← call_setparams setparams methodname (Some <$> params0);
  if decide (len_setparams0 ≠ length params0)
  then mret (Some (CountMismatch (length params0) len_setparams0))
  else
    params1 ← call_getparams getparams methodname;
    check_order methodname params1 0 (zip params0 params1).

(** [getmethodparams(method)] (lines 261-268) *)
Definition getmethodparams (method : pymethod) : M (@module Obj) (list pyid) :=
  match method with
  | NotAMethod => mret []
  | MethodOfOther _ => mret []
  | MethodOfModule methodname => call_getparams getparams methodname
  end.

(** [setmethodparams(method, *params)] (lines 270-277): [None] is the
    value of the bare [return] of line 272. *)
Definition setmethodparams (method : pymethod) (params : list (option pyid))
  : M (@module Obj) (option nat) :=
  match method with
  | NotAMethod => mret None
  | MethodOfOther _ => mret (Some 0)
  | MethodOfModule methodname =>
      n ← call_setparams setparams methodname params;
      mret (Some n)
  end.

End CheckAndHelpers.

(** ** The object graph *)

(** How a value answers [hasattr(x, "__dict__")] and
    [hasattr(x, "__iter__")]: by an attribute dictionary (in insertion
    order, which is the order of [__dict__.items()]), else by iteration
    (a Python list), else by neither. *)
Inductive layout : Type :=
| HasDict (d : list (string * nat))
| HasIter (l : list nat)
| Plain.

(** A value in the store: whether it is a [torch.Tensor] whose [dtype] is
    in [torch_float_type], and its layout. *)
Record pyobj : Type := PyObj {
  float_tensor : bool;
  shape : layout;
}.

(** The store maps the identity of a value to the value.  An identity
    outside the store is a value without attributes and without
    iteration (a number, [None]). *)
Abbreviation heap := (gmap nat pyobj).

(** The key under which a container holds an element: an attribute name
    or a position. *)
Inductive key : Type :=
| KAttr (name : string)
| KIndex (i : nat).

Global Instance key_eq_dec : EqDecision key.
Proof. solve_decision. Defined.

Definition shape_of (h : heap) (x : pyid) : layout :=
  match h !! x with
  | Some o => shape o
  | None => Plain
  end.

(** [isinstance(elmt, torch.Tensor) and elmt.dtype in torch_float_type] *)
Definition is_float (h : heap) (x : pyid) : bool :=
  match h !! x with
  | Some o => float_tensor o
  | None => false
  end.

(** [hasattr(x, "__dict__") or hasattr(x, "__iter__")] *)
Definition traversable (h : heap) (x : pyid) : bool :=
  match shape_of h x with
  | Plain => false
  | _ => true
  end.

(** The slots of a container, in the order of [__dict__.items()] or of
    [enumerate]. *)
Definition slots (c : layout) : list (key * nat) :=
  match c with
  | HasDict d => prod_map KAttr id <$> d
  | HasIter l => imap (λ i x, (KIndex i, x)) l
  | Plain => []
  end.

(** [name_format.format(prefix=prefix, key=key)] *)
Definition name_format (prefix : string) (k : key) : string :=
  match k with
  | KAttr name => prefix +:+ "." +:+ name
  | KIndex i => prefix +:+ "[" +:+ pretty i +:+ "]"
  end.

(** [d[name] = v] on a dictionary *)
Fixpoint dict_set (d : list (string * nat)) (name : string) (v : pyid)
  : list (string * nat) :=
  match d with
  | [] => [(name, v)]
  | (k, x) :: d =>
      if decide (k = name) then (k, v) :: d else (k, x) :: dict_set d name v
  end.

(** [objdict[key] = v], where [objdict] is [obj.__dict__] or [obj]. *)
Definition setitem (h : heap) (obj : pyid) (k : key) (v : pyid)
  : result heap :=
  match h !! obj with
  | None => Raise TypeError
  | Some o =>
      match shape o, k with
      | HasDict d, KAttr name =>
          Ok (<[obj := PyObj (float_tensor o) (HasDict (dict_set d name v))]> h)
      | HasIter l, KIndex i =>
          if decide (i < length l)
          then Ok (<[obj := PyObj (float_tensor o) (HasIter (<[i := v]> l))]> h)
          else Raise IndexError
      | _, _ => Raise TypeError
      end
  end.

(** ** [_traverse_obj] *)

Section Traverse.

(** What the closure [action] has captured and mutates. *)
Context {A : Type}.

(** The store during one traversal: the objects, the list
    [exception_ids] that all recursive calls share, and the captured
    variables of [action]. *)
Record tstate : Type := TState {
  objects : heap;
  exception_ids : list pyid;
  captured : A;
}.

(** [action(elmt, name, objdict, key)] *)
Definition action_t : Type := pyid → string → pyid → key → M tstate unit.

(** [crit(elmt)], evaluated in the current store. *)
Definition crit_t : Type := heap → pyid → bool.

(** One round of the [for] loop of lines 300-313 at position [p] of the
    container [obj]; [None] when the iterator is exhausted.  [descend]
    is what line 310-313 does with an element to recurse into. *)
Definition visit (descend : pyid → string → M tstate unit)
    (action : action_t) (crit : crit_t) (obj : pyid) (prefix : string)
    (p : nat) : M tstate (option unit) :=
  st ← get;
  match slots (shape_of (objects st) obj) !! p with
  | None => mret None
  | Some (key, elmt) =>
      if decide (elmt ∈ exception_ids st)
      then mret (Some tt)
      else
        modify (λ st, TState (objects st) (exception_ids st ++ [elmt])
                             (captured st)) ;;
        let name := name_format prefix key in
        st ← get;
        (if crit (objects st) elmt
         then action elmt name obj key
         else if traversable (objects st) elmt
              then descend elmt name
              else mret tt) ;;
        mret (Some tt)
  end.

(** The [for] loop over the positions [ps]. *)
Fixpoint loop (descend : pyid → string → M tstate unit)
    (action : action_t) (crit : crit_t) (obj : pyid) (prefix : string)
    (ps : list nat) : M tstate unit :=
  match ps with
  | [] => mret tt
  | p :: ps =>
      more ← visit descend action crit obj prefix p;
      match more with
      | None => mret tt
      | Some _ => loop descend action crit obj prefix ps
      end
  end.

(** [_traverse_obj(obj, prefix, action, crit, max_depth, exception_ids)].
    [crit] has no default in the signature of line 280: a call that does
    not pass it fails with [TypeError] when the arguments are bound,
    before the body runs; [crit = None] is such a call.  The call of
    line 311 passes [action], [prefix], [max_depth] and [exception_ids]
    and no [crit].  [fresh_ids] is the case [exception_ids is None] of
    line 284. *)
Fixpoint _traverse_obj (max_depth : nat) (obj : pyid) (prefix : string)
    (action : action_t) (crit : option crit_t) (fresh_ids : bool)
  : M tstate unit :=
  match crit with
  | None => raise TypeError
  | Some crit =>
      (if fresh_ids
       then modify (λ st, TState (objects st) [] (captured st))
       else mret tt) ;;
      st ← get;
      match shape_of (objects st) obj with
      | Plain => raise RuntimeError
      | c =>
          loop (λ elmt name,
                  match max_depth with
                  | S max_depth' =>
                      _traverse_obj max_depth' elmt name action None false
                  | 0 => raise RecursionError
                  end)
               action crit obj prefix (seq 0 (length (slots c)))
      end
  end.

End Traverse.

(** ** [_get_tensors] and [_set_tensors] *)

(** Lines 338-340: [res.append(elmt); names.append(name)] *)
Definition get_action : @action_t (list pyid * list string) :=
  λ elmt name objdict key,
    modify (λ st, TState (objects st) (exception_ids st)
                    ((captured st).1 ++ [elmt], (captured st).2 ++ [name])).

(** The traversal of [_get_tensors], with the store it ends in. *)
Definition get_run (h : heap) (obj : pyid) (prefix : string)
    (max_depth : nat) : tstate * result unit :=
  _traverse_obj max_depth obj prefix get_action (Some is_float) true
    (TState h [] ([], [])).

Definition _get_tensors (h : heap) (obj : pyid) (prefix : string)
    (max_depth : nat) : result (list pyid * list string) :=
  match get_run h obj prefix max_depth with
  | (st, Ok _) => Ok (captured st)
  | (_, Raise e) => Raise e
  end.

(** Lines 361-362: [objdict[key] = all_params.pop(0)] *)
Definition set_action : @action_t (list pyid) :=
  λ elmt name objdict key,
    st ← get;
    match captured st with
    | [] => raise IndexError
    | p :: all_params =>
        h ← lift (setitem (objects st) objdict key p);
        put (TState h (exception_ids st) all_params)
    end.

(** [_set_tensors(obj, all_params, max_depth)]: the store it leaves, what
    is left of the list [all_params] of the caller, and the outcome. *)
Definition _set_tensors (h : heap) (obj : pyid) (all_params : list pyid)
    (max_depth : nat) : heap * list pyid * result unit :=
  match _traverse_obj max_depth obj "self" set_action (Some is_float) true
          (TState h [] all_params) with
  | (st, r) => (objects st, captured st, r)
  end.

(** ** The traversal as a function of the slots of the root *)

(** What lines 310-313 do with an element to recurse into: at depth 0
    they raise [RecursionError]; otherwise they make the call of line
    311, which passes no [crit] and fails with [TypeError]. *)
Definition depth_error (max_depth : nat) : exn :=
  match max_depth with
  | 0 => RecursionError
  | S _ => TypeError
  end.

(** The loop of [_get_tensors] over the slots [sl], by recursion on
    [sl]: the identities seen, the two lists collected and the outcome.
    [e] is the exception of an element to recurse into. *)
Fixpoint collect (h : heap) (e : exn) (prefix : string)
    (sl : list (key * nat)) (ids res : list nat) (names : list string)
  : list nat * (list nat * list string) * result unit :=
  match sl with
  | [] => (ids, (res, names), Ok tt)
  | (k, x) :: sl =>
      if decide (x ∈ ids) then collect h e prefix sl ids res names
      else if is_float h x
      then collect h e prefix sl (ids ++ [x]) (res ++ [x])
             (names ++ [name_format prefix k])
      else if traversable h x then (ids ++ [x], (res, names), Raise e)
      else collect h e prefix sl (ids ++ [x]) res names
  end.

(** The loop of [_set_tensors] over the slots [sl]: the slots it leaves,
    the identities seen, what is left of [all_params] and the outcome. *)
Fixpoint install (h : heap) (e : exn) (sl : list (key * nat))
    (ids all_params : list nat)
  : list (key * nat) * list nat * list nat * result unit :=
  match sl with
  | [] => ([], ids, all_params, Ok tt)
  | (k, x) :: sl =>
      if decide (x ∈ ids)
      then let '(sl', ids', ps', r) := install h e sl ids all_params in
           ((k, x) :: sl', ids', ps', r)
      else if is_float h x
      then match all_params with
           | [] => ((k, x) :: sl, ids ++ [x], [], Raise IndexError)
           | p :: all_params =>
               let '(sl', ids', ps', r) :=
                 install h e sl (ids ++ [x]) all_params in
               ((k, p) :: sl', ids', ps', r)
           end
      else if traversable h x
      then ((k, x) :: sl, ids ++ [x], all_params, Raise e)
      else let '(sl', ids', ps', r) :=
             install h e sl (ids ++ [x]) all_params in
           ((k, x) :: sl', ids', ps', r)
  end.

(** [h'] is [h] but for the elements in the slots of [obj], which are
    [sl]. *)
Record heap_at (h : heap) (obj : nat) (sl : list (key * nat)) (h' : heap)
  : Prop := {
  at_float : ∀ x, is_float h' x = is_float h x;
  at_traversable : ∀ x, traversable h' x = traversable h x;
  at_slots : slots (shape_of h' obj) = sl;
  at_frame : ∀ x, x ≠ obj → h' !! x = h !! x;
}.

(** Every slot holds a float tensor or a value that has neither
    attributes nor iteration: the loop of lines 300-313 never reaches
    line 310. *)
Definition flat (h : heap) (sl : list (key * nat)) : Prop :=
  ∀ k x, (k, x) ∈ sl → is_float h x = true ∨ traversable h x = false.

(** The float tensors in the slots, in the order of the slots. *)
Definition tensors_of (h : heap) (sl : list (key * nat)) : list nat :=
  filter (λ x, is_float h x = true) sl.*2.

(** ** Objects of the examples *)

(** A float tensor: it has a [__dict__], with no element in it. *)
Definition tensor : pyobj := PyObj true (HasDict []).

(** An instance of a class with the attributes [d]. *)
Definition instance (d : list (string * nat)) : pyobj :=
  PyObj false (HasDict d).

(** A Python list. *)
Definition pylist (l : list nat) : pyobj := PyObj false (HasIter l).

(** [obj.x = t1; obj.n = 99; obj.y = t2], and two more tensors. *)
Definition flat_heap : heap :=
  list_to_map [(0, instance [("x", 1); ("n", 99); ("y", 2)]);
               (1, tensor); (2, tensor); (10, tensor); (11, tensor)].

(** [obj.x = t; obj.y = t]: one tensor under two attributes, and one
    more tensor. *)
Definition aliased_heap : heap :=
  list_to_map [(0, instance [("x", 1); ("y", 1)]);
               (1, tensor); (10, tensor)].

(** [obj.x = t; obj.n = 99; obj.y = t]. *)
Definition shared_heap : heap :=
  list_to_map [(0, instance [("x", 1); ("n", 99); ("y", 1)]);
               (1, tensor); (10, tensor)].

(** [A.b = B; B.a = A; B.t = t]. *)
Definition cyclic_heap : heap :=
  list_to_map [(0, instance [("b", 1)]);
               (1, instance [("a", 0); ("t", 2)]);
               (2, tensor)].

(** [obj.a = [[]]]: two lists below the root. *)
Definition nested_heap : heap :=
  list_to_map [(0, instance [("a", 1)]); (1, pylist [2]); (2, pylist [])].

(** [obj.n = 7]: the number has neither [__dict__] nor [__iter__]. *)
Definition atom_heap : heap :=
  list_to_map [(0, instance [("n", 7)])].

(** [obj.c = []; obj.x = t; obj.y = t]: an empty list in the slot before
    the two slots of one tensor. *)
Definition behind_container_heap : heap :=
  list_to_map [(0, instance [("c", 3); ("x", 1); ("y", 1)]);
               (1, tensor); (3, pylist []); (10, tensor)].

(** [obj.w = t1; obj.b = 2; obj.c = t3]: the attribute [b] holds a
    number. *)
Definition number_heap : heap :=
  list_to_map [(0, instance [("w", 1); ("b", 2); ("c", 3)]);
               (1, tensor); (3, tensor)].

(** ** A module for the examples *)

(** A module with three tensors [w], [b] and [c] whose operation reads
    [w] twice: [getparams] returns [[w, b, w, c]], and [setparams] takes
    four tensors, stores them in the attributes and returns 4. *)
Definition ex_getparams (methodname : string) (u : nat * nat * nat)
  : list nat :=
  [u.1.1; u.1.2; u.1.1; u.2].

Definition ex_setparams (methodname : string) (params : list (option nat))
    (u : nat * nat * nat) : (nat * nat * nat) * result nat :=
  match params with
  | Some p0 :: Some p1 :: Some p2 :: Some p3 :: _ => ((p2, p1, p3), Ok 4)
  | _ => (u, Raise TypeError)
  end.

(** The new instance with the tensors 1, 2 and 3. *)
Definition ex_module : @module (nat * nat * nat) := fresh (1, 2, 3).

(** A block that reads the parameters and returns, and one that reads
    them and raises. *)
Definition ex_block : M (@module (nat * nat * nat)) unit :=
  call_getparams ex_getparams "forward" ;; mret tt.

Definition ex_failing_block : M (@module (nat * nat * nat)) unit :=
  call_getparams ex_getparams "forward" ;; raise (UserError 0).

(** A block that reads the parameters and is interrupted. *)
Definition ex_interrupted_block : M (@module (nat * nat * nat)) unit :=
  call_getparams ex_getparams "forward" ;; raise (BaseOnly 0).

(** The instance after a first call of [_get_unique_params_idxs]. *)
Definition ex_scanned : @module (nat * nat * nat) :=
  (_get_unique_params_idxs ex_getparams "forward" None ex_module).1.

(** The reachable tensors of the instance, a fourth one included, with
    their names, and the gradients of a run in which [c] gets none. *)
Definition ex_all : list (nat * string) :=
  [(1, "self.w"); (2, "self.b"); (3, "self.c"); (4, "self.d")].

Definition ex_grads : list bool := [true; true; false; true].

(** Unfolding of the monad's operations. *)
Ltac munfold :=
  unfold mbind, mret, M_bind, M_ret, bind, ret, raise, get, put, modify,
    lift, attempt, or_raise in *.

(** * Properties *)

(** ** [list.index] *)

Lemma index_Some `{EqDecision A} (x : A) (l : list A) (j : nat) :
  index x l = Some j ↔ l !! j = Some x ∧ ∀ j', j' < j → l !! j' ≠ Some x.
Proof.
  unfold index. split.
  - intros H. apply fmap_Some in H as ([j' y] & Hf & ->).
    apply list_find_Some in Hf as (Hl & -> & Hmin). split; [done|].
    intros j'' Hlt Hj''. by apply (Hmin j'' x).
  - intros [Hl Hmin]. apply fmap_Some. exists (j, x). split; [|done].
    apply list_find_Some. split_and!; [done..|].
    intros j' y Hy Hlt ->. by apply (Hmin j').
Qed.

Lemma index_None `{EqDecision A} (x : A) (l : list A) :
  index x l = None ↔ x ∉ l.
Proof.
  unfold index. rewrite fmap_None, list_find_None, Forall_forall.
  split; intros H; [intros Hx; by apply (H x)|by intros y Hy ->].
Qed.

Lemma index_NoDup `{EqDecision A} (x : A) (l : list A) (j : nat) :
  NoDup l → l !! j = Some x → index x l = Some j.
Proof.
  intros Hnd Hj. apply index_Some. split; [done|].
  intros j' Hlt Hj'. pose proof (NoDup_lookup l j' j x Hnd Hj' Hj). lia.
Qed.

Lemma index_is_Some `{EqDecision A} (x : A) (l : list A) :
  x ∈ l → ∃ j, index x l = Some j.
Proof.
  intros Hx. destruct (index x l) as [j|] eqn:E; [by exists j|].
  by apply index_None in E.
Qed.

(** ** The scan of lines 66-83 *)

Lemma scan_inv_init l : scan_inv l 0 [] [] [].
Proof. split; try done; [constructor|intros; lia]. Qed.

Lemma scan_inv_step l k ids idxs idx_map :
  k < length l →
  scan_inv l k ids idxs idx_map →
  let r := scan_step l (ids, idxs, idx_map) k in
  scan_inv l (S k) r.1.1 r.1.2 r.2.
Proof.
  intros Hk [Hnd Hli Hlm Hidx Hmap Hcov]. unfold scan_step.
  destruct (lookup_lt_is_Some_2 l k Hk) as [x Hx]. rewrite Hx.
  destruct (index x ids) as [jf|] eqn:Ei; simpl.
  - apply index_Some in Ei as [Hjf _].
    assert (jf < length idx_map) as Hjlt
      by (rewrite Hlm; by eapply lookup_lt_Some).
    destruct (lookup_lt_is_Some_2 idx_map jf Hjlt) as [gf Hgf].
    split; auto.
    + by rewrite length_alter.
    + intros j i Hj. destruct (Hidx j i Hj). split; [lia|done].
    + intros j g i Hg Hi. destruct (decide (j = jf)) as [->|Hne].
      * rewrite list_lookup_alter_eq, Hgf in Hg. simplify_eq/=.
        apply elem_of_app in Hi as [Hi|Hi].
        -- destruct (Hmap jf gf i Hgf Hi). split; [lia|done].
        -- apply list_elem_of_singleton in Hi as ->. split; [lia|congruence].
      * rewrite list_lookup_alter_ne in Hg by done.
        destruct (Hmap j g i Hg Hi). split; [lia|done].
    + intros i y Hi Hy. destruct (decide (i = k)) as [->|Hne].
      * simplify_eq. exists jf, (gf ++ [k]). split_and!; [done| |].
        -- by rewrite list_lookup_alter_eq, Hgf.
        -- apply elem_of_app. right. by apply list_elem_of_singleton.
      * destruct (Hcov i y) as (j & g & Hj & Hg & Hin); [lia|done|].
        destruct (decide (j = jf)) as [->|Hne'].
        -- exists jf, (g ++ [k]). split_and!; [done| |].
           ++ by rewrite list_lookup_alter_eq, Hg.
           ++ apply elem_of_app. by left.
        -- exists j, g. by rewrite list_lookup_alter_ne.
  - apply index_None in Ei. split.
    + apply NoDup_app. split_and!; [done| |apply NoDup_singleton].
      intros y Hy Hy'. apply list_elem_of_singleton in Hy' as ->. done.
    + by rewrite !length_app, Hli.
    + by rewrite !length_app, Hlm.
    + intros j i Hj. apply lookup_app_Some in Hj as [Hj|[Hge Hj]].
      * destruct (Hidx j i Hj) as [? Hl]. split; [lia|].
        rewrite lookup_app_l; [done|]. rewrite <- Hli. by eapply lookup_lt_Some.
      * apply list_lookup_singleton_Some in Hj as [Hj ->].
        split; [lia|]. rewrite Hx. symmetry.
        apply lookup_app_Some. right. split; [lia|].
        replace (j - length ids) with 0 by lia. done.
    + intros j g i Hg Hi. apply lookup_app_Some in Hg as [Hg|[Hge Hg]].
      * destruct (Hmap j g i Hg Hi) as [? Hl]. split; [lia|].
        rewrite lookup_app_l; [done|]. rewrite <- Hlm. by eapply lookup_lt_Some.
      * apply list_lookup_singleton_Some in Hg as [Hj <-].
        apply list_elem_of_singleton in Hi as ->.
        split; [lia|]. rewrite Hx. symmetry.
        apply lookup_app_Some. right. split; [lia|].
        replace (j - length ids) with 0 by lia. done.
    + intros i y Hi Hy. destruct (decide (i = k)) as [->|Hne].
      * simplify_eq. exists (length ids), [k]. split_and!.
        -- by apply list_lookup_middle.
        -- rewrite <- Hlm. by apply list_lookup_middle.
        -- by apply list_elem_of_singleton.
      * destruct (Hcov i y) as (j & g & Hj & Hg & Hin); [lia|done|].
        exists j, g. split_and!; [|by apply lookup_app_l_Some|done].
        by apply lookup_app_l_Some.
Qed.

Lemma scan_inv_foldl l n : ∀ k ids idxs idx_map,
  k + n ≤ length l →
  scan_inv l k ids idxs idx_map →
  let r := foldl (scan_step l) (ids, idxs, idx_map) (seq k n) in
  scan_inv l (k + n) r.1.1 r.1.2 r.2.
Proof.
  induction n as [|n IH]; intros k ids idxs idx_map Hle Hinv;
    cbn [seq foldl]; cbv zeta.
  - by rewrite Nat.add_0_r.
  - pose proof (scan_inv_step l k ids idxs idx_map ltac:(lia) Hinv) as Hs.
    cbv zeta in Hs.
    destruct (scan_step l (ids, idxs, idx_map) k) as [[ids1 idxs1] map1].
    specialize (IH (S k) ids1 idxs1 map1 ltac:(lia) Hs).
    replace (k + S n) with (S k + n) by lia. exact IH.
Qed.

Lemma scan_spec l : scan_inv l (length l) (scan l).1.1 (scan l).1.2 (scan l).2.
Proof.
  unfold scan.
  apply (scan_inv_foldl l (length l) 0 [] [] []); [lia|apply scan_inv_init].
Qed.

(** ** Rebuilding the full list: lines 41-48 *)

Lemma broadcast_spec (g : list nat) (p : nat) (t : list (option nat)) :
  ∀ acc : list (option nat),
  (∀ i, i ∈ g → i < length acc ∧ t !! i = Some (Some p)) →
  ∃ acc', broadcast g p acc = Ok acc' ∧ length acc' = length acc ∧
          ∀ i, i ∈ g ∨ acc !! i = t !! i → acc' !! i = t !! i.
Proof.
  induction g as [|i0 g IH]; intros acc Hg; simpl.
  - exists acc. split_and!; [done..|].
    intros i [Hi|Hi]; [by apply elem_of_nil in Hi|done].
  - destruct (Hg i0) as [Hlt Ht]; [by left|].
    rewrite decide_True by done.
    destruct (IH (<[i0 := Some p]> acc)) as (acc' & Hb & Hlen & Hagree).
    { intros i Hi. rewrite length_insert. apply Hg. by right. }
    exists acc'. split_and!; [done|by rewrite Hlen, length_insert|].
    intros i Hi. apply Hagree.
    destruct (decide (i = i0)) as [->|Hne].
    + right. by rewrite list_lookup_insert_eq.
    + destruct Hi as [Hi|Hi].
      * apply elem_of_cons in Hi as [?|?]; [done|by left].
      * right. by rewrite list_lookup_insert_ne.
Qed.

Lemma fill_spec (maps : list (list nat)) (t : list (option nat))
    (us : list nat) :
  ∀ (j0 : nat) (acc : list (option nat)),
  (∀ j, j < length us → is_Some (maps !! (j0 + j))) →
  (∀ j u g i, us !! j = Some u → maps !! (j0 + j) = Some g → i ∈ g →
              i < length acc ∧ t !! i = Some (Some u)) →
  ∃ acc', fill maps j0 us acc = Ok acc' ∧ length acc' = length acc ∧
          ∀ i, (∃ j u g, us !! j = Some u ∧ maps !! (j0 + j) = Some g ∧ i ∈ g)
               ∨ acc !! i = t !! i → acc' !! i = t !! i.
Proof.
  induction us as [|u us IH]; intros j0 acc Hdom Hag; simpl.
  - exists acc. split_and!; [done..|].
    intros i [(j & u & g & Hu & _)|Hi]; [done|done].
  - destruct (Hdom 0) as [g Hg]; [simpl; lia|].
    rewrite Nat.add_0_r in Hg. rewrite Hg.
    destruct (broadcast_spec g u t acc) as (acc1 & Hb & Hlen1 & Hag1).
    { intros i Hi. apply (Hag 0 u g i); [done|by rewrite Nat.add_0_r|done]. }
    rewrite Hb.
    destruct (IH (S j0) acc1) as (acc' & Hf & Hlen & Hag').
    { intros j Hj. replace (S j0 + j) with (j0 + S j) by lia.
      apply Hdom. simpl. lia. }
    { intros j u' g' i Hu' Hg' Hi. rewrite Hlen1.
      apply (Hag (S j) u' g' i); [done| |done].
      by replace (j0 + S j) with (S j0 + j) by lia. }
    exists acc'. split_and!; [done|congruence|].
    intros i Hi. apply Hag'. destruct Hi as [(j & u' & g' & Hu' & Hg' & Hi)|Hi].
    + destruct j as [|j].
      * rewrite Nat.add_0_r in Hg'. simplify_eq/=. right. apply Hag1. by left.
      * left. exists j, u', g'. split_and!; [done| |done].
        by replace (S j0 + j) with (j0 + S j) by lia.
    + right. apply Hag1. by right.
Qed.

Lemma fill_scan (l us : list nat) :
  length us = length (scan l).1.1 →
  fill (scan l).2 0 us (replicate (length l) None)
  = Ok (spread (scan l).1.1 us l).
Proof.
  intros Hlen. destruct (scan_spec l) as [Hnd Hli Hlm Hidx Hmap Hcov].
  set (ids := (scan l).1.1) in *. set (maps := (scan l).2) in *.
  destruct (fill_spec maps (spread ids us l) us 0 (replicate (length l) None))
    as (acc' & Hf & Hlen' & Hag).
  - intros j Hj. apply lookup_lt_is_Some_2. simpl. lia.
  - intros j u g i Hu Hg Hi. simpl in Hg.
    destruct (Hmap j g i Hg Hi) as [Hlt Hl]. rewrite length_replicate.
    split; [done|]. unfold spread. rewrite list_lookup_fmap.
    destruct (lookup_lt_is_Some_2 l i Hlt) as [x Hx]. rewrite Hx. simpl.
    rewrite (index_NoDup x ids j Hnd) by congruence. simpl. by rewrite Hu.
  - rewrite Hf. f_equal. rewrite length_replicate in Hlen'.
    apply (list_eq_same_length _ _ (length l)); [|done|].
    { unfold spread. by rewrite length_fmap. }
    intros i y z Hi Hy Hz. rewrite Hag in Hy; [congruence|]. left.
    destruct (lookup_lt_is_Some_2 l i Hi) as [x Hx].
    destruct (Hcov i x Hi Hx) as (j & g & Hj & Hg & Hin).
    assert (j < length us) as Hjlt by (rewrite Hlen; by eapply lookup_lt_Some).
    destruct (lookup_lt_is_Some_2 us j Hjlt) as [u Hu].
    exists j, u, g. done.
Qed.

Lemma elem_of_scan_ids (l : list nat) (x : nat) :
  x ∈ l → x ∈ (scan l).1.1.
Proof.
  intros Hx. destruct (scan_spec l) as [_ _ _ _ _ Hcov].
  apply list_elem_of_lookup in Hx as [i Hi].
  destruct (Hcov i x) as (j & g & Hj & _); [by eapply lookup_lt_Some|done|].
  apply list_elem_of_lookup. by exists j.
Qed.

(** The parameters of the scan, spread again, are the full list. *)
Lemma spread_ids (l : list nat) :
  spread (scan l).1.1 (scan l).1.1 l = Some <$> l.
Proof.
  unfold spread. apply list_fmap_ext. intros i x Hx.
  destruct (index_is_Some x (scan l).1.1) as [j Hj].
  { apply elem_of_scan_ids. apply list_elem_of_lookup. by exists i. }
  rewrite Hj. simpl. by apply index_Some in Hj as [? _].
Qed.

(** With as many unique parameters as there are groups, no position of
    the spread list is left [None]. *)
Lemma spread_full (l us : list nat) :
  length us = length (scan l).1.1 →
  spread (scan l).1.1 us l
  = Some <$> ((λ x, default 0 (index x (scan l).1.1 ≫= (us !!.))) <$> l).
Proof.
  intros Hlen.
  unfold spread. rewrite <- list_fmap_compose. apply list_fmap_ext.
  intros i x Hx. simpl.
  destruct (index_is_Some x (scan l).1.1) as [j Hj].
  { apply elem_of_scan_ids. apply list_elem_of_lookup. by exists i. }
  rewrite Hj. simpl. apply index_Some in Hj as [Hj _].
  assert (j < length us) as Hjlt by (rewrite Hlen; by eapply lookup_lt_Some).
  destruct (lookup_lt_is_Some_2 us j Hjlt) as [u Hu]. by rewrite Hu.
Qed.

(** [[allparams[i] for i in idxs]] on the indices of the scan gives the
    list [ids] of the scan. *)
Lemma pick_scan (l : list nat) : pick l (scan l).1.2 = Ok (scan l).1.1.
Proof.
  destruct (scan_spec l) as [_ Hli _ Hidx _ _]. unfold pick.
  replace (mapM (λ i, l !! i) (scan l).1.2) with (Some (scan l).1.1); [done|].
  symmetry. apply mapM_Some. apply Forall2_same_length_lookup_2; [done|].
  intros j i x Hi Hx. destruct (Hidx j i Hi) as [_ Hl]. congruence.
Qed.

(** ** The cache of the de-duplication layer *)

Lemma mbind_run {Σ A B} (c : M Σ A) (k : A → M Σ B) (σ : Σ) :
  (c ≫= k) σ = match c σ with
               | (σ', Ok a) => k a σ'
               | (σ', Raise e) => (σ', Raise e)
               end.
Proof. reflexivity. Qed.

Section EditableModuleFacts.

Context {Obj : Type}.
Variable getparams : string → Obj → list nat.
Variable setparams : string → list (option nat) → Obj → Obj * result nat.

Local Abbreviation module := (@module Obj).

(** A call for a name that has an entry returns the entry; the instance,
    its history included, stays as it is. *)
Lemma idxs_hit (m : string) (ap : option (list nat)) (st : module)
    (idxs : list nat) :
  cached_idxs m st = Some idxs →
  _get_unique_params_idxs getparams m ap st = (st, Ok idxs).
Proof.
  unfold cached_idxs. destruct st as [u [c|] h]; simpl; [|done].
  intros Hc. unfold _get_unique_params_idxs. munfold. simpl. by rewrite Hc.
Qed.

Lemma idxs_miss (m : string) (ap : option (list nat)) (st : module) :
  cached_idxs m st = None →
  _get_unique_params_idxs getparams m ap st
  = (stored m (default (getparams m (user st)) ap)
       (match ap with None => [EGetParams m] | Some _ => [] end ++ [EScan m])
       st,
     Ok (scan (default (getparams m (user st)) ap)).1.2).
Proof.
  unfold cached_idxs, stored. destruct st as [u [c|] h]; simpl; intros Hc.
  - unfold _get_unique_params_idxs, call_getparams, log. munfold. simpl.
    rewrite Hc. destruct ap as [l|]; simpl.
    + destruct (scan l) as [[ids idxs] maps]. simpl. done.
    + destruct (scan (getparams m u)) as [[ids idxs] maps]. simpl.
      by rewrite <- app_assoc.
  - unfold _get_unique_params_idxs, call_getparams, log. munfold. simpl.
    rewrite lookup_empty. destruct ap as [l|]; simpl.
    + destruct (scan l) as [[ids idxs] maps]. simpl. done.
    + destruct (scan (getparams m u)) as [[ids idxs] maps]. simpl.
      by rewrite <- app_assoc.
Qed.

Lemma stored_cache_of m l ev (st : module) :
  cache_of m l (stored m l ev st).
Proof.
  unfold cache_of, cached_idxs, cached_maps, cached_number, stored. simpl.
  by rewrite !lookup_insert_eq.
Qed.

Lemma stored_other m m' l ev (st : module) :
  m ≠ m' →
  cached_idxs m' (stored m l ev st) = cached_idxs m' st ∧
  cached_maps m' (stored m l ev st) = cached_maps m' st ∧
  cached_number m' (stored m l ev st) = cached_number m' st.
Proof.
  intros Hne. unfold cached_idxs, cached_maps, cached_number, stored. simpl.
  rewrite !lookup_insert_ne by done. by destruct (attrs st).
Qed.

Lemma call_getparams_spec m (st : module) :
  call_getparams getparams m st
  = (logged [EGetParams m] st, Ok (getparams m (user st))).
Proof. done. Qed.

Lemma call_setparams_spec m ps (st : module) :
  call_setparams setparams m ps st
  = (Module_ (setparams m ps (user st)).1 (attrs st)
       (history st ++ [ESetParams m ps]),
     (setparams m ps (user st)).2).
Proof.
  unfold call_setparams, log. munfold. simpl.
  by destruct (setparams m ps (user st)) as [u' [k|e]].
Qed.

Lemma getuniqueparams_miss m (st : module) :
  cached_idxs m st = None →
  getuniqueparams getparams m st
  = (stored m (getparams m (user st)) [EGetParams m; EScan m] st,
     Ok (scan (getparams m (user st))).1.1).
Proof.
  intros Hc. unfold getuniqueparams.
  rewrite mbind_run, call_getparams_spec, mbind_run.
  rewrite (idxs_miss m (Some _) (logged _ st)) by done. simpl.
  unfold lift. rewrite pick_scan. unfold stored, logged. simpl.
  by rewrite <- app_assoc.
Qed.

Lemma getuniqueparams_hit m (st : module) :
  cache_of m (getparams m (user st)) st →
  getuniqueparams getparams m st
  = (logged [EGetParams m] st, Ok (scan (getparams m (user st))).1.1).
Proof.
  intros (Hi & _ & _). unfold getuniqueparams.
  rewrite mbind_run, call_getparams_spec, mbind_run.
  rewrite (idxs_hit m (Some _) (logged _ st) _ Hi).
  unfold lift. by rewrite pick_scan.
Qed.

Lemma setuniqueparams_cached m l us (st : module) :
  cache_of m l st →
  length us = length (scan l).1.1 →
  setuniqueparams setparams m us st
  = call_setparams setparams m (spread (scan l).1.1 us l) st.
Proof.
  intros (_ & Hm & Hn) Hlen. unfold setuniqueparams, read_cache.
  unfold cached_maps, cached_number in *.
  destruct st as [u [c|] h]; simpl in *; [|done].
  munfold. simpl. rewrite Hn, Hm. simpl. by rewrite fill_scan.
Qed.

Lemma getuniqueparams_cached m (st : module) idxs :
  cached_idxs m st = Some idxs →
  getuniqueparams getparams m st
  = (logged [EGetParams m] st, pick (getparams m (user st)) idxs).
Proof.
  intros Hi. unfold getuniqueparams.
  rewrite mbind_run, call_getparams_spec, mbind_run.
  by rewrite (idxs_hit m (Some _) (logged _ st) _ Hi).
Qed.

Lemma setuniqueparams_state m us (st : module) :
  (setuniqueparams setparams m us st).1 = st ∨
  ∃ ps, (setuniqueparams setparams m us st).1
        = (call_setparams setparams m ps st).1.
Proof.
  unfold setuniqueparams, read_cache. munfold.
  destruct st as [u [c|] h]; simpl; [|by left].
  destruct (_number_of_params c !! m) as [n|]; simpl; [|by left].
  destruct (_unique_params_maps c !! m) as [maps|]; simpl; [|by left].
  destruct (fill maps 0 us (replicate n None)) as [ps|e]; simpl; [|by left].
  right. by exists ps.
Qed.

(** *** The scan runs at most once for a name *)

Lemma filter_absent `{EqDecision A} (x : A) (l : list A) :
  x ∉ l → filter (λ y, y = x) l = [].
Proof.
  induction l as [|y l IH]; intros Hx; [done|].
  apply not_elem_of_cons in Hx as [Hne Hx].
  rewrite filter_cons_False by congruence. by apply IH.
Qed.

Lemma occurrences_logged e ev (st : module) :
  occurrences e (logged ev st)
  = occurrences e st + length (filter (λ e', e' = e) ev).
Proof. unfold occurrences, logged. simpl. by rewrite filter_app, length_app. Qed.

Lemma scanned_once_logged ev (st : module) :
  (∀ m, EScan m ∉ ev) → scanned_once st → scanned_once (logged ev st).
Proof.
  intros Hev Hst m. rewrite occurrences_logged.
  replace (filter (λ e', e' = EScan m) ev) with (@nil event).
  - simpl. rewrite Nat.add_0_r. apply Hst.
  - symmetry. apply filter_absent, Hev.
Qed.

Lemma scanned_once_setparams m ps (st : module) :
  scanned_once st → scanned_once (call_setparams setparams m ps st).1.
Proof.
  intros Hst. rewrite call_setparams_spec. simpl.
  apply (scanned_once_logged [ESetParams m ps] (Module_ _ (attrs st) (history st))).
  - intros m' Hin. by apply list_elem_of_singleton in Hin.
  - exact Hst.
Qed.

Lemma scanned_once_stored m l ev (st : module) :
  cached_idxs m st = None →
  (∀ m', EScan m' ∉ ev) →
  scanned_once st → scanned_once (stored m l (ev ++ [EScan m]) st).
Proof.
  intros Hc Hev Hst m'.
  unfold occurrences. simpl. rewrite !filter_app, !length_app.
  replace (filter (λ e', e' = EScan m') ev) with (@nil event).
  2:{ symmetry. apply filter_absent, Hev. }
  simpl. destruct (decide (m = m')) as [->|Hne].
  - destruct (stored_cache_of m' l (ev ++ [EScan m']) st) as (-> & _).
    rewrite filter_cons_True by done. simpl.
    specialize (Hst m'). rewrite Hc in Hst.
    unfold occurrences in Hst. rewrite Hst. done.
  - destruct (stored_other m m' l (ev ++ [EScan m]) st Hne) as (-> & _).
    rewrite filter_cons_False by congruence. simpl.
    rewrite Nat.add_0_r. apply Hst.
Qed.

Lemma scanned_once_idxs m ap (st : module) :
  scanned_once st →
  scanned_once (_get_unique_params_idxs getparams m ap st).1.
Proof.
  intros Hst. destruct (cached_idxs m st) as [idxs|] eqn:Hc.
  - by rewrite (idxs_hit m ap st idxs Hc).
  - rewrite (idxs_miss m ap st Hc). simpl.
    apply scanned_once_stored; [done| |done].
    intros m' Hin. destruct ap; [by apply elem_of_nil in Hin|].
    by apply list_elem_of_singleton in Hin.
Qed.

Lemma scanned_once_call c (st : module) :
  scanned_once st → scanned_once (run_call getparams setparams c st).1.
Proof.
  intros Hst. destruct c as [m ap|m|m us|m|m ps]; unfold run_call; rewrite mbind_run.
  - pose proof (scanned_once_idxs m ap st Hst) as H.
    by destruct (_get_unique_params_idxs getparams m ap st) as [st' [x|e]].
  - assert (scanned_once (getuniqueparams getparams m st).1) as H.
    { destruct (cached_idxs m st) as [idxs|] eqn:Hc.
      - rewrite (getuniqueparams_cached m st idxs Hc). simpl.
        apply scanned_once_logged; [|done].
        intros m' Hin. by apply list_elem_of_singleton in Hin.
      - rewrite (getuniqueparams_miss m st Hc). simpl.
        apply (scanned_once_stored m _ [EGetParams m]); [done| |done].
        intros m' Hin. by apply list_elem_of_singleton in Hin. }
    by destruct (getuniqueparams getparams m st) as [st' [x|e]].
  - assert (scanned_once (setuniqueparams setparams m us st).1) as H.
    { destruct (setuniqueparams_state m us st) as [->|[ps ->]]; [done|].
      by apply scanned_once_setparams. }
    by destruct (setuniqueparams setparams m us st) as [st' [x|e]].
  - rewrite call_getparams_spec. simpl.
    apply scanned_once_logged; [|done].
    intros m' Hin. by apply list_elem_of_singleton in Hin.
  - pose proof (scanned_once_setparams m ps st Hst) as H.
    by destruct (call_setparams setparams m ps st) as [st' [x|e]].
Qed.

Lemma scanned_once_calls cs : ∀ st : module,
  scanned_once st → scanned_once (run_calls getparams setparams cs st).
Proof.
  induction cs as [|c cs IH]; intros st Hst; simpl; [done|].
  by apply IH, scanned_once_call.
Qed.

Lemma scanned_once_fresh (u : Obj) : scanned_once (fresh u).
Proof. intros m. done. Qed.

(** An entry, once stored, outlives every call. *)
Lemma cached_idxs_call c m (st : module) idxs :
  cached_idxs m st = Some idxs →
  cached_idxs m (run_call getparams setparams c st).1 = Some idxs.
Proof.
  intros Hc.
  assert (∀ m' ps, cached_idxs m (call_setparams setparams m' ps st).1
                   = Some idxs) as Hset.
  { intros m' ps. by rewrite call_setparams_spec. }
  assert (∀ m' ap, cached_idxs m (_get_unique_params_idxs getparams m' ap st).1
                   = Some idxs) as Hidx.
  { intros m' ap. destruct (cached_idxs m' st) as [i'|] eqn:Hc'.
    - by rewrite (idxs_hit m' ap st i' Hc').
    - rewrite (idxs_miss m' ap st Hc'). simpl.
      destruct (decide (m' = m)) as [->|Hne]; [congruence|].
      by destruct (stored_other m' m (default (getparams m' (user st)) ap)
                     (match ap with None => [EGetParams m'] | Some _ => [] end
                      ++ [EScan m']) st Hne) as (-> & _). }
  destruct c as [m' ap|m'|m' us|m'|m' ps]; unfold run_call; rewrite mbind_run.
  - specialize (Hidx m' ap).
    by destruct (_get_unique_params_idxs getparams m' ap st) as [st' [x|e]].
  - assert (cached_idxs m (getuniqueparams getparams m' st).1 = Some idxs) as H.
    { destruct (cached_idxs m' st) as [i'|] eqn:Hc'.
      - by rewrite (getuniqueparams_cached m' st i' Hc').
      - rewrite (getuniqueparams_miss m' st Hc'). simpl.
        destruct (decide (m' = m)) as [->|Hne]; [congruence|].
        by destruct (stored_other m' m (getparams m' (user st))
                       [EGetParams m'; EScan m'] st Hne) as (-> & _). }
    by destruct (getuniqueparams getparams m' st) as [st' [x|e]].
  - assert (cached_idxs m (setuniqueparams setparams m' us st).1 = Some idxs)
      as H.
    { destruct (setuniqueparams_state m' us st) as [->|[ps ->]]; [done|].
      apply Hset. }
    by destruct (setuniqueparams setparams m' us st) as [st' [x|e]].
  - by rewrite call_getparams_spec.
  - specialize (Hset m' ps).
    by destruct (call_setparams setparams m' ps st) as [st' [x|e]].
Qed.

Lemma cached_idxs_calls cs m idxs : ∀ st : module,
  cached_idxs m st = Some idxs →
  cached_idxs m (run_calls getparams setparams cs st) = Some idxs.
Proof.
  induction cs as [|c cs IH]; intros st Hst; simpl; [done|].
  by apply IH, cached_idxs_call.
Qed.
(** ** The example of the specification: the list [[a, b, a, c]] *)

Lemma scan_abac (a b c : nat) :
  a ≠ b → a ≠ c → b ≠ c →
  scan [a; b; a; c] = ([a; b; c], [0; 1; 3], [[0; 2]; [1]; [3]]).
Proof.
  intros. unfold scan, scan_step, index. cbn.
  repeat (first [rewrite decide_True by done | rewrite decide_False by done];
          cbn).
  done.
Qed.

(** C1.  For a parameter list [[a, b, a, c]] whose positions 0 and 2 hold
    the same tensor, [_get_unique_params_idxs] returns [[0, 1, 3]] and
    stores the groups [[[0, 2], [1], [3]]]; after it,
    [setuniqueparams(op, a2, b2, c2)] is the call
    [setparams(op, a2, b2, a2, c2)]. *)
Theorem C1_unique_indices_abac (m : string) (st : module)
    (a b c a2 b2 c2 : nat) :
  a ≠ b → a ≠ c → b ≠ c →
  getparams m (user st) = [a; b; a; c] →
  cached_idxs m st = None →
  ∃ st1,
    _get_unique_params_idxs getparams m None st = (st1, Ok [0; 1; 3]) ∧
    cached_idxs m st1 = Some [0; 1; 3] ∧
    cached_maps m st1 = Some [[0; 2]; [1]; [3]] ∧
    cached_number m st1 = Some 4 ∧
    setuniqueparams setparams m [a2; b2; c2] st1
    = call_setparams setparams m [Some a2; Some b2; Some a2; Some c2] st1.
Proof.
  intros Hab Hac Hbc Hl Hc.
  pose proof (scan_abac a b c Hab Hac Hbc) as Hs.
  rewrite (idxs_miss m None st Hc). simpl. rewrite Hl, Hs. simpl.
  eexists. split; [done|].
  pose proof (stored_cache_of m [a; b; a; c] [EGetParams m; EScan m] st)
    as Hco.
  pose proof Hco as (Hi & Hm & Hn). rewrite Hs in Hi, Hm. simpl in *.
  split_and!; [done..|].
  rewrite (setuniqueparams_cached m [a; b; a; c] [a2; b2; c2] _ Hco)
    by by rewrite Hs.
  rewrite Hs. unfold spread, index. cbn.
  repeat (first [rewrite decide_True by done | rewrite decide_False by done];
          cbn).
  done.
Qed.

(** C7.  The index computation runs at most once for an instance and an
    operation name: a call of [_get_unique_params_idxs] for a name
    without an entry stores the index list, the group map and the length
    of the full list; a call for a name with an entry returns the stored
    list and leaves the instance, its history included, as it is (no
    call of [getparams], no scan); an entry outlives every later call;
    and over any sequence of calls on a new instance the scan of a name
    is run at most once. *)
Theorem C7_computed_once (m : string) :
  (∀ (st : module) ap,
     cached_idxs m st = None →
     ∃ st', _get_unique_params_idxs getparams m ap st
            = (st', Ok (scan (default (getparams m (user st)) ap)).1.2) ∧
            cache_of m (default (getparams m (user st)) ap) st' ∧
            occurrences (EScan m) st' = S (occurrences (EScan m) st)) ∧
  (∀ (st : module) ap idxs,
     cached_idxs m st = Some idxs →
     _get_unique_params_idxs getparams m ap st = (st, Ok idxs)) ∧
  (∀ cs (st : module) idxs,
     cached_idxs m st = Some idxs →
     cached_idxs m (run_calls getparams setparams cs st) = Some idxs) ∧
  (∀ cs (u : Obj),
     occurrences (EScan m) (run_calls getparams setparams cs (fresh u)) ≤ 1) ∧
  (∀ (st : module) idxs,
     cached_idxs m st = Some idxs →
     (getuniqueparams getparams m st).1 = logged [EGetParams m] st) ∧
  (∀ (st : module) us e,
     e ∈ history (setuniqueparams setparams m us st).1 →
     e ∈ history st ∨ ∃ ps, e = ESetParams m ps).
Proof.
  split_and!.
  - intros st ap Hc. rewrite (idxs_miss m ap st Hc). eexists.
    split_and!; [done|apply stored_cache_of|].
    unfold occurrences, stored. simpl. rewrite !filter_app, !length_app.
    rewrite filter_cons_True by done. simpl.
    replace (filter (λ e', e' = EScan m)
               (match ap with None => [EGetParams m] | Some _ => [] end))
      with (@nil event); [simpl; lia|].
    destruct ap; [done|]. by rewrite filter_cons_False.
  - intros st ap idxs. apply idxs_hit.
  - intros cs st idxs. apply cached_idxs_calls.
  - intros cs u.
    pose proof (scanned_once_calls cs (fresh u) (scanned_once_fresh u) m) as H.
    rewrite H. destruct (cached_idxs m _); lia.
  - intros st idxs Hc. by rewrite (getuniqueparams_cached m st idxs Hc).
  - intros st us e He.
    destruct (setuniqueparams_state m us st) as [Heq|[ps Heq]];
      rewrite Heq in He; [by left|].
    rewrite call_setparams_spec in He. simpl in He.
    apply elem_of_app in He as [He|He]; [by left|].
    apply list_elem_of_singleton in He. right. by exists ps.
Qed.

(** ** [useparams] *)

Lemma spread_follows (slots l us : list nat) :
  follows slots l →
  length us = length (scan l).1.1 →
  ∃ l', spread (scan l).1.1 us l = Some <$> l' ∧ follows slots l'.
Proof.
  intros [Hlen Hal] Hus. eexists. split; [by apply spread_full|].
  split; [by rewrite length_fmap|].
  intros i j s Hi Hj. rewrite !list_lookup_fmap.
  by rewrite (Hal i j s Hi Hj).
Qed.

Lemma cache_of_attrs m l (st st' : module) :
  attrs st' = attrs st → cache_of m l st → cache_of m l st'.
Proof.
  unfold cache_of, cached_idxs, cached_maps, cached_number.
  by intros ->.
Qed.

Lemma setuniqueparams_attrs m us (st : module) :
  attrs (setuniqueparams setparams m us st).1 = attrs st.
Proof.
  destruct (setuniqueparams_state m us st) as [->|[ps ->]]; [done|].
  by rewrite call_setparams_spec.
Qed.

Section Conforming.

Variable m : string.
Variable slots : list nat.
Hypothesis Hget : ∀ u, follows slots (getparams m u).
Hypothesis Hset : ∀ u l, follows slots l →
  ∃ u', setparams m (Some <$> l) u = (u', Ok (length l)) ∧
        getparams m u' = l.

Lemma restore_spec (l0 : list nat) (st : module) :
  follows slots l0 →
  cache_of m l0 st →
  ∃ st', setuniqueparams setparams m (scan l0).1.1 st
         = (st', Ok (length l0)) ∧
         restored getparams m l0 st' ∧
         history st' = history st ++ [ESetParams m (Some <$> l0)].
Proof.
  intros Hf Hc.
  rewrite (setuniqueparams_cached m l0 _ st Hc) by done.
  rewrite spread_ids, call_setparams_spec.
  destruct (Hset (user st) l0 Hf) as (u' & Hs & Hg). rewrite Hs. simpl.
  eexists. split_and!; [done| |done]. unfold restored. simpl.
  split_and!; [done|by apply (cache_of_attrs m l0 st)|by rewrite last_snoc].
Qed.

Lemma handlers_spec (l0 : list nat) (pending : option exn) (st : module) :
  follows slots l0 →
  cache_of m l0 st →
  ∃ st', handlers setparams m (Some (scan l0).1.1) pending st
         = (st', match pending with
                 | Some e => if isinstance_Exception e then Ok tt else Raise e
                 | None => Ok tt
                 end) ∧
         restored getparams m l0 st' ∧
         history st'
         = history st
           ++ match pending with
              | Some e => if isinstance_Exception e then [EPrintExc e] else []
              | None => []
              end
           ++ [ESetParams m (Some <$> l0)].
Proof.
  intros Hf Hc. unfold handlers. rewrite mbind_run.
  destruct pending as [e|]; [destruct (isinstance_Exception e) eqn:He|].
  - rewrite mbind_run. unfold log, modify. simpl. rewrite mbind_run.
    destruct (restore_spec l0 (Module_ (user st) (attrs st)
                                 (history st ++ [EPrintExc e])) Hf)
      as (st' & Hr & Hres & Hh); [by apply (cache_of_attrs m l0 st)|].
    rewrite Hr. simpl. exists st'. split_and!; [done..|].
    rewrite Hh. simpl. by rewrite <- app_assoc.
  - simpl. rewrite mbind_run.
    destruct (restore_spec l0 st Hf Hc) as (st' & Hr & Hres & Hh).
    rewrite Hr. simpl. by exists st'.
  - simpl. rewrite mbind_run.
    destruct (restore_spec l0 st Hf Hc) as (st' & Hr & Hres & Hh).
    rewrite Hr. simpl. by exists st'.
Qed.

Lemma getuniqueparams_current (st : module) :
  cache_current getparams m st →
  ∃ st', getuniqueparams getparams m st
         = (st', Ok (scan (getparams m (user st))).1.1) ∧
         cache_of m (getparams m (user st)) st' ∧ user st' = user st.
Proof.
  intros [Hc|Hc].
  - rewrite (getuniqueparams_miss m st Hc). eexists.
    split_and!; [done|apply stored_cache_of|done].
  - rewrite (getuniqueparams_hit m st Hc). eexists.
    split_and!; [done| |done]. by apply (cache_of_attrs m _ st).
Qed.

(** Whatever the replacement parameters and whatever the block does
    short of touching the cache of [m], the [with] statement leaves the
    instance restored. *)
Lemma with_useparams_restores (params : list nat) (body : M module unit)
    (st0 : module) :
  cache_current getparams m st0 →
  (∀ st, cache_of m (getparams m (user st0)) st →
         cache_of m (getparams m (user st0)) (body st).1) →
  restored getparams m (getparams m (user st0))
    (with_useparams getparams setparams m params body st0).1.
Proof.
  intros Hcur Hbody. set (l0 := getparams m (user st0)) in *.
  pose proof (Hget (user st0)) as Hf. fold l0 in Hf.
  destruct (getuniqueparams_current st0 Hcur) as (st1 & Hg & Hc1 & Hu1).
  fold l0 in Hg, Hc1.
  unfold with_useparams, useparams_start. rewrite !mbind_run.
  unfold attempt at 1. rewrite Hg.
  rewrite mbind_run. unfold attempt at 1.
  destruct (setuniqueparams setparams m params st1) as [st2 [k|e]] eqn:Hs.
  - assert (cache_of m l0 st2) as Hc2.
    { apply (cache_of_attrs m l0 st1); [|done].
      pose proof (setuniqueparams_attrs m params st1) as Ha.
      by rewrite Hs in Ha. }
    cbn [mret M_ret ret]. rewrite mbind_run. unfold attempt.
    pose proof (Hbody st2 Hc2) as Hc3.
    destruct (body st2) as [st3 [[]|e]]; simpl in Hc3; unfold useparams_resume.
    + destruct (handlers_spec l0 None st3 Hf Hc3) as (st' & -> & Hres & _).
      done.
    + destruct (handlers_spec l0 (Some e) st3 Hf Hc3) as (st' & -> & Hres & _).
      done.
  - assert (cache_of m l0 st2) as Hc2.
    { apply (cache_of_attrs m l0 st1); [|done].
      pose proof (setuniqueparams_attrs m params st1) as Ha.
      by rewrite Hs in Ha. }
    rewrite mbind_run.
    destruct (handlers_spec l0 (Some e) st2 Hf Hc2) as (st' & -> & Hres & _).
    by destruct (isinstance_Exception e).
Qed.

(** The block is entered when there are as many replacement parameters
    as unique parameters; its outcome then decides the outcome of the
    [with] statement as [except Exception] and [finally] say. *)
Lemma with_useparams_outcome (params : list nat) (body : M module unit)
    (st0 : module) :
  cache_current getparams m st0 →
  (∀ st, cache_of m (getparams m (user st0)) st →
         cache_of m (getparams m (user st0)) (body st).1) →
  length params = length (scan (getparams m (user st0))).1.1 →
  ∃ st2 st',
    with_useparams getparams setparams m params body st0
    = (st', match (body st2).2 with
            | Ok _ => Ok tt
            | Raise e => if isinstance_Exception e then Ok tt else Raise e
            end) ∧
    history st'
    = history (body st2).1
      ++ match (body st2).2 with
         | Ok _ => []
         | Raise e => if isinstance_Exception e then [EPrintExc e] else []
         end
      ++ [ESetParams m (Some <$> getparams m (user st0))].
Proof.
  intros Hcur Hbody Hlen. set (l0 := getparams m (user st0)) in *.
  pose proof (Hget (user st0)) as Hf. fold l0 in Hf.
  destruct (getuniqueparams_current st0 Hcur) as (st1 & Hg & Hc1 & Hu1).
  fold l0 in Hg, Hc1.
  unfold with_useparams, useparams_start. rewrite !mbind_run.
  unfold attempt at 1. rewrite Hg.
  rewrite mbind_run. unfold attempt at 1.
  rewrite (setuniqueparams_cached m l0 params st1 Hc1 Hlen).
  destruct (spread_follows slots l0 params Hf Hlen) as (l' & -> & Hf').
  rewrite call_setparams_spec.
  destruct (Hset (user st1) l' Hf') as (u' & -> & Hu'). simpl.
  set (st2 := Module_ u' (attrs st1) (history st1 ++ [ESetParams m (Some <$> l')])).
  assert (cache_of m l0 st2) as Hc2 by by apply (cache_of_attrs m l0 st1).
  rewrite mbind_run. unfold attempt.
  pose proof (Hbody st2 Hc2) as Hc3. exists st2.
  destruct (body st2) as [st3 [[]|e]]; simpl in *; unfold useparams_resume.
  - destruct (handlers_spec l0 None st3 Hf Hc3) as (st' & -> & _ & Hh).
    by exists st'.
  - destruct (handlers_spec l0 (Some e) st3 Hf Hc3) as (st' & -> & _ & Hh).
    by exists st'.
Qed.

End Conforming.

(** C2.  For every object whose [getparams] and [setparams] keep the
    contract and every list of replacement parameters, the [with]
    statement around [useparams] leaves the original parameters in
    place, identity for identity, whatever the block does: return or
    raise any exception.  The last thing that happens to the object is
    [setparams] with the original full list (the [setuniqueparams] of the
    snapshot), and [getuniqueparams] reads the same unique parameters
    after as before. *)
Theorem C2_useparams_restores (m : string) (params : list nat)
    (body : M module unit) (st0 : module) :
  conforming getparams setparams m →
  cache_current getparams m st0 →
  (∀ st, cache_of m (getparams m (user st0)) st →
         cache_of m (getparams m (user st0)) (body st).1) →
  let st' := (with_useparams getparams setparams m params body st0).1 in
  getparams m (user st') = getparams m (user st0) ∧
  last (history st') = Some (ESetParams m (Some <$> getparams m (user st0))) ∧
  (getuniqueparams getparams m st').2 = (getuniqueparams getparams m st0).2.
Proof.
  intros (slots & Hget & Hset) Hcur Hbody st'.
  destruct (with_useparams_restores m slots Hget Hset params body st0 Hcur Hbody)
    as (Hg & Hc & Hlast).
  fold st' in Hg, Hc, Hlast. split_and!; [done..|].
  rewrite <- Hg in Hc. rewrite (getuniqueparams_hit m st' Hc). simpl.
  destruct (getuniqueparams_current m st0 Hcur) as (st1 & -> & _).
  simpl. by rewrite Hg.
Qed.

(** C3.  An exception of class [Exception] raised by the block of the
    [with] statement is printed by [tb.print_exc()], the original
    parameters are put back, and the [with] statement ends normally: no
    exception leaves it. *)
Theorem C3_exception_swallowed (m : string) (params : list nat)
    (body : M module unit) (st0 : module) (e : exn) :
  conforming getparams setparams m →
  cache_current getparams m st0 →
  (∀ st, cache_of m (getparams m (user st0)) st →
         cache_of m (getparams m (user st0)) (body st).1) →
  length params = length (scan (getparams m (user st0))).1.1 →
  (∀ st, (body st).2 = Raise e) →
  isinstance_Exception e = true →
  ∃ st' h,
    with_useparams getparams setparams m params body st0 = (st', Ok tt) ∧
    history st'
    = h ++ [EPrintExc e; ESetParams m (Some <$> getparams m (user st0))] ∧
    getparams m (user st') = getparams m (user st0).
Proof.
  intros (slots & Hget & Hset) Hcur Hbody Hlen Hraise He.
  destruct (with_useparams_outcome m slots Hget Hset params body st0
              Hcur Hbody Hlen) as (st2 & st' & Hw & Hh).
  rewrite Hraise, He in Hw, Hh.
  exists st', (history (body st2).1). split_and!; [done..|].
  pose proof (with_useparams_restores m slots Hget Hset params body st0
                Hcur Hbody) as (Hg & _).
  by rewrite Hw in Hg.
Qed.

(** An exception outside [Exception] ([KeyboardInterrupt], [SystemExit])
    is not printed and leaves the [with] statement, after the original
    parameters have been put back. *)
Lemma base_exception_propagates (m : string) (params : list nat)
    (body : M module unit) (st0 : module) (e : exn) :
  conforming getparams setparams m →
  cache_current getparams m st0 →
  (∀ st, cache_of m (getparams m (user st0)) st →
         cache_of m (getparams m (user st0)) (body st).1) →
  length params = length (scan (getparams m (user st0))).1.1 →
  (∀ st, (body st).2 = Raise e) →
  isinstance_Exception e = false →
  ∃ st',
    with_useparams getparams setparams m params body st0 = (st', Raise e) ∧
    getparams m (user st') = getparams m (user st0).
Proof.
  intros (slots & Hget & Hset) Hcur Hbody Hlen Hraise He.
  destruct (with_useparams_outcome m slots Hget Hset params body st0
              Hcur Hbody Hlen) as (st2 & st' & Hw & Hh).
  rewrite Hraise, He in Hw. exists st'. split; [done|].
  pose proof (with_useparams_restores m slots Hget Hset params body st0
                Hcur Hbody) as (Hg & _).
  by rewrite Hw in Hg.
Qed.

(** ** The check of missing and excess parameters *)

Section DeclaredParams.

Variable is_float_tensor : nat → bool.
Variable m : string.
Variables all oper : list (nat * string).

Lemma _get_tensor_name_Some (p : nat) :
  p ∈ all.*1 → ∃ name, _get_tensor_name all p = Some name ∧ (p, name) ∈ all.
Proof.
  intros Hp. apply list_elem_of_fmap in Hp as ([p' name] & Heq & Hin).
  simpl in Heq. subst p'. unfold _get_tensor_name.
  destruct (list_find (λ tn : nat * string, tn.1 = p) all)
    as [[i [q name']]|] eqn:Hf.
  - apply list_find_Some in Hf as (Hl & Hq & _). simpl in *. subst q.
    exists name'. split; [done|]. apply list_elem_of_lookup. by exists i.
  - apply list_find_None in Hf. rewrite Forall_forall in Hf.
    by destruct (Hf _ Hin).
Qed.

Lemma _get_tensor_name_None (p : nat) :
  p ∉ all.*1 → _get_tensor_name all p = None.
Proof.
  intros Hp. unfold _get_tensor_name.
  destruct (list_find (λ tn : nat * string, tn.1 = p) all)
    as [[i [q name']]|] eqn:Hf; [|done].
  apply list_find_Some in Hf as (Hl & Hq & _). simpl in *. subst q.
  destruct Hp. apply list_elem_of_fmap. exists (p, name'). split; [done|].
  apply list_elem_of_lookup. by exists i.
Qed.

Lemma check_float_pass (user_params rest : list nat) (i : nat) (st : module) :
  (∀ p, p ∈ rest → is_float_tensor p = true) →
  check_float setparams is_float_tensor m user_params i rest st = (st, Ok tt).
Proof.
  revert i. induction rest as [|p rest IH]; intros i Hall; simpl; [done|].
  rewrite Hall by by left. apply IH. intros q Hq. apply Hall. by right.
Qed.

Lemma excess_of_nil (rest : list nat) :
  (∀ p, p ∈ rest → p ∈ oper.*1) → excess_of all oper rest = [].
Proof.
  induction rest as [|p rest IH]; intros Hall; [done|].
  unfold excess_of. simpl. rewrite decide_True by (apply Hall; by left).
  apply IH. intros q Hq. apply Hall. by right.
Qed.

Lemma check_excess_members (user_params rest : list nat) (i : nat)
    (acc : list string) (st : module) :
  (∀ p, p ∈ rest → p ∈ oper.*1 ∨ p ∈ all.*1) →
  check_excess setparams m all oper user_params i rest acc st
  = (st, Ok (acc ++ excess_of all oper rest)).
Proof.
  revert i acc. induction rest as [|p rest IH]; intros i acc Hall; simpl.
  - by rewrite app_nil_r.
  - unfold excess_of. simpl. fold (excess_of all oper rest).
    destruct (decide (p ∈ oper.*1)) as [Hin|Hnin].
    + apply IH. intros q Hq. apply Hall. by right.
    + destruct (Hall p) as [?|Hp]; [by left|done|].
      destruct (_get_tensor_name_Some p Hp) as (name & -> & _). simpl.
      rewrite IH by (intros q Hq; apply Hall; by right).
      by rewrite <- app_assoc.
Qed.

Lemma get_error_message_history (user_params : list nat) (i : nat)
    (st : module) :
  ∃ st', get_error_message_ith_params setparams m user_params i st
         = (st', Ok tt) ∧
         ∃ ev, history st' = history st ++ ev.
Proof.
  unfold get_error_message_ith_params. rewrite mbind_run. unfold attempt.
  rewrite call_setparams_spec. simpl. eexists. split; [done|].
  simpl. by eexists.
Qed.

(** Lines 197-208 end with the list of names, or in the error of a
    parameter that is no member of the object. *)
Lemma check_excess_outcome (user_params rest : list nat) (i : nat)
    (acc : list string) (st : module) :
  ∃ st' ev, history st' = history st ++ ev ∧
    ((check_excess setparams m all oper user_params i rest acc st
      = (st', Ok (acc ++ excess_of all oper rest))) ∨
     ∃ j, check_excess setparams m all oper user_params i rest acc st
          = (st', Raise (GetSetParamsError (NotAMember j)))).
Proof.
  revert i acc. induction rest as [|p rest IH]; intros i acc; simpl.
  - exists st, []. rewrite !app_nil_r. split; [done|by left].
  - unfold excess_of. simpl. fold (excess_of all oper rest).
    destruct (decide (p ∈ oper.*1)) as [Hin|Hnin]; [apply IH|].
    destruct (_get_tensor_name all p) as [name|] eqn:Hn.
    + destruct (IH (S i) (acc ++ [name])) as (st' & ev & Hh & H).
      exists st', ev. split; [done|]. simpl.
      by rewrite <- app_assoc in H.
    + rewrite mbind_run.
      destruct (get_error_message_history user_params i st)
        as (st' & -> & ev & Hh).
      exists st', ev. split; [done|]. right. by exists i.
Qed.

End DeclaredParams.

(** C4.  In the third check of [assertparams], once the declared
    parameters have passed the type check of lines 176-182: a reachable
    tensor with a gradient that [getparams] does not declare is reported
    by [warnings.warn] under its name and by that alone (when every
    declared parameter has a gradient the check returns normally); a
    declared parameter without a gradient that is among the reachable
    tensors of the object makes the check raise [GetSetParamsError], and
    this error is the one of excess parameters, with the name of the
    parameter in it, unless another declared parameter is no member of
    the object. *)
Theorem C4_missing_warns_excess_fails (is_float_tensor : nat → bool)
    (m : string) (all : list (nat * string)) (grad_tensors : list bool)
    (st : module) :
  let oper := operating all grad_tensors in
  let user_params := getparams m (user st) in
  let run := assert_get_correct_params getparams setparams is_float_tensor
               m all grad_tensors st in
  (∀ p, p ∈ user_params → is_float_tensor p = true) →
  (∀ t name,
     (t, name) ∈ oper → t ∉ user_params →
     EWarn (missing oper user_params) ∈ history run.1 ∧
     name ∈ missing oper user_params ∧
     ((∀ p, p ∈ user_params → p ∈ oper.*1) → run.2 = Ok tt)) ∧
  (∀ p,
     p ∈ user_params → p ∉ oper.*1 → p ∈ all.*1 →
     (∃ why, run.2 = Raise (GetSetParamsError why)) ∧
     ((∀ q, q ∈ user_params → q ∈ all.*1) →
      ∃ name names, _get_tensor_name all p = Some name ∧ name ∈ names ∧
                    run.2 = Raise (GetSetParamsError (ExcessParams names)))).
Proof.
  intros oper user_params run Hfloat.
  assert (∀ p, p ∈ user_params → p ∉ oper.*1 → p ∈ all.*1 →
            ∃ name, _get_tensor_name all p = Some name ∧
                    name ∈ excess_of all oper user_params) as Hexc.
  { intros p Hp Hno Hall.
    destruct (_get_tensor_name_Some all p Hall) as (name & Hn & _).
    exists name. split; [done|]. unfold excess_of.
    apply list_elem_of_omap. exists p. split; [done|].
    by rewrite decide_False. }
  set (st1 := logged [EGetParams m] st).
  assert (run = check_missing_excess setparams m all oper user_params st1)
    as Hrun.
  { unfold run, assert_get_correct_params.
    rewrite mbind_run, call_getparams_spec, mbind_run.
    by rewrite check_float_pass. }
  unfold check_missing_excess in Hrun. rewrite !mbind_run in Hrun.
  set (warned := if decide (0 < length (missing oper user_params))
                 then [EWarn (missing oper user_params)] else []).
  set (st2 := logged warned st1).
  assert ((if decide (0 < length (missing oper user_params))
           then log (EWarn (missing oper user_params)) else mret tt) st1
          = (st2, Ok tt)) as Hwarn.
  { unfold st2, warned, logged.
    destruct (decide (0 < length (missing oper user_params))); [done|].
    unfold st1, logged. simpl. by rewrite app_nil_r. }
  rewrite Hwarn in Hrun. cbv beta iota in Hrun. rewrite mbind_run in Hrun.
  destruct (check_excess_outcome m all oper user_params user_params 0 [] st2)
    as (st' & ev & Hh & Hout).
  simpl in Hout.
  split.
  - intros t name Hin Hnot.
    assert (name ∈ missing oper user_params) as Hname.
    { unfold missing. apply list_elem_of_fmap. exists (t, name).
      split; [done|]. by apply list_elem_of_filter. }
    assert (0 < length (missing oper user_params)) as Hlen.
    { destruct (missing oper user_params); [by apply elem_of_nil in Hname|].
      simpl. lia. }
    split_and!; [|done|].
    + assert (history run.1 = history st') as ->.
      { rewrite Hrun. destruct Hout as [->|[j ->]]; [|done].
        simpl.
        destruct (decide (0 < length (excess_of all oper user_params)));
          reflexivity. }
      rewrite Hh. apply elem_of_app. left. unfold st2, warned, logged. simpl.
      rewrite decide_True by done. apply elem_of_app. right.
      by apply list_elem_of_singleton.
    + intros Hsub. rewrite Hrun.
      rewrite check_excess_members by (intros p Hp; left; by apply Hsub).
      simpl. by rewrite excess_of_nil.
  - intros p Hp Hno Hall.
    destruct (Hexc p Hp Hno Hall) as (name & Hn & Hname).
    assert (0 < length (excess_of all oper user_params)) as Hlen.
    { destruct (excess_of all oper user_params);
        [by apply elem_of_nil in Hname|]. simpl. lia. }
    split.
    + rewrite Hrun. destruct Hout as [->|[j ->]]; [|by eexists].
      rewrite decide_True by done. by eexists.
    + intros Hmem. exists name, (excess_of all oper user_params).
      split_and!; [done..|]. rewrite Hrun.
      rewrite check_excess_members by (intros q Hq; right; by apply Hmem).
      simpl. by rewrite decide_True.
Qed.

End EditableModuleFacts.

(** ** The example module *)

Lemma ex_conforming (m : string) : conforming ex_getparams ex_setparams m.
Proof.
  exists [0; 1; 0; 2]. split.
  - intros [[w b] c]. split; [done|].
    intros i j s Hi Hj.
    destruct i as [|[|[|[|i]]]]; try done;
      destruct j as [|[|[|[|j]]]]; try done;
      simpl in Hi, Hj; congruence.
  - intros u l [Hlen Hal].
    destruct l as [|p0 [|p1 [|p2 [|p3 [|p4 l]]]]]; try done.
    pose proof (Hal 0 2 0 eq_refl eq_refl) as H02. simpl in H02.
    injection H02 as ->. by eexists.
Qed.

Lemma C1_unique_indices_abac_witness :
  ∃ st1,
    _get_unique_params_idxs ex_getparams "forward" None ex_module
    = (st1, Ok [0; 1; 3]) ∧
    cached_idxs "forward" st1 = Some [0; 1; 3] ∧
    cached_maps "forward" st1 = Some [[0; 2]; [1]; [3]] ∧
    cached_number "forward" st1 = Some 4 ∧
    setuniqueparams ex_setparams "forward" [11; 12; 13] st1
    = call_setparams ex_setparams "forward"
        [Some 11; Some 12; Some 11; Some 13] st1.
Proof.
  apply (C1_unique_indices_abac ex_getparams ex_setparams "forward"
           ex_module 1 2 3 11 12 13);
    [lia|lia|lia|reflexivity|reflexivity].
Defined.

Lemma C2_useparams_restores_witness :
  (ex_getparams "forward"
     (user (with_useparams ex_getparams ex_setparams "forward" [11; 12; 13]
              ex_block ex_module).1)
   = ex_getparams "forward" (user ex_module) ∧
   last (history (with_useparams ex_getparams ex_setparams "forward"
                    [11; 12; 13] ex_block ex_module).1)
   = Some (ESetParams "forward"
             (Some <$> ex_getparams "forward" (user ex_module))) ∧
   (getuniqueparams ex_getparams "forward"
      (with_useparams ex_getparams ex_setparams "forward" [11; 12; 13]
         ex_block ex_module).1).2
   = (getuniqueparams ex_getparams "forward" ex_module).2) ∧
  (ex_getparams "forward"
     (user (with_useparams ex_getparams ex_setparams "forward" [11; 12; 13]
              ex_failing_block ex_module).1)
   = ex_getparams "forward" (user ex_module) ∧
   last (history (with_useparams ex_getparams ex_setparams "forward"
                    [11; 12; 13] ex_failing_block ex_module).1)
   = Some (ESetParams "forward"
             (Some <$> ex_getparams "forward" (user ex_module))) ∧
   (getuniqueparams ex_getparams "forward"
      (with_useparams ex_getparams ex_setparams "forward" [11; 12; 13]
         ex_failing_block ex_module).1).2
   = (getuniqueparams ex_getparams "forward" ex_module).2).
Proof.
  split.
  - apply (C2_useparams_restores ex_getparams ex_setparams "forward"
             [11; 12; 13] ex_block ex_module).
    + apply ex_conforming.
    + left. reflexivity.
    + intros st H. exact H.
  - apply (C2_useparams_restores ex_getparams ex_setparams "forward"
             [11; 12; 13] ex_failing_block ex_module).
    + apply ex_conforming.
    + left. reflexivity.
    + intros st H. exact H.
Defined.

Lemma C3_exception_swallowed_witness :
  ∃ st' h,
    with_useparams ex_getparams ex_setparams "forward" [11; 12; 13]
      ex_failing_block ex_module = (st', Ok tt) ∧
    history st'
    = h ++ [EPrintExc (UserError 0);
            ESetParams "forward"
              (Some <$> ex_getparams "forward" (user ex_module))] ∧
    ex_getparams "forward" (user st')
    = ex_getparams "forward" (user ex_module).
Proof.
  apply (C3_exception_swallowed ex_getparams ex_setparams "forward"
           [11; 12; 13] ex_failing_block ex_module (UserError 0)).
  - apply ex_conforming.
  - left. reflexivity.
  - intros st H. exact H.
  - reflexivity.
  - intros st. reflexivity.
  - reflexivity.
Defined.

Lemma C4_missing_warns_excess_fails_witness :
  (EWarn (missing (operating ex_all ex_grads)
            (ex_getparams "forward" (user ex_module)))
   ∈ history (assert_get_correct_params ex_getparams ex_setparams
                (λ _, true) "forward" ex_all ex_grads ex_module).1 ∧
   "self.d" ∈ missing (operating ex_all ex_grads)
                (ex_getparams "forward" (user ex_module))) ∧
  ∃ name names,
    _get_tensor_name ex_all 3 = Some name ∧ name ∈ names ∧
    (assert_get_correct_params ex_getparams ex_setparams (λ _, true)
       "forward" ex_all ex_grads ex_module).2
    = Raise (GetSetParamsError (ExcessParams names)).
Proof.
  destruct (C4_missing_warns_excess_fails ex_getparams ex_setparams
              (λ _, true) "forward" ex_all ex_grads ex_module
              (λ _ _, eq_refl)) as [Hmissing Hexcess].
  split.
  - destruct (Hmissing 4 "self.d") as (Hw & Hn & _);
      [compute_done|compute_done|].
    split; [exact Hw|exact Hn].
  - destruct (Hexcess 3) as [_ Hnames];
      [compute_done|compute_done|compute_done|].
    apply Hnames. apply Forall_forall. compute_done.
Defined.

(** ** The traversal *)

Section TraverseFacts.

Context {A : Type}.
Implicit Types (action : @action_t A) (crit : crit_t) (st : @tstate A).

Lemma visit_ext d1 d2 action crit obj prefix p st :
  (∀ elmt name st', d1 elmt name st' = d2 elmt name st') →
  visit d1 action crit obj prefix p st = visit d2 action crit obj prefix p st.
Proof.
  intros Hd. unfold visit. munfold. cbn [objects exception_ids captured].
  destruct (slots (shape_of (objects st) obj) !! p) as [[k x]|]; [|done].
  destruct (decide (x ∈ exception_ids st)); [done|].
  cbn [objects exception_ids captured].
  destruct (crit (objects st) x); [done|].
  destruct (traversable (objects st) x); [|done].
  by rewrite Hd.
Qed.

Lemma loop_ext d1 d2 action crit obj prefix ps st :
  (∀ elmt name st', d1 elmt name st' = d2 elmt name st') →
  loop d1 action crit obj prefix ps st = loop d2 action crit obj prefix ps st.
Proof.
  intros Hd. revert st. induction ps as [|p ps IH]; intros st; [done|].
  cbn [loop]. rewrite !mbind_run, (visit_ext d1 d2) by done.
  destruct (visit d2 action crit obj prefix p st) as [st' [[[]|]|e]]; auto.
Qed.

(** The recursive call of line 311 never runs the body. *)
Lemma descend_raises max_depth action elmt name st :
  match max_depth with
  | S max_depth' => _traverse_obj max_depth' elmt name action None false
  | 0 => raise RecursionError
  end st = (st, Raise (depth_error max_depth)).
Proof. destruct max_depth as [|[|d]]; reflexivity. Qed.

Lemma traverse_root max_depth obj prefix action crit st :
  _traverse_obj max_depth obj prefix action (Some crit) true st =
  let st0 := TState (objects st) [] (captured st) in
  match shape_of (objects st) obj with
  | Plain => (st0, Raise RuntimeError)
  | c => loop (λ _ _, raise (depth_error max_depth)) action crit obj prefix
           (seq 0 (length (slots c))) st0
  end.
Proof.
  assert (∀ elmt name st',
            match max_depth with
            | S max_depth' =>
                _traverse_obj max_depth' elmt name action None false
            | 0 => raise RecursionError
            end st' = raise (depth_error max_depth) st') as Hd
    by (intros; apply descend_raises).
  destruct max_depth as [|d]; cbn [_traverse_obj];
    munfold; cbn [objects exception_ids captured];
    (destruct (shape_of (objects st) obj); [| |done]);
    by apply loop_ext.
Qed.

End TraverseFacts.

(** ** Writing a slot *)

Lemma dict_set_insert d p name x v :
  NoDup d.*1 → d !! p = Some (name, x) →
  dict_set d name v = <[p := (name, v)]> d.
Proof.
  revert p. induction d as [|[k y] d IH]; intros p Hnd Hp; [done|].
  apply NoDup_cons in Hnd as [Hk Hnd]. destruct p as [|p]; simpl in *.
  - injection Hp as -> ->. by rewrite decide_True.
  - rewrite decide_False; [by rewrite (IH p)|].
    intros ->. apply Hk. apply list_elem_of_fmap. exists (name, x).
    split; [done|]. by eapply list_elem_of_lookup_2.
Qed.

Lemma slots_dict_keys d : (slots (HasDict d)).*1 = KAttr <$> d.*1.
Proof. cbn [slots]. induction d as [|[k x] d IH]; [done|]. cbn. by f_equal. Qed.

Lemma slots_iter_lookup l p :
  slots (HasIter l) !! p = (λ x, (KIndex p, x)) <$> l !! p.
Proof. cbn [slots]. by rewrite list_lookup_imap. Qed.

Lemma slots_write c p k x v :
  NoDup (slots c).*1 → slots c !! p = Some (k, x) →
  ∃ c', (match c, k with
         | HasDict d, KAttr name => Some (HasDict (dict_set d name v))
         | HasIter l, KIndex i =>
             if decide (i < length l) then Some (HasIter (<[i := v]> l))
             else None
         | _, _ => None
         end) = Some c' ∧
        slots c' = <[p := (k, v)]> (slots c) ∧
        (match c' with Plain => False | _ => True end).
Proof.
  intros Hnd Hp. destruct c as [d|l|]; [| |done].
  - rewrite slots_dict_keys in Hnd.
    apply (NoDup_fmap_1 KAttr) in Hnd.
    cbn [slots] in Hp. rewrite list_lookup_fmap in Hp.
    destruct (d !! p) as [[name y]|] eqn:Hd; [|done].
    injection Hp as <- <-. eexists. split_and!; [done| |done].
    cbn [slots]. rewrite (dict_set_insert d p name y v) by done.
    by rewrite list_fmap_insert.
  - rewrite slots_iter_lookup in Hp.
    destruct (l !! p) as [y|] eqn:Hl; [|done]. injection Hp as <- <-.
    apply lookup_lt_Some in Hl as Hlt. rewrite decide_True by done.
    eexists. split_and!; [done| |done].
    apply list_eq. intros i. rewrite slots_iter_lookup.
    destruct (decide (i = p)) as [->|Hne].
    + rewrite !list_lookup_insert_eq; [done| |done].
      cbn [slots]. by rewrite length_imap.
    + rewrite !list_lookup_insert_ne by done.
      by rewrite slots_iter_lookup.
Qed.

Lemma heap_at_refl h obj : heap_at h obj (slots (shape_of h obj)) h.
Proof. by split. Qed.

Lemma setitem_heap_at h obj sl h1 p k x v :
  heap_at h obj sl h1 → NoDup sl.*1 → sl !! p = Some (k, x) →
  ∃ h2, setitem h1 obj k v = Ok h2 ∧ heap_at h obj (<[p := (k, v)]> sl) h2.
Proof.
  intros [Hf Ht Hs Hfr] Hnd Hp. subst sl. unfold setitem.
  unfold shape_of in Hnd, Hp |- *.
  destruct (h1 !! obj) as [o|] eqn:Ho; [|done].
  destruct (slots_write (shape o) p k x v Hnd Hp) as (c' & Hc & Hsl & Hnp).
  exists (<[obj := PyObj (float_tensor o) c']> h1). split.
  - destruct (shape o) as [d|l|], k as [name|i]; try done.
    + by injection Hc as <-.
    + destruct (decide (i < length l)); [|done]. by injection Hc as <-.
  - split.
    + intros y. rewrite <-Hf. unfold is_float.
      destruct (decide (y = obj)) as [->|Hne].
      * by rewrite lookup_insert_eq, Ho.
      * by rewrite lookup_insert_ne.
    + intros y. rewrite <-Ht. unfold traversable, shape_of.
      destruct (decide (y = obj)) as [->|Hne].
      * rewrite lookup_insert_eq, Ho. cbn [shape].
        destruct c'; [| |done];
          (destruct (shape o); [done|done|]; cbn [slots] in Hp;
           by rewrite lookup_nil in Hp).
      * by rewrite lookup_insert_ne.
    + unfold shape_of. by rewrite lookup_insert_eq.
    + intros y Hne. rewrite lookup_insert_ne by done. by apply Hfr.
Qed.

(** ** The loops, slot by slot *)

Lemma get_loop h e obj prefix n : ∀ k ids res names,
  k + n = length (slots (shape_of h obj)) →
  loop (λ _ _, raise e) get_action is_float obj prefix (seq k n)
       (TState h ids (res, names)) =
  (TState h
     (collect h e prefix (drop k (slots (shape_of h obj))) ids res names).1.1
     (collect h e prefix (drop k (slots (shape_of h obj))) ids res names).1.2,
   (collect h e prefix (drop k (slots (shape_of h obj))) ids res names).2).
Proof.
  induction n as [|n IH]; intros k ids res names Hk.
  - rewrite drop_ge by lia. reflexivity.
  - destruct (lookup_lt_is_Some_2 (slots (shape_of h obj)) k) as [[key x] Hx];
      [lia|].
    rewrite (drop_S _ _ _ Hx). cbn [seq loop collect].
    rewrite mbind_run. unfold visit. munfold.
    cbn [objects exception_ids captured]. rewrite Hx.
    destruct (decide (x ∈ ids)).
    { apply IH. lia. }
    unfold get_action. munfold. cbn [objects exception_ids captured fst snd].
    destruct (is_float h x).
    { apply IH. lia. }
    destruct (traversable h x); [done|].
    apply IH. lia.
Qed.

Lemma set_action_run elmt name objdict k h ids ps :
  set_action elmt name objdict k (TState h ids ps) =
  match ps with
  | [] => (TState h ids ps, Raise IndexError)
  | p :: ps' =>
      match setitem h objdict k p with
      | Ok h' => (TState h' ids ps', Ok tt)
      | Raise e => (TState h ids ps, Raise e)
      end
  end.
Proof.
  unfold set_action. munfold. cbn [objects exception_ids captured].
  destruct ps as [|p ps']; [done|]. by destruct (setitem h objdict k p).
Qed.

Lemma set_loop h e obj prefix n : ∀ k done ids ps h1,
  NoDup (slots (shape_of h obj)).*1 →
  heap_at h obj (done ++ drop k (slots (shape_of h obj))) h1 →
  length done = k → done.*1 = take k (slots (shape_of h obj)).*1 →
  k + n = length (slots (shape_of h obj)) →
  ∃ h2,
    loop (λ _ _, raise e) set_action is_float obj prefix (seq k n)
         (TState h1 ids ps) =
    (TState h2
       (install h e (drop k (slots (shape_of h obj))) ids ps).1.1.2
       (install h e (drop k (slots (shape_of h obj))) ids ps).1.2,
     (install h e (drop k (slots (shape_of h obj))) ids ps).2) ∧
    heap_at h obj
      (done ++ (install h e (drop k (slots (shape_of h obj))) ids ps).1.1.1)
      h2.
Proof.
  set (sl := slots (shape_of h obj)).
  induction n as [|n IH]; intros k done ids ps h1 Hnd Hat Hlen Hkeys Hk.
  - rewrite drop_ge in Hat |- * by lia. exists h1. by split.
  - destruct (lookup_lt_is_Some_2 sl k) as [[key x] Hx]; [lia|].
    assert (Hcur : (done ++ drop k sl) !! k = Some (key, x)).
    { rewrite lookup_app_r by lia. rewrite lookup_drop.
      by replace (k + (k - length done)) with k by lia. }
    assert (Hnd' : NoDup (done ++ drop k sl).*1).
    { by rewrite fmap_app, Hkeys, fmap_drop, take_drop. }
    assert (Hstep : ∀ v h2,
              heap_at h obj (<[k := (key, v)]> (done ++ drop k sl)) h2 →
              heap_at h obj ((done ++ [(key, v)]) ++ drop (S k) sl) h2).
    { intros v h2 H2. rewrite insert_app_r_alt in H2 by lia.
      rewrite (drop_S _ _ _ Hx) in H2.
      replace (k - length done) with 0 in H2 by lia.
      by rewrite <-app_assoc. }
    assert (Hkeep : heap_at h obj ((done ++ [(key, x)]) ++ drop (S k) sl) h1).
    { rewrite <-app_assoc. cbn [app]. by rewrite <-(drop_S _ _ _ Hx). }
    assert (Hkeys' : ∀ v, (done ++ [(key, v)]).*1 = take (S k) sl.*1).
    { intros v. rewrite fmap_app, Hkeys. cbn [fmap list_fmap fst].
      rewrite (take_S_r _ _ key); [done|].
      by rewrite list_lookup_fmap, Hx. }
    assert (Hlen' : ∀ v, length (done ++ [(key, v)]) = S k).
    { intros v. rewrite length_app. simpl. lia. }
    rewrite (drop_S _ _ _ Hx). cbn [seq loop install].
    rewrite mbind_run. unfold visit. munfold.
    cbn [objects exception_ids captured].
    rewrite (at_slots _ _ _ _ Hat), Hcur.
    destruct (decide (x ∈ ids)).
    { destruct (IH (S k) (done ++ [(key, x)]) ids ps h1) as (h2 & Hl & H2);
        [done|done|done|done|lia|].
      exists h2. rewrite Hl.
      destruct (install h e (drop (S k) sl) ids ps) as [[[sl' ids'] ps'] r].
      cbn [fst snd] in *. split; [done|]. by rewrite <-app_assoc in H2. }
    rewrite (at_float _ _ _ _ Hat), (at_traversable _ _ _ _ Hat).
    destruct (is_float h x).
    { rewrite set_action_run. cbn [objects exception_ids captured].
      destruct ps as [|p ps].
      { exists h1. split; [done|]. cbn [fst snd].
        rewrite <-app_assoc in Hkeep. exact Hkeep. }
      destruct (setitem_heap_at h obj _ h1 k key x p Hat Hnd' Hcur)
        as (h2 & -> & H2).
      apply Hstep in H2.
      destruct (IH (S k) (done ++ [(key, p)]) (ids ++ [x]) ps h2)
        as (h3 & Hl & H3); [done|done|done|done|lia|].
      exists h3. cbn [exception_ids]. rewrite Hl.
      destruct (install h e (drop (S k) sl) (ids ++ [x]) ps)
        as [[[sl' ids'] ps'] r].
      cbn [fst snd] in *. split; [done|]. by rewrite <-app_assoc in H3. }
    destruct (traversable h x).
    { exists h1. split; [done|]. cbn [fst snd].
      rewrite <-app_assoc in Hkeep. exact Hkeep. }
    destruct (IH (S k) (done ++ [(key, x)]) (ids ++ [x]) ps h1)
      as (h2 & Hl & H2); [done|done|done|done|lia|].
    exists h2. cbn [objects exception_ids captured]. rewrite Hl.
    destruct (install h e (drop (S k) sl) (ids ++ [x]) ps)
      as [[[sl' ids'] ps'] r].
    cbn [fst snd] in *. split; [done|]. by rewrite <-app_assoc in H2.
Qed.

(** ** [_get_tensors] and [_set_tensors] on a container *)

Lemma traversable_shape h obj :
  traversable h obj = true ↔ shape_of h obj ≠ Plain.
Proof. unfold traversable. by destruct (shape_of h obj). Qed.

Lemma get_run_Plain h obj prefix max_depth :
  traversable h obj = false →
  get_run h obj prefix max_depth = (TState h [] ([], []), Raise RuntimeError).
Proof.
  intros Ht. unfold get_run. rewrite traverse_root. cbn [objects captured].
  unfold traversable in Ht. by destruct (shape_of h obj).
Qed.

Lemma get_run_collect h obj prefix max_depth :
  traversable h obj = true →
  get_run h obj prefix max_depth =
  (TState h
     (collect h (depth_error max_depth) prefix (slots (shape_of h obj))
        [] [] []).1.1
     (collect h (depth_error max_depth) prefix (slots (shape_of h obj))
        [] [] []).1.2,
   (collect h (depth_error max_depth) prefix (slots (shape_of h obj))
      [] [] []).2).
Proof.
  intros Ht. unfold get_run. rewrite traverse_root. cbn [objects captured].
  cbv zeta. pose proof (get_loop h (depth_error max_depth) obj prefix
    (length (slots (shape_of h obj))) 0 [] [] [] eq_refl) as Hl.
  rewrite drop_0 in Hl. unfold traversable in Ht.
  by destruct (shape_of h obj).
Qed.

Lemma _get_tensors_collect h obj prefix max_depth :
  traversable h obj = true →
  _get_tensors h obj prefix max_depth =
  match (collect h (depth_error max_depth) prefix (slots (shape_of h obj))
           [] [] []).2 with
  | Ok _ => Ok (collect h (depth_error max_depth) prefix
                  (slots (shape_of h obj)) [] [] []).1.2
  | Raise e => Raise e
  end.
Proof.
  intros Ht. unfold _get_tensors. by rewrite get_run_collect.
Qed.

Lemma _set_tensors_Plain h obj ps max_depth :
  traversable h obj = false →
  _set_tensors h obj ps max_depth = (h, ps, Raise RuntimeError).
Proof.
  intros Ht. unfold _set_tensors. rewrite traverse_root.
  cbn [objects captured]. unfold traversable in Ht.
  by destruct (shape_of h obj).
Qed.

Lemma _set_tensors_install h obj ps max_depth :
  traversable h obj = true →
  NoDup (slots (shape_of h obj)).*1 →
  ∃ h',
    _set_tensors h obj ps max_depth =
    (h',
     (install h (depth_error max_depth) (slots (shape_of h obj)) [] ps).1.2,
     (install h (depth_error max_depth) (slots (shape_of h obj)) [] ps).2) ∧
    heap_at h obj
      (install h (depth_error max_depth) (slots (shape_of h obj)) [] ps).1.1.1
      h'.
Proof.
  intros Ht Hnd. unfold _set_tensors. rewrite traverse_root.
  cbn [objects captured]. cbv zeta.
  destruct (set_loop h (depth_error max_depth) obj "self"
              (length (slots (shape_of h obj))) 0 [] [] ps h)
    as (h' & Hl & Hat); [done|rewrite drop_0; apply heap_at_refl|done|done|done|].
  rewrite drop_0 in Hl, Hat. exists h'. split; [|done].
  unfold traversable in Ht.
  destruct (shape_of h obj); [by rewrite Hl|by rewrite Hl|done].
Qed.

(** ** What the loops collect and install *)

Lemma collect_ext h h' e prefix sl : ∀ ids res names,
  (∀ x, is_float h' x = is_float h x) →
  (∀ x, traversable h' x = traversable h x) →
  collect h' e prefix sl ids res names = collect h e prefix sl ids res names.
Proof.
  induction sl as [|[k x] sl IH]; intros ids res names Hf Ht; [done|].
  cbn [collect]. rewrite Hf, Ht, !IH by done. done.
Qed.

Lemma flat_cons h k x sl :
  flat h ((k, x) :: sl) ↔
  (is_float h x = true ∨ traversable h x = false) ∧ flat h sl.
Proof.
  unfold flat. split.
  - intros H. split; [apply (H k); by left|].
    intros k' x' Hx. apply (H k'). by right.
  - intros [H1 H2] k' x' Hx. apply elem_of_cons in Hx as [Heq|Hx];
      [by injection Heq as -> ->|by eapply H2].
Qed.

Lemma tensors_of_cons h k x sl :
  tensors_of h ((k, x) :: sl) =
  if is_float h x then x :: tensors_of h sl else tensors_of h sl.
Proof.
  unfold tensors_of. cbn [fmap list_fmap snd]. rewrite filter_cons.
  destruct (is_float h x); [by rewrite decide_True|by rewrite decide_False].
Qed.

Lemma collect_flat h e prefix sl : ∀ ids res names,
  flat h sl → (collect h e prefix sl ids res names).2 = Ok tt.
Proof.
  induction sl as [|[k x] sl IH]; intros ids res names Hfl; [done|].
  apply flat_cons in Hfl as [Hx Hfl]. cbn [collect].
  destruct (decide (x ∈ ids)); [by apply IH|].
  destruct (is_float h x); [by apply IH|].
  destruct Hx as [Hx|Hx]; [congruence|]. rewrite Hx. by apply IH.
Qed.

Lemma collect_outcome h e prefix sl : ∀ ids res names,
  (collect h e prefix sl ids res names).2 = Ok tt ∨
  (collect h e prefix sl ids res names).2 = Raise e.
Proof.
  induction sl as [|[k x] sl IH]; intros ids res names; [by left|].
  cbn [collect].
  destruct (decide (x ∈ ids)); [apply IH|].
  destruct (is_float h x); [apply IH|].
  destruct (traversable h x); [by right|apply IH].
Qed.

Lemma collect_Ok_flat h e prefix sl : ∀ ids res names,
  (∀ x, x ∈ ids → is_float h x = true ∨ traversable h x = false) →
  (collect h e prefix sl ids res names).2 = Ok tt → flat h sl.
Proof.
  induction sl as [|[k x] sl IH]; intros ids res names Hids Hok.
  { intros k x Hx. by apply elem_of_nil in Hx. }
  cbn [collect] in Hok. apply flat_cons.
  assert (∀ v, (is_float h v = true ∨ traversable h v = false) →
               ∀ y, y ∈ ids ++ [v] →
                    is_float h y = true ∨ traversable h y = false) as Hext.
  { intros v Hv y Hy. apply elem_of_app in Hy as [Hy|Hy]; [by apply Hids|].
    by apply list_elem_of_singleton in Hy as ->. }
  destruct (decide (x ∈ ids)).
  { split; [by apply Hids|]. by eapply IH. }
  destruct (is_float h x) eqn:Hf.
  { split; [by left|]. eapply IH; [|done]. apply Hext. rewrite Hf. by left. }
  destruct (traversable h x) eqn:Ht; [done|].
  split; [by right|]. eapply IH; [|done]. apply Hext. by right.
Qed.

Lemma collect_prefix h e prefix sl : ∀ ids res names,
  ∃ more morenames,
    (collect h e prefix sl ids res names).1.2 =
      (res ++ more, names ++ morenames) ∧
    length more = length morenames.
Proof.
  induction sl as [|[k x] sl IH]; intros ids res names.
  { exists [], []. by rewrite !app_nil_r. }
  cbn [collect].
  destruct (decide (x ∈ ids)); [apply IH|].
  destruct (is_float h x).
  { destruct (IH (ids ++ [x]) (res ++ [x])
                (names ++ [name_format prefix k])) as (m & mn & -> & Hl).
    exists (x :: m), (name_format prefix k :: mn).
    rewrite <-!app_assoc. split; [done|]. simpl. by rewrite Hl. }
  destruct (traversable h x); [|apply IH].
  exists [], []. by rewrite !app_nil_r.
Qed.

Lemma collect_NoDup h e prefix sl : ∀ ids res names,
  NoDup res → (∀ x, x ∈ res → x ∈ ids) →
  NoDup (collect h e prefix sl ids res names).1.2.1.
Proof.
  induction sl as [|[k x] sl IH]; intros ids res names Hnd Hsub; [done|].
  cbn [collect].
  destruct (decide (x ∈ ids)) as [|Hx]; [by apply IH|].
  destruct (is_float h x).
  { apply IH.
    - apply NoDup_app. split_and!; [done| |apply NoDup_singleton].
      intros y Hy ->%list_elem_of_singleton. by apply Hx, Hsub.
    - intros y [Hy| ->%list_elem_of_singleton]%elem_of_app;
        apply elem_of_app; [left; by apply Hsub|right; by left]. }
  destruct (traversable h x); [done|].
  apply IH; [done|]. intros y Hy. apply elem_of_app. left. by apply Hsub.
Qed.

Lemma collect_distinct h e prefix sl : ∀ ids res names,
  flat h sl → NoDup (tensors_of h sl) →
  (∀ x, x ∈ tensors_of h sl → x ∉ ids) →
  (collect h e prefix sl ids res names).1.2.1 = res ++ tensors_of h sl.
Proof.
  induction sl as [|[k x] sl IH]; intros ids res names Hfl Hnd Hdis.
  { cbn. by rewrite app_nil_r. }
  apply flat_cons in Hfl as [Hx Hfl]. rewrite tensors_of_cons in Hnd, Hdis |- *.
  cbn [collect].
  destruct (is_float h x) eqn:Hf.
  - apply NoDup_cons in Hnd as [Hxs Hnd].
    rewrite decide_False by (apply Hdis; by left).
    rewrite IH; [by rewrite <-app_assoc|done|done|].
    intros y Hy [Hin| ->%list_elem_of_singleton]%elem_of_app; [|done].
    revert Hin. apply Hdis. by right.
  - destruct (decide (x ∈ ids)); [by apply IH|].
    destruct Hx as [Hx|Hx]; [congruence|]. rewrite Hx. apply IH; [done|done|].
    intros y Hy [Hin| ->%list_elem_of_singleton]%elem_of_app.
    + revert Hin. by apply Hdis.
    + unfold tensors_of in Hy. apply list_elem_of_filter in Hy as [Hy _].
      by rewrite Hf in Hy.
Qed.

Lemma install_cons h e k x sl ids ps :
  install h e ((k, x) :: sl) ids ps =
  if decide (x ∈ ids)
  then ((k, x) :: (install h e sl ids ps).1.1.1,
        (install h e sl ids ps).1.1.2, (install h e sl ids ps).1.2,
        (install h e sl ids ps).2)
  else if is_float h x
  then match ps with
       | [] => ((k, x) :: sl, ids ++ [x], [], Raise IndexError)
       | p :: ps' =>
           ((k, p) :: (install h e sl (ids ++ [x]) ps').1.1.1,
            (install h e sl (ids ++ [x]) ps').1.1.2,
            (install h e sl (ids ++ [x]) ps').1.2,
            (install h e sl (ids ++ [x]) ps').2)
       end
  else if traversable h x
  then ((k, x) :: sl, ids ++ [x], ps, Raise e)
  else ((k, x) :: (install h e sl (ids ++ [x]) ps).1.1.1,
        (install h e sl (ids ++ [x]) ps).1.1.2,
        (install h e sl (ids ++ [x]) ps).1.2,
        (install h e sl (ids ++ [x]) ps).2).
Proof.
  cbn [install].
  destruct (decide (x ∈ ids)).
  { by destruct (install h e sl ids ps) as [[[? ?] ?] ?]. }
  destruct (is_float h x).
  { destruct ps as [|p ps']; [done|].
    by destruct (install h e sl (ids ++ [x]) ps') as [[[? ?] ?] ?]. }
  destruct (traversable h x); [done|].
  by destruct (install h e sl (ids ++ [x]) ps) as [[[? ?] ?] ?].
Qed.

Lemma install_outcome h e sl : ∀ ids ps,
  (install h e sl ids ps).2 = Ok tt ∨
  (install h e sl ids ps).2 = Raise IndexError ∨
  (install h e sl ids ps).2 = Raise e.
Proof.
  induction sl as [|[k x] sl IH]; intros ids ps; [by left|].
  rewrite install_cons.
  destruct (decide (x ∈ ids)); [apply IH|].
  destruct (is_float h x).
  { destruct ps as [|p ps']; [right; by left|apply IH]. }
  destruct (traversable h x); [right; by right|apply IH].
Qed.

Lemma install_keeps h e sl : ∀ ids ps j kj t,
  t ∈ ids → sl !! j = Some (kj, t) →
  (install h e sl ids ps).1.1.1 !! j = Some (kj, t).
Proof.
  induction sl as [|[k x] sl IH]; intros ids ps j kj t Ht Hj; [done|].
  rewrite install_cons.
  assert (t ∈ ids ++ [x]) as Ht' by (apply elem_of_app; by left).
  destruct j as [|j]; simpl in Hj.
  - injection Hj as -> ->. by rewrite decide_True.
  - destruct (decide (x ∈ ids)); [by apply IH|].
    destruct (is_float h x).
    { destruct ps as [|p ps']; [done|]. by apply IH. }
    destruct (traversable h x); [done|]. by apply IH.
Qed.

Lemma install_alias h e sl : ∀ ids ps i j ki kj t,
  sl !! i = Some (ki, t) → sl !! j = Some (kj, t) → i < j →
  (install h e sl ids ps).1.1.1 !! j = Some (kj, t).
Proof.
  induction sl as [|[k x] sl IH]; intros ids ps i j ki kj t Hi Hj Hij;
    [done|].
  rewrite install_cons.
  destruct j as [|j]; [lia|]. simpl in Hj.
  destruct i as [|i]; simpl in Hi.
  - injection Hi as -> ->.
    assert (t ∈ ids ++ [t]) as Ht' by (apply elem_of_app; right; by left).
    destruct (decide (t ∈ ids)); [by apply install_keeps|].
    destruct (is_float h t).
    { destruct ps as [|p ps']; [done|]. by apply install_keeps. }
    destruct (traversable h t); [done|]. by apply install_keeps.
  - assert (i < j) as Hij' by lia.
    destruct (decide (x ∈ ids)); [by apply (IH _ _ i j ki)|].
    destruct (is_float h x).
    { destruct ps as [|p ps']; [done|]. by apply (IH _ _ i j ki). }
    destruct (traversable h x); [done|]. by apply (IH _ _ i j ki).
Qed.

(** The tensor first met at slot [i] is the [m]-th collected, and the
    [m]-th replacement goes to slot [i]. *)
Lemma collect_install_first h e e' prefix sl : ∀ ids res names ps i ki t,
  sl !! i = Some (ki, t) →
  (∀ i' k', i' < i → sl !! i' ≠ Some (k', t)) →
  t ∉ ids → is_float h t = true → length res = length names →
  (collect h e prefix sl ids res names).2 = Ok tt →
  ∃ m,
    (collect h e prefix sl ids res names).1.2.1 !! (length res + m) = Some t ∧
    (collect h e prefix sl ids res names).1.2.2 !! (length res + m)
      = Some (name_format prefix ki) ∧
    ((install h e' sl ids ps).2 = Ok tt →
     ∃ p, ps !! m = Some p ∧
          (install h e' sl ids ps).1.1.1 !! i = Some (ki, p)).
Proof.
  induction sl as [|[k x] sl IH];
    intros ids res names ps i ki t Hi Hfirst Ht Hf Hlen Hok; [done|].
  rewrite install_cons. cbn [collect] in Hok |- *.
  destruct i as [|i]; simpl in Hi.
  - injection Hi as -> ->. rewrite decide_False in Hok |- * by done.
    rewrite decide_False by done. rewrite Hf in Hok |- *.
    destruct (collect_prefix h e prefix sl (ids ++ [t]) (res ++ [t])
                (names ++ [name_format prefix ki])) as (m & mn & -> & _).
    exists 0. rewrite Nat.add_0_r. cbn [fst snd]. split_and!.
    + rewrite <-app_assoc. by rewrite lookup_app_r, Nat.sub_diag by lia.
    + rewrite <-app_assoc, Hlen.
      by rewrite lookup_app_r, Nat.sub_diag by lia.
    + destruct ps as [|p ps']; [done|]. intros _. by exists p.
  - assert (x ≠ t) as Hne.
    { intros ->. by apply (Hfirst 0 k); [lia|]. }
    assert (∀ i' k', i' < i → sl !! i' ≠ Some (k', t)) as Hfirst'.
    { intros i' k' Hlt. apply (Hfirst (S i') k'). lia. }
    assert (t ∉ ids ++ [x]) as Ht'.
    { intros [Hin| ->%list_elem_of_singleton]%elem_of_app; done. }
    destruct (decide (x ∈ ids)).
    { by apply IH. }
    destruct (is_float h x).
    { destruct (IH (ids ++ [x]) (res ++ [x])
                  (names ++ [name_format prefix k])
                  (tail ps) i ki t Hi Hfirst' Ht' Hf)
        as (m & H1 & H2 & H3); [by rewrite !length_app, Hlen|done|].
      exists (S m). rewrite length_app in H1, H2. simpl in H1, H2.
      replace (length res + S m) with (length res + 1 + m) by lia.
      split_and!; [done|done|].
      destruct ps as [|p ps']; [done|]. exact H3. }
    destruct (traversable h x); [done|]. by apply IH.
Qed.

Lemma install_distinct h e sl : ∀ ids ps,
  flat h sl → NoDup (tensors_of h sl) →
  (∀ x, x ∈ tensors_of h sl → x ∉ ids) →
  length ps = length (tensors_of h sl) →
  (∀ p, p ∈ ps → is_float h p = true) →
  (install h e sl ids ps).2 = Ok tt ∧
  (install h e sl ids ps).1.2 = [] ∧
  tensors_of h (install h e sl ids ps).1.1.1 = ps ∧
  flat h (install h e sl ids ps).1.1.1.
Proof.
  induction sl as [|[k x] sl IH]; intros ids ps Hfl Hnd Hdis Hlen Hps.
  { destruct ps; [|done]. split_and!; done. }
  apply flat_cons in Hfl as [Hx Hfl].
  rewrite tensors_of_cons in Hnd, Hdis, Hlen. rewrite install_cons.
  destruct (is_float h x) eqn:Hf.
  - apply NoDup_cons in Hnd as [Hxs Hnd].
    rewrite decide_False by (apply Hdis; by left).
    destruct ps as [|p ps']; [done|]. cbn [fst snd].
    destruct (IH (ids ++ [x]) ps') as (H1 & H2 & H3 & H4); [done|done| | | |].
    + intros y Hy [Hin| ->%list_elem_of_singleton]%elem_of_app; [|done].
      revert Hin. apply Hdis. by right.
    + simpl in Hlen. lia.
    + intros q Hq. apply Hps. by right.
    + assert (is_float h p = true) as Hp by (apply Hps; by left).
      split_and!; [done|done| |].
      * by rewrite tensors_of_cons, Hp, H3.
      * apply flat_cons. split; [by left|done].
  - assert (∀ ids',
              (∀ y, y ∈ tensors_of h sl → y ∉ ids') →
              (install h e sl ids' ps).2 = Ok tt ∧
              (install h e sl ids' ps).1.2 = [] ∧
              tensors_of h ((k, x) :: (install h e sl ids' ps).1.1.1) = ps ∧
              flat h ((k, x) :: (install h e sl ids' ps).1.1.1)) as Hskip.
    { intros ids' Hdis'.
      destruct (IH ids' ps) as (H1 & H2 & H3 & H4); [done..|].
      split_and!; [done|done| |].
      - by rewrite tensors_of_cons, Hf.
      - apply flat_cons. split; [|done]. destruct Hx; [congruence|by right]. }
    destruct (decide (x ∈ ids)); [by apply Hskip|].
    destruct Hx as [Hx|Hx]; [congruence|]. rewrite Hx. cbn [fst snd].
    apply Hskip.
    intros y Hy [Hin| ->%list_elem_of_singleton]%elem_of_app.
    + revert Hin. by apply Hdis.
    + unfold tensors_of in Hy. apply list_elem_of_filter in Hy as [Hy _].
      by rewrite Hf in Hy.
Qed.

(** Enough replacements for the tensors that are collected: the
    installation returns. *)
Lemma install_enough h e e' prefix sl : ∀ ids res names ps,
  (collect h e prefix sl ids res names).2 = Ok tt →
  length (collect h e prefix sl ids res names).1.2.1
    ≤ length res + length ps →
  (install h e' sl ids ps).2 = Ok tt.
Proof.
  induction sl as [|[k x] sl IH]; intros ids res names ps Hok Hlen; [done|].
  rewrite install_cons. cbn [collect] in Hok, Hlen.
  destruct (decide (x ∈ ids)); [by eapply IH|].
  destruct (is_float h x).
  { destruct (collect_prefix h e prefix sl (ids ++ [x]) (res ++ [x])
                (names ++ [name_format prefix k])) as (m & mn & Hm & _).
    rewrite Hm in Hlen. cbn [fst] in Hlen. rewrite !length_app in Hlen.
    simpl in Hlen. destruct ps as [|p ps']; [simpl in Hlen; lia|].
    cbn [snd]. eapply IH; [done|]. rewrite Hm. cbn [fst].
    rewrite !length_app. simpl in *. lia. }
  destruct (traversable h x); [done|]. by eapply IH.
Qed.

Lemma flat_Forall h sl :
  Forall (λ kx, is_float h kx.2 = true ∨ traversable h kx.2 = false) sl →
  flat h sl.
Proof.
  intros H k x Hx. rewrite Forall_forall in H. by apply (H (k, x)).
Qed.

(** ** Installing and collecting *)

(** C5, first the case that the claim does not cover: an object with
    one tensor under two attributes.  The traversal matches one slot;
    after one tensor has been installed, two are collected. *)
Lemma C5_aliased_slot_counterexample :
  _get_tensors aliased_heap 0 "self" 20 = Ok ([1], ["self.x"]) ∧
  (_set_tensors aliased_heap 0 [10] 20).2 = Ok tt ∧
  _get_tensors (_set_tensors aliased_heap 0 [10] 20).1.1 0 "self" 20
  = Ok ([10; 1], ["self.x"; "self.y"]).
Proof. by vm_compute. Qed.

(** C5.  For an object whose slots hold float tensors, each in one slot
    only, and values without attributes and iteration: the traversal
    collects the [N] tensors of the slots; installing [N] float tensors
    that differ from each other returns, with nothing left of the list,
    and collecting then returns these [N] tensors in the order in which
    they were supplied. *)
Theorem C5_install_then_collect (h : heap) (obj : nat) (all_params : list nat)
    (max_depth : nat) :
  traversable h obj = true →
  NoDup (slots (shape_of h obj)).*1 →
  flat h (slots (shape_of h obj)) →
  NoDup (tensors_of h (slots (shape_of h obj))) →
  length all_params = length (tensors_of h (slots (shape_of h obj))) →
  NoDup all_params →
  (∀ p, p ∈ all_params → is_float h p = true) →
  (∃ names, _get_tensors h obj "self" max_depth
            = Ok (tensors_of h (slots (shape_of h obj)), names)) ∧
  ∃ h' names,
    _set_tensors h obj all_params max_depth = (h', [], Ok tt) ∧
    _get_tensors h' obj "self" max_depth = Ok (all_params, names).
Proof.
  intros Ht Hkeys Hfl Hnd Hlen Hps Hfloat. split.
  - rewrite _get_tensors_collect by done. rewrite collect_flat by done.
    pose proof (collect_distinct h (depth_error max_depth) "self" _ [] [] []
                  Hfl Hnd (λ x _, not_elem_of_nil x)) as Hc.
    cbn [app] in Hc. rewrite <-Hc.
    eexists. f_equal. apply surjective_pairing.
  - destruct (_set_tensors_install h obj all_params max_depth Ht Hkeys)
      as (h' & Hset & Hat).
    destruct (install_distinct h (depth_error max_depth) _ [] all_params
                Hfl Hnd) as (Hok & Hrest & Htens & Hfl');
      [intros x _ Hx; by apply elem_of_nil in Hx|done|done|].
    rewrite Hok, Hrest in Hset.
    assert (traversable h' obj = true) as Ht'
      by (by rewrite (at_traversable _ _ _ _ Hat)).
    pose proof (collect_distinct h (depth_error max_depth) "self" _ [] [] []
                  Hfl') as Hc.
    rewrite Htens in Hc. specialize (Hc Hps (λ x _, not_elem_of_nil x)).
    cbn [app] in Hc.
    pose proof (collect_flat h (depth_error max_depth) "self" _ [] [] []
                  Hfl') as Hret.
    set (r := collect h (depth_error max_depth) "self"
                (install h (depth_error max_depth) (slots (shape_of h obj)) []
                   all_params).1.1.1 [] [] []) in *.
    exists h', r.1.2.2. split; [done|].
    rewrite _get_tensors_collect by done.
    rewrite (at_slots _ _ _ _ Hat).
    rewrite (collect_ext h h') by apply Hat.
    fold r. rewrite Hret. f_equal. rewrite <-Hc. apply surjective_pairing.
Qed.

Lemma C5_install_then_collect_witness :
  (∃ names, _get_tensors flat_heap 0 "self" 20
            = Ok (tensors_of flat_heap (slots (shape_of flat_heap 0)), names)) ∧
  ∃ h' names,
    _set_tensors flat_heap 0 [10; 11] 20 = (h', [], Ok tt) ∧
    _get_tensors h' 0 "self" 20 = Ok ([10; 11], names).
Proof.
  apply (C5_install_then_collect flat_heap 0 [10; 11] 20).
  - reflexivity.
  - compute_done.
  - apply flat_Forall. compute_done.
  - compute_done.
  - reflexivity.
  - compute_done.
  - apply Forall_forall. compute_done.
Defined.

(** ** The recursive call *)

(** A traversal that returns has met no container in the slots of the
    object it was called on. *)
Lemma _get_tensors_Ok_flat h obj prefix max_depth r :
  _get_tensors h obj prefix max_depth = Ok r →
  flat h (slots (shape_of h obj)).
Proof.
  intros Hok. destruct (traversable h obj) eqn:Ht.
  - rewrite _get_tensors_collect in Hok by done.
    eapply (collect_Ok_flat h (depth_error max_depth) prefix _ [] [] []).
    + intros x Hx. by apply elem_of_nil in Hx.
    + by destruct (collect_outcome h (depth_error max_depth) prefix
                     (slots (shape_of h obj)) [] [] []) as [->| Hr];
        [|rewrite Hr in Hok].
  - unfold _get_tensors in Hok. by rewrite get_run_Plain in Hok.
Qed.

Lemma _get_tensors_outcome h obj prefix max_depth :
  (∃ r, _get_tensors h obj prefix max_depth = Ok r) ∨
  _get_tensors h obj prefix max_depth = Raise RuntimeError ∧
    traversable h obj = false ∨
  _get_tensors h obj prefix max_depth = Raise (depth_error max_depth) ∧
    traversable h obj = true.
Proof.
  destruct (traversable h obj) eqn:Ht.
  - rewrite _get_tensors_collect by done.
    destruct (collect_outcome h (depth_error max_depth) prefix
                (slots (shape_of h obj)) [] [] []) as [->| ->];
      [left; by eexists|right; right; done].
  - right. left. unfold _get_tensors. by rewrite get_run_Plain.
Qed.

(** C6.  [A.b = B], [B.a = A], [B.t = t]: the traversal of [A] ends, by
    the [TypeError] of the call of line 311 on [B]; the action has been
    invoked on no tensor, and [t] is a float tensor.  In general a
    traversal that returns has met no container below its root. *)
Theorem C6_cycle_ends_in_TypeError :
  get_run cyclic_heap 0 "self" 20
  = (TState cyclic_heap [1] ([], []), Raise TypeError) ∧
  _get_tensors cyclic_heap 0 "self" 20 = Raise TypeError ∧
  is_float cyclic_heap 2 = true ∧
  ∀ h obj prefix max_depth r,
    _get_tensors h obj prefix max_depth = Ok r →
    flat h (slots (shape_of h obj)).
Proof.
  split_and!; [by vm_compute..|]. apply _get_tensors_Ok_flat.
Qed.

(** C8.  [obj.a = [[]]] with the bound 1: the nesting is deeper than the
    bound, and the traversal raises [TypeError], for [_get_tensors] and
    for [_set_tensors]; with the bound 0 it raises [RecursionError].
    For no object and no bound above 0 does [_get_tensors] raise
    [RecursionError]. *)
Theorem C8_depth_error_only_at_bound_zero :
  _get_tensors nested_heap 0 "self" 1 = Raise TypeError ∧
  (_set_tensors nested_heap 0 [] 1).2 = Raise TypeError ∧
  _get_tensors nested_heap 0 "self" 0 = Raise RecursionError ∧
  ∀ h obj prefix max_depth,
    _get_tensors h obj prefix (S max_depth) ≠ Raise RecursionError.
Proof.
  split_and!; [by vm_compute..|].
  intros h obj prefix max_depth.
  destruct (_get_tensors_outcome h obj prefix (S max_depth))
    as [[r ->]|[[-> _]|[-> _]]]; done.
Qed.

(** ** The structural error *)

(** C9, first the case that the claim does not cover: the attribute [n]
    holds a number, which is no float tensor and has neither [__dict__]
    nor [__iter__]; the traversal returns. *)
Lemma C9_plain_element_counterexample :
  slots (shape_of atom_heap 0) = [(KAttr "n", 7)] ∧
  is_float atom_heap 7 = false ∧
  traversable atom_heap 7 = false ∧
  _get_tensors atom_heap 0 "self" 20 = Ok ([], []) ∧
  (_set_tensors atom_heap 0 [] 20).2 = Ok tt.
Proof. by vm_compute. Qed.

(** C9.  The traversal raises [RuntimeError] when the object it is
    called on has neither [__dict__] nor [__iter__], and only then; an
    element that is no float tensor and has neither is passed over: when
    the slots hold only float tensors and such elements, the traversal
    returns. *)
Theorem C9_structural_error_at_root (h : heap) (obj : nat) (prefix : string)
    (all_params : list nat) (max_depth : nat) :
  (traversable h obj = false →
   _get_tensors h obj prefix max_depth = Raise RuntimeError ∧
   _set_tensors h obj all_params max_depth
   = (h, all_params, Raise RuntimeError)) ∧
  (traversable h obj = true →
   _get_tensors h obj prefix max_depth ≠ Raise RuntimeError ∧
   (flat h (slots (shape_of h obj)) →
    ∃ r, _get_tensors h obj prefix max_depth = Ok r)).
Proof.
  split.
  - intros Ht. split; [|by apply _set_tensors_Plain].
    unfold _get_tensors. by rewrite get_run_Plain.
  - intros Ht. split.
    + destruct (_get_tensors_outcome h obj prefix max_depth)
        as [[r ->]|[[_ Hf]|[-> _]]]; [done|congruence|].
      by destruct max_depth.
    + intros Hfl. rewrite _get_tensors_collect by done.
      rewrite collect_flat by done. by eexists.
Qed.

(** ** One tensor in several slots *)

(** A float tensor [t] sits in the slots [i] and [j] of the object the
    traversal is called on, [i] being the first slot that holds it.
    Whatever the traversal does, [_get_tensors] collects no tensor twice
    and [_set_tensors] leaves [t] in slot [j]; what the two do when the
    traversal returns. *)
Lemma alias_first_slot (h : heap) (obj : nat)
    (prefix : string) (max_depth : nat) (all_params : list nat)
    (i j : nat) (ki kj : key) (t : nat) :
  NoDup (slots (shape_of h obj)).*1 →
  slots (shape_of h obj) !! i = Some (ki, t) →
  slots (shape_of h obj) !! j = Some (kj, t) →
  i < j →
  (∀ i' k', i' < i → slots (shape_of h obj) !! i' ≠ Some (k', t)) →
  is_float h t = true →
  NoDup (captured (get_run h obj prefix max_depth).1).1 ∧
  slots (shape_of (_set_tensors h obj all_params max_depth).1.1 obj) !! j
  = Some (kj, t) ∧
  (flat h (slots (shape_of h obj)) →
   ∃ r, _get_tensors h obj prefix max_depth = Ok r) ∧
  ∀ res names,
    _get_tensors h obj prefix max_depth = Ok (res, names) →
    ∃ n, res !! n = Some t ∧
         names !! n = Some (name_format prefix ki) ∧
         (∀ n', res !! n' = Some t → n' = n) ∧
         (length res ≤ length all_params →
          (_set_tensors h obj all_params max_depth).2 = Ok tt) ∧
         ((_set_tensors h obj all_params max_depth).2 = Ok tt →
          ∃ p, all_params !! n = Some p ∧
               slots (shape_of (_set_tensors h obj all_params max_depth).1.1
                        obj) !! i = Some (ki, p)).
Proof.
  intros Hkeys Hi Hj Hij Hfirst Hf.
  assert (traversable h obj = true) as Ht.
  { unfold traversable. destruct (shape_of h obj); [done|done|].
    cbn [slots] in Hi. by rewrite lookup_nil in Hi. }
  destruct (_set_tensors_install h obj all_params max_depth Ht Hkeys)
    as (h' & Hset & Hat).
  rewrite Hset. cbn [fst snd]. rewrite (at_slots _ _ _ _ Hat).
  rewrite get_run_collect, _get_tensors_collect by done. cbn [fst captured].
  split_and!.
  - apply collect_NoDup; [apply NoDup_nil_2|].
    intros x Hx. by apply elem_of_nil in Hx.
  - by apply (install_alias _ _ _ _ _ i j ki).
  - intros Hfl. rewrite collect_flat by done. by eexists.
  - intros res names Hok.
    destruct (collect_outcome h (depth_error max_depth) prefix
                (slots (shape_of h obj)) [] [] []) as [Hr|Hr];
      rewrite Hr in Hok; [|done].
    injection Hok as Hcap.
    destruct (collect_install_first h (depth_error max_depth)
                (depth_error max_depth) prefix (slots (shape_of h obj))
                [] [] [] all_params i ki t Hi Hfirst)
      as (n & Hres & Hnames & Hinst);
      [by intros ?%elem_of_nil|done|done|done|].
    pose proof (collect_NoDup h (depth_error max_depth) prefix
                  (slots (shape_of h obj)) [] [] [] (NoDup_nil_2)
                  (λ x Hx, False_ind _ (not_elem_of_nil x Hx))) as Hnd.
    pose proof (install_enough h (depth_error max_depth)
                  (depth_error max_depth) prefix (slots (shape_of h obj))
                  [] [] [] all_params Hr) as Hen.
    rewrite Hcap in Hres, Hnames, Hnd, Hen. cbn [fst snd length] in *.
    exists n. split_and!; [done|done| |done|done].
    intros n' Hn'. by eapply NoDup_lookup.
Qed.

(** C10.  [obj.c = []], [obj.x = t], [obj.y = t]: the tensor [t] is in
    two slots, behind a slot that holds a list.  At the list the call of
    line 311 raises [TypeError]: [_get_tensors] raises and has collected
    nothing, [_set_tensors] raises and has written nothing (both slots
    hold [t], the list of the caller is as it was). *)
Theorem C10_alias_behind_container_TypeError :
  slots (shape_of behind_container_heap 0)
  = [(KAttr "c", 3); (KAttr "x", 1); (KAttr "y", 1)] ∧
  is_float behind_container_heap 1 = true ∧
  get_run behind_container_heap 0 "self" 20
  = (TState behind_container_heap [3] ([], []), Raise TypeError) ∧
  _get_tensors behind_container_heap 0 "self" 20 = Raise TypeError ∧
  _set_tensors behind_container_heap 0 [10] 20
  = (behind_container_heap, [10], Raise TypeError).
Proof. split_and!; by vm_compute. Qed.

(** * Further properties *)

(** ** The order of the unique indices *)

Lemma scan_first_step l k ids idxs idx_map :
  k < length l →
  scan_inv l k ids idxs idx_map →
  scan_first l ids idxs →
  scan_first l (scan_step l (ids, idxs, idx_map) k).1.1
               (scan_step l (ids, idxs, idx_map) k).1.2.
Proof.
  intros Hk [Hnd Hli Hlm Hidx Hmap Hcov] [Hfirst Hsorted]. unfold scan_step.
  destruct (lookup_lt_is_Some_2 l k Hk) as [x Hx]. rewrite Hx.
  destruct (index x ids) as [jf|] eqn:Ei; simpl; [by split|].
  apply index_None in Ei. split.
  - intros j i i' y Hj Hlt Hy.
    apply lookup_app_Some in Hj as [Hj|[Hge Hj]].
    + rewrite lookup_app_l by (rewrite <-Hli; by eapply lookup_lt_Some).
      by eapply Hfirst.
    + apply list_lookup_singleton_Some in Hj as [Hj ->].
      rewrite lookup_app_r by lia.
      replace (j - length ids) with 0 by lia. simpl. intros Heq.
      injection Heq as ->.
      destruct (Hcov i' y Hlt Hy) as (j' & g & Hj' & _).
      apply Ei. by eapply list_elem_of_lookup_2.
  - intros j1 j2 i1 i2 Hlt H1 H2.
    apply lookup_app_Some in H2 as [H2|[Hge H2]].
    + rewrite lookup_app_l in H1 by (apply lookup_lt_Some in H2; lia).
      by eapply Hsorted.
    + apply list_lookup_singleton_Some in H2 as [Hj2 ->].
      rewrite lookup_app_l in H1 by lia.
      by destruct (Hidx j1 i1 H1).
Qed.

Lemma scan_first_foldl l n : ∀ k ids idxs idx_map,
  k + n ≤ length l →
  scan_inv l k ids idxs idx_map →
  scan_first l ids idxs →
  scan_first l (foldl (scan_step l) (ids, idxs, idx_map) (seq k n)).1.1
               (foldl (scan_step l) (ids, idxs, idx_map) (seq k n)).1.2.
Proof.
  induction n as [|n IH]; intros k ids idxs idx_map Hle Hinv Hf;
    cbn [seq foldl]; [done|].
  pose proof (scan_inv_step l k ids idxs idx_map ltac:(lia) Hinv) as Hs.
  pose proof (scan_first_step l k ids idxs idx_map ltac:(lia) Hinv Hf) as Hs'.
  cbv zeta in Hs.
  destruct (scan_step l (ids, idxs, idx_map) k) as [[ids1 idxs1] map1].
  apply IH; [lia|done|done].
Qed.

Lemma scan_first_spec l : scan_first l (scan l).1.1 (scan l).1.2.
Proof.
  unfold scan. apply (scan_first_foldl l (length l) 0 [] [] []);
    [lia|apply scan_inv_init|by split].
Qed.

(** A position is in the index list of the scan exactly when no earlier
    position holds the same identity. *)
Lemma scan_idxs_first l i :
  i ∈ (scan l).1.2 ↔ i < length l ∧ ∀ i', i' < i → l !! i' ≠ l !! i.
Proof.
  destruct (scan_spec l) as [Hnd Hli Hlm Hidx Hmap Hcov].
  destruct (scan_first_spec l) as [Hfirst Hsorted]. split.
  - intros [j Hj]%list_elem_of_lookup.
    destruct (Hidx j i Hj) as [Hlt Hl]. split; [done|].
    intros i' Hlt' Heq.
    destruct (lookup_lt_is_Some_2 l i' ltac:(lia)) as [x Hx].
    apply (Hfirst j i i' x Hj Hlt' Hx). congruence.
  - intros [Hlt Hmin].
    destruct (lookup_lt_is_Some_2 l i Hlt) as [x Hx].
    destruct (Hcov i x Hlt Hx) as (j & g & Hj & _ & _).
    assert (j < length (scan l).1.2) as Hjlt
      by (rewrite Hli; by eapply lookup_lt_Some).
    destruct (lookup_lt_is_Some_2 _ j Hjlt) as [i0 Hi0].
    destruct (Hidx j i0 Hi0) as [Hlt0 Hl0].
    assert (i0 = i) as <-; [|by eapply list_elem_of_lookup_2].
    destruct (Nat.lt_trichotomy i0 i) as [Hc|[Hc|Hc]]; [|done|].
    + exfalso. apply (Hmin i0 Hc). congruence.
    + exfalso. apply (Hfirst j i0 i x Hi0 Hc Hx). done.
Qed.

(** With no more unique parameters than groups, the loop of lines 44-48
    fills the positions of the groups it reaches and leaves [None] at
    the others. *)
Lemma fill_scan_le (l us : list nat) :
  length us ≤ length (scan l).1.1 →
  fill (scan l).2 0 us (replicate (length l) None)
  = Ok (spread (scan l).1.1 us l).
Proof.
  intros Hlen. destruct (scan_spec l) as [Hnd Hli Hlm Hidx Hmap Hcov].
  set (ids := (scan l).1.1) in *. set (maps := (scan l).2) in *.
  destruct (fill_spec maps (spread ids us l) us 0 (replicate (length l) None))
    as (acc' & Hf & Hlen' & Hag).
  - intros j Hj. apply lookup_lt_is_Some_2. simpl. lia.
  - intros j u g i Hu Hg Hi. simpl in Hg.
    destruct (Hmap j g i Hg Hi) as [Hlt Hl]. rewrite length_replicate.
    split; [done|]. unfold spread. rewrite list_lookup_fmap.
    destruct (lookup_lt_is_Some_2 l i Hlt) as [x Hx]. rewrite Hx. simpl.
    rewrite (index_NoDup x ids j Hnd) by congruence. simpl. by rewrite Hu.
  - rewrite Hf. f_equal. rewrite length_replicate in Hlen'.
    apply (list_eq_same_length _ _ (length l)); [|done|].
    { unfold spread. by rewrite length_fmap. }
    intros i y z Hi Hy Hz. rewrite Hag in Hy; [congruence|].
    destruct (lookup_lt_is_Some_2 l i Hi) as [x Hx].
    destruct (Hcov i x Hi Hx) as (j & g & Hj & Hg & Hin).
    destruct (decide (j < length us)) as [Hjlt|Hjge].
    + left. destruct (lookup_lt_is_Some_2 us j Hjlt) as [u Hu].
      exists j, u, g. done.
    + right. rewrite lookup_replicate_2 by done.
      unfold spread. rewrite list_lookup_fmap, Hx. simpl.
      rewrite (index_NoDup x ids j Hnd Hj). simpl.
      by rewrite lookup_ge_None_2 by lia.
Qed.

Lemma broadcast_raises g p : ∀ acc e,
  broadcast g p acc = Raise e → e = IndexError.
Proof.
  induction g as [|i g IH]; intros acc e; simpl; [done|].
  destruct (decide (i < length acc)); [apply IH|congruence].
Qed.

(** More unique parameters than groups: line 45 fails. *)
Lemma fill_too_many maps us : ∀ j0 acc,
  j0 ≤ length maps →
  length maps < j0 + length us →
  fill maps j0 us acc = Raise IndexError.
Proof.
  induction us as [|p us IH]; intros j0 acc Hj0 Hlen; simpl in *.
  - lia.
  - destruct (maps !! j0) as [g|] eqn:Hg; [|done].
    apply lookup_lt_Some in Hg.
    destruct (broadcast g p acc) as [acc'|e] eqn:Hb.
    + apply IH; lia.
    + by rewrite (broadcast_raises g p acc e Hb).
Qed.

Section LayerFacts.

Context {Obj : Type}.
Variable getparams : string → Obj → list nat.
Variable setparams : string → list (option nat) → Obj → Obj * result nat.
Local Abbreviation module := (@module Obj).

Lemma read_cache_attrs_None {V} (field : caches → gmap string V) m
    (st : module) :
  attrs st = None → read_cache field m st = (st, Raise AttributeError).
Proof. intros Ha. unfold read_cache. munfold. by rewrite Ha. Qed.

Lemma read_cache_Some {V} (field : caches → gmap string V) m (st : module) c :
  attrs st = Some c →
  read_cache field m st = (st, or_raise KeyError (field c !! m)).
Proof. intros Ha. unfold read_cache. munfold. by rewrite Ha. Qed.

(** X1.  For a name without an entry and any parameter list,
    [_get_unique_params_idxs] returns the positions at which an identity
    occurs for the first time, in increasing order. *)
Theorem X1_unique_indices_are_first_positions (m : string)
    (ap : option (list nat)) (st : module) :
  cached_idxs m st = None →
  ∃ st' idxs,
    _get_unique_params_idxs getparams m ap st = (st', Ok idxs) ∧
    (∀ i, i ∈ idxs ↔
          i < length (default (getparams m (user st)) ap) ∧
          ∀ i', i' < i → default (getparams m (user st)) ap !! i'
                         ≠ default (getparams m (user st)) ap !! i) ∧
    (∀ j1 j2 i1 i2, j1 < j2 → idxs !! j1 = Some i1 → idxs !! j2 = Some i2 →
                    i1 < i2).
Proof.
  intros Hc. rewrite (idxs_miss getparams m ap st Hc).
  eexists _, _. split; [done|]. split.
  - apply scan_idxs_first.
  - apply (sf_sorted _ _ _ (scan_first_spec _)).
Qed.

(** X2.  With no entry yet, or with an entry for the list that
    [getparams] returns now, [getuniqueparams] returns every tensor of
    [getparams] once: its result has no identity twice and holds the
    same identities as the full list; the object itself is not
    changed. *)
Theorem X2_getuniqueparams_each_tensor_once (m : string) (st : module) :
  cache_current getparams m st →
  ∃ st' us,
    getuniqueparams getparams m st = (st', Ok us) ∧
    NoDup us ∧
    (∀ x, x ∈ us ↔ x ∈ getparams m (user st)) ∧
    user st' = user st.
Proof.
  intros Hcur.
  destruct (getuniqueparams_current getparams m st Hcur)
    as (st' & Hg & _ & Hu).
  exists st', (scan (getparams m (user st))).1.1.
  destruct (scan_spec (getparams m (user st))) as [Hnd Hli _ Hidx _ _].
  split_and!; [done|done| |done].
  intros x. split; [|apply elem_of_scan_ids].
  intros [j Hj]%list_elem_of_lookup.
  assert (j < length (scan (getparams m (user st))).1.2) as Hjlt
    by (rewrite Hli; by eapply lookup_lt_Some).
  destruct (lookup_lt_is_Some_2 _ j Hjlt) as [i Hi].
  destruct (Hidx j i Hi) as [_ Hl].
  apply list_elem_of_lookup. exists i. congruence.
Qed.

(** X3.  The group map that [_get_unique_params_idxs] stores has one
    group for each index it returns; every position of the list is in
    one group and in no other; and two positions are in the same group
    exactly when they hold the same tensor. *)
Theorem X3_groups_partition_positions (m : string) (ap : option (list nat))
    (st : module) :
  cached_idxs m st = None →
  ∃ st' idxs maps,
    _get_unique_params_idxs getparams m ap st = (st', Ok idxs) ∧
    cached_maps m st' = Some maps ∧
    cached_number m st'
    = Some (length (default (getparams m (user st)) ap)) ∧
    length maps = length idxs ∧
    (∀ j i, idxs !! j = Some i → ∃ g, maps !! j = Some g ∧ i ∈ g) ∧
    (∀ i, i < length (default (getparams m (user st)) ap) →
          ∃ j g, maps !! j = Some g ∧ i ∈ g) ∧
    (∀ j j' g g' i i',
       maps !! j = Some g → maps !! j' = Some g' → i ∈ g → i' ∈ g' →
       (j = j' ↔ default (getparams m (user st)) ap !! i
                 = default (getparams m (user st)) ap !! i')).
Proof.
  intros Hc. rewrite (idxs_miss getparams m ap st Hc).
  set (l := default (getparams m (user st)) ap).
  destruct (stored_cache_of m l
              (match ap with None => [EGetParams m] | Some _ => [] end
               ++ [EScan m]) st) as (_ & Hm & Hn).
  destruct (scan_spec l) as [Hnd Hli Hlm Hidx Hmap Hcov].
  eexists _, _, _. split_and!; [done|exact Hm|exact Hn|congruence| | |].
  - intros j i Hi. destruct (Hidx j i Hi) as [Hlt Hl].
    destruct (lookup_lt_is_Some_2 l i Hlt) as [x Hx].
    destruct (Hcov i x Hlt Hx) as (j' & g & Hj' & Hg & Hin).
    exists g. split; [|done].
    assert (j' = j) as <-; [|done].
    eapply NoDup_lookup; [exact Hnd|exact Hj'|congruence].
  - intros i Hlt. destruct (lookup_lt_is_Some_2 l i Hlt) as [x Hx].
    destruct (Hcov i x Hlt Hx) as (j & g & _ & Hg & Hin). by exists j, g.
  - intros j j' g g' i i' Hg Hg' Hi Hi'.
    destruct (Hmap j g i Hg Hi) as [Hlt Hl].
    destruct (Hmap j' g' i' Hg' Hi') as [Hlt' Hl'].
    split; [intros <-; congruence|].
    intros Heq. destruct (lookup_lt_is_Some_2 l i Hlt) as [x Hx].
    apply (NoDup_lookup _ j j' x Hnd); congruence.
Qed.

(** X4.  Once the scan of the list [l] is stored, [setuniqueparams] with
    one tensor for each group calls [setparams] with a full list of the
    length of [l] that holds the same tensor wherever [l] does, holds
    only tensors that were passed and every one of them; with the unique
    parameters of [l] itself the full list is [l]. *)
Theorem X4_setuniqueparams_rebuilds_full_list (m : string) (l us : list nat)
    (st : module) :
  cache_of m l st →
  length us = length (scan l).1.1 →
  ∃ l',
    setuniqueparams setparams m us st
    = call_setparams setparams m (Some <$> l') st ∧
    length l' = length l ∧
    (∀ i j, l !! i = l !! j → l' !! i = l' !! j) ∧
    (∀ u, u ∈ l' ↔ u ∈ us) ∧
    (us = (scan l).1.1 → l' = l).
Proof.
  intros Hc Hlen.
  destruct (scan_spec l) as [Hnd Hli Hlm Hidx Hmap Hcov].
  rewrite (setuniqueparams_cached setparams m l us st Hc Hlen).
  rewrite (spread_full l us Hlen).
  set (f := λ x, default 0 (index x (scan l).1.1 ≫= (us !!.))).
  exists (f <$> l). split_and!; [done|by rewrite length_fmap| | |].
  - intros i j Hij. by rewrite !list_lookup_fmap, Hij.
  - intros u. split.
    + intros (x & -> & Hx)%list_elem_of_fmap. unfold f.
      destruct (index_is_Some x (scan l).1.1 (elem_of_scan_ids l x Hx))
        as [j Hj].
      rewrite Hj. simpl. apply index_Some in Hj as [Hj _].
      assert (j < length us) as Hjlt
        by (rewrite Hlen; by eapply lookup_lt_Some).
      destruct (lookup_lt_is_Some_2 us j Hjlt) as [u Hu]. rewrite Hu. simpl.
      by eapply list_elem_of_lookup_2.
    + intros [j Hj]%list_elem_of_lookup.
      assert (j < length (scan l).1.2) as Hjlt.
      { rewrite Hli, <-Hlen. by eapply lookup_lt_Some. }
      destruct (lookup_lt_is_Some_2 _ j Hjlt) as [i Hi].
      destruct (Hidx j i Hi) as [Hlt Hl].
      destruct (lookup_lt_is_Some_2 l i Hlt) as [x Hx].
      apply list_elem_of_fmap. exists x.
      split; [|by eapply list_elem_of_lookup_2]. unfold f.
      rewrite (index_NoDup x (scan l).1.1 j Hnd) by congruence.
      simpl. by rewrite Hj.
  - intros ->. rewrite <-(list_fmap_id l) at 2.
    apply list_fmap_ext. intros i x Hx. unfold f. simpl.
    destruct (index_is_Some x (scan l).1.1) as [j Hj].
    { apply elem_of_scan_ids. by eapply list_elem_of_lookup_2. }
    rewrite Hj. simpl. apply index_Some in Hj as [Hj _]. by rewrite Hj.
Qed.

Lemma setuniqueparams_too_many (m : string) (l us : list nat) (st : module) :
  cache_of m l st → length (scan l).1.1 < length us →
  setuniqueparams setparams m us st = (st, Raise IndexError).
Proof.
  intros (Hi & Hm & Hn) Hlen.
  unfold cached_maps, cached_number in Hm, Hn.
  destruct (attrs st) as [c|] eqn:Ha; [|done]. simpl in Hm, Hn.
  unfold setuniqueparams.
  rewrite mbind_run, (read_cache_Some _ m st c Ha), Hn. simpl.
  rewrite mbind_run, (read_cache_Some _ m st c Ha), Hm. simpl.
  rewrite mbind_run. unfold lift at 1.
  rewrite fill_too_many; [done|lia|].
  destruct (scan_spec l) as [_ _ Hlm _ _ _]. simpl. lia.
Qed.

(** X5.  [setuniqueparams] before any call of [_get_unique_params_idxs]
    raises [AttributeError]; for a name without an entry it raises
    [KeyError]; with more tensors than groups it raises [IndexError];
    in these three cases [setparams] is not called and the instance is
    as before.  With fewer tensors than groups it calls [setparams] with
    [None] at the positions of the groups that got no tensor. *)
Theorem X5_setuniqueparams_errors (m : string) (us : list nat) (st : module) :
  (attrs st = None →
   setuniqueparams setparams m us st = (st, Raise AttributeError)) ∧
  (∀ c, attrs st = Some c → _number_of_params c !! m = None →
        setuniqueparams setparams m us st = (st, Raise KeyError)) ∧
  (∀ l, cache_of m l st → length (scan l).1.1 < length us →
        setuniqueparams setparams m us st = (st, Raise IndexError)) ∧
  (∀ l, cache_of m l st → length us ≤ length (scan l).1.1 →
        setuniqueparams setparams m us st
        = call_setparams setparams m (spread (scan l).1.1 us l) st ∧
        length (spread (scan l).1.1 us l) = length l ∧
        ∀ i x j, l !! i = Some x → (scan l).1.1 !! j = Some x →
                 spread (scan l).1.1 us l !! i = Some (us !! j)).
Proof.
  split_and!.
  - intros Ha. unfold setuniqueparams.
    by rewrite mbind_run, read_cache_attrs_None.
  - intros c Ha Hn. unfold setuniqueparams.
    rewrite mbind_run, (read_cache_Some _ m st c Ha), Hn. done.
  - intros l Hc Hlen. by apply (setuniqueparams_too_many m l).
  - intros l (Hi & Hm & Hn) Hlen.
    unfold cached_maps, cached_number in Hm, Hn.
    destruct (attrs st) as [c|] eqn:Ha; [|done]. simpl in Hm, Hn.
    split_and!.
    + unfold setuniqueparams.
      rewrite mbind_run, (read_cache_Some _ m st c Ha), Hn. simpl.
      rewrite mbind_run, (read_cache_Some _ m st c Ha), Hm. simpl.
      rewrite mbind_run. unfold lift at 1.
      by rewrite fill_scan_le.
    + unfold spread. by rewrite length_fmap.
    + intros i x j Hx Hj. unfold spread. rewrite list_lookup_fmap, Hx. simpl.
      destruct (scan_spec l) as [Hnd _ _ _ _ _].
      by rewrite (index_NoDup x _ j Hnd Hj).
Qed.

(** X6.  An exception of the block that is no instance of [Exception]
    ([KeyboardInterrupt], [SystemExit]) is not printed: the original
    parameters are put back and the exception leaves the [with]
    statement. *)
Theorem X6_base_exception_leaves_with (m : string) (params : list nat)
    (body : M module unit) (st0 : module) (e : exn) :
  conforming getparams setparams m →
  cache_current getparams m st0 →
  (∀ st, cache_of m (getparams m (user st0)) st →
         cache_of m (getparams m (user st0)) (body st).1) →
  length params = length (scan (getparams m (user st0))).1.1 →
  (∀ st, (body st).2 = Raise e) →
  isinstance_Exception e = false →
  ∃ st2 st',
    with_useparams getparams setparams m params body st0 = (st', Raise e) ∧
    getparams m (user st') = getparams m (user st0) ∧
    history st'
    = history (body st2).1
      ++ [ESetParams m (Some <$> getparams m (user st0))].
Proof.
  intros (slots & Hget & Hset) Hcur Hbody Hlen Hraise He.
  destruct (with_useparams_outcome getparams setparams m slots Hget Hset
              params body st0 Hcur Hbody Hlen) as (st2 & st' & Hw & Hh).
  rewrite Hraise, He in Hw, Hh. exists st2, st'. split_and!; [done| |done].
  pose proof (with_useparams_restores getparams setparams m slots Hget Hset
                params body st0 Hcur Hbody) as (Hg & _).
  by rewrite Hw in Hg.
Qed.

(** X7.  With more replacement tensors than unique parameters the block
    of the [with] statement is not run: [setuniqueparams] fails with
    [IndexError] before the [yield], the exception is printed, the
    original parameters are put back, and the [with] statement raises
    the [RuntimeError] of a generator that did not yield. *)
Theorem X7_too_many_params_block_not_run (m : string) (params : list nat)
    (st0 : module) :
  conforming getparams setparams m →
  cache_current getparams m st0 →
  length (scan (getparams m (user st0))).1.1 < length params →
  ∃ st' h,
    (∀ body, with_useparams getparams setparams m params body st0
             = (st', Raise RuntimeError)) ∧
    getparams m (user st') = getparams m (user st0) ∧
    history st'
    = h ++ [EPrintExc IndexError;
            ESetParams m (Some <$> getparams m (user st0))].
Proof.
  intros (slots & Hget & Hset) Hcur Hlen.
  set (l0 := getparams m (user st0)) in *.
  pose proof (Hget (user st0)) as Hf. fold l0 in Hf.
  destruct (getuniqueparams_current getparams m st0 Hcur)
    as (st1 & Hg & Hc1 & Hu1).
  fold l0 in Hg, Hc1.
  destruct (handlers_spec getparams setparams m slots Hset l0
              (Some IndexError) st1 Hf Hc1) as (st' & Hh & Hres & Hhist).
  simpl in Hh, Hhist.
  exists st', (history st1). split_and!; [|apply Hres|done].
  intros body. unfold with_useparams, useparams_start. rewrite !mbind_run.
  unfold attempt at 1. rewrite Hg.
  rewrite mbind_run. unfold attempt at 1.
  rewrite (setuniqueparams_too_many m l0 params st1 Hc1 Hlen).
  rewrite mbind_run, Hh. done.
Qed.

End LayerFacts.

Lemma X1_unique_indices_are_first_positions_witness :
  ∃ st' idxs,
    _get_unique_params_idxs ex_getparams "forward" None ex_module
    = (st', Ok idxs) ∧
    (∀ i, i ∈ idxs ↔
          i < length (default (ex_getparams "forward" (user ex_module)) None) ∧
          ∀ i', i' < i →
                default (ex_getparams "forward" (user ex_module)) None !! i'
                ≠ default (ex_getparams "forward" (user ex_module)) None !! i) ∧
    (∀ j1 j2 i1 i2, j1 < j2 → idxs !! j1 = Some i1 → idxs !! j2 = Some i2 →
                    i1 < i2).
Proof.
  apply (X1_unique_indices_are_first_positions ex_getparams "forward" None
           ex_module).
  reflexivity.
Defined.

Lemma X2_getuniqueparams_each_tensor_once_witness :
  ∃ st' us,
    getuniqueparams ex_getparams "forward" ex_module = (st', Ok us) ∧
    NoDup us ∧
    (∀ x, x ∈ us ↔ x ∈ ex_getparams "forward" (user ex_module)) ∧
    user st' = user ex_module.
Proof.
  apply (X2_getuniqueparams_each_tensor_once ex_getparams "forward"
           ex_module).
  left. reflexivity.
Defined.

Lemma X3_groups_partition_positions_witness :
  ∃ st' idxs maps,
    _get_unique_params_idxs ex_getparams "forward" None ex_module
    = (st', Ok idxs) ∧
    cached_maps "forward" st' = Some maps ∧
    cached_number "forward" st'
    = Some (length (default (ex_getparams "forward" (user ex_module)) None)) ∧
    length maps = length idxs ∧
    (∀ j i, idxs !! j = Some i → ∃ g, maps !! j = Some g ∧ i ∈ g) ∧
    (∀ i, i < length (default (ex_getparams "forward" (user ex_module)) None) →
          ∃ j g, maps !! j = Some g ∧ i ∈ g) ∧
    (∀ j j' g g' i i',
       maps !! j = Some g → maps !! j' = Some g' → i ∈ g → i' ∈ g' →
       (j = j' ↔ default (ex_getparams "forward" (user ex_module)) None !! i
                 = default (ex_getparams "forward" (user ex_module)) None
                   !! i')).
Proof.
  apply (X3_groups_partition_positions ex_getparams "forward" None ex_module).
  reflexivity.
Defined.

Lemma X4_setuniqueparams_rebuilds_full_list_witness :
  ∃ l',
    setuniqueparams ex_setparams "forward" [11; 12; 13] ex_scanned
    = call_setparams ex_setparams "forward" (Some <$> l') ex_scanned ∧
    length l' = length [1; 2; 1; 3] ∧
    (∀ i j, [1; 2; 1; 3] !! i = [1; 2; 1; 3] !! j → l' !! i = l' !! j) ∧
    (∀ u, u ∈ l' ↔ u ∈ [11; 12; 13]) ∧
    ([11; 12; 13] = (scan [1; 2; 1; 3]).1.1 → l' = [1; 2; 1; 3]).
Proof.
  apply (X4_setuniqueparams_rebuilds_full_list ex_setparams "forward"
           [1; 2; 1; 3] [11; 12; 13] ex_scanned).
  - split_and!; reflexivity.
  - reflexivity.
Defined.

Lemma X6_base_exception_leaves_with_witness :
  ∃ st2 st',
    with_useparams ex_getparams ex_setparams "forward" [11; 12; 13]
      ex_interrupted_block ex_module = (st', Raise (BaseOnly 0)) ∧
    ex_getparams "forward" (user st')
    = ex_getparams "forward" (user ex_module) ∧
    history st'
    = history (ex_interrupted_block st2).1
      ++ [ESetParams "forward"
            (Some <$> ex_getparams "forward" (user ex_module))].
Proof.
  apply (X6_base_exception_leaves_with ex_getparams ex_setparams "forward"
           [11; 12; 13] ex_interrupted_block ex_module (BaseOnly 0)).
  - apply ex_conforming.
  - left. reflexivity.
  - intros st H. exact H.
  - reflexivity.
  - intros st. reflexivity.
  - reflexivity.
Defined.

Lemma X7_too_many_params_block_not_run_witness :
  ∃ st' h,
    (∀ body, with_useparams ex_getparams ex_setparams "forward"
               [11; 12; 13; 14] body ex_module
             = (st', Raise RuntimeError)) ∧
    ex_getparams "forward" (user st')
    = ex_getparams "forward" (user ex_module) ∧
    history st'
    = h ++ [EPrintExc IndexError;
            ESetParams "forward"
              (Some <$> ex_getparams "forward" (user ex_module))].
Proof.
  apply (X7_too_many_params_block_not_run ex_getparams ex_setparams "forward"
           [11; 12; 13; 14] ex_module).
  - apply ex_conforming.
  - left. reflexivity.
  - simpl. lia.
Defined.

(** ** The checks of [assertparams] *)

Section CheckFacts.

Context {Obj : Type}.
Variable getparams : string → Obj → list nat.
Variable setparams : string → list (option nat) → Obj → Obj * result nat.
Local Abbreviation module := (@module Obj).

(** The loop of lines 149-153 ends at the first pair of different
    identities, and returns when there is none. *)
Lemma check_order_spec (m : string) (params1 : list nat)
    (zipped : list (nat * nat)) : ∀ (i : nat) (st : module),
  ∃ st' out,
    check_order setparams m params1 i zipped st = (st', Ok out) ∧
    (out = None ↔ ∀ k p0 p1, zipped !! k = Some (p0, p1) → p0 = p1) ∧
    (out = None → st' = st) ∧
    (∀ j, out = Some (ParamMismatch j) ↔
          ∃ k p0 p1, j = i + k ∧ zipped !! k = Some (p0, p1) ∧ p0 ≠ p1 ∧
                     ∀ k' q0 q1, k' < k → zipped !! k' = Some (q0, q1) →
                                 q0 = q1) ∧
    (∀ n0 n1, out ≠ Some (CountMismatch n0 n1)).
Proof.
  induction zipped as [|[p0 p1] zipped IH]; intros i st; simpl.
  - exists st, None. split_and!; try done.
    intros j. split; [done|]. by intros (k & q0 & q1 & _ & Hk & _).
  - destruct (decide (p0 ≠ p1)) as [Hne|Heq].
    + rewrite mbind_run.
      destruct (get_error_message_history setparams m params1 i st)
        as (st' & -> & _).
      exists st', (Some (ParamMismatch i)). split_and!; try done.
      * split; [done|]. intros H. destruct Hne. by apply (H 0).
      * intros j. split.
        -- intros [= <-]. exists 0, p0, p1.
           split_and!; [lia|done|done|]. intros; lia.
        -- intros (k & q0 & q1 & -> & Hk & Hq & Hmin).
           destruct k as [|k]; [by rewrite Nat.add_0_r|].
           destruct Hne. apply (Hmin 0 p0 p1); [lia|done].
    + apply dec_stable in Heq as <-.
      destruct (IH (S i) st) as (st' & out & Hr & Hnone & Hst & Hsome & Hcnt).
      exists st', out. split_and!; try done.
      * rewrite Hnone. split.
        -- intros H [|k] q0 q1 Hk; simpl in Hk; [congruence|by eapply H].
        -- intros H k q0 q1 Hk. by apply (H (S k)).
      * intros j. rewrite Hsome. split.
        -- intros (k & q0 & q1 & -> & Hk & Hq & Hmin).
           exists (S k), q0, q1. split_and!; [lia|done|done|].
           intros [|k'] r0 r1 Hlt Hk'; simpl in Hk'; [congruence|].
           apply (Hmin k'); [lia|done].
        -- intros (k & q0 & q1 & -> & Hk & Hq & Hmin).
           destruct k as [|k]; simpl in Hk; [congruence|].
           exists k, q0, q1. split_and!; [lia|done|done|].
           intros k' r0 r1 Hlt Hk'. apply (Hmin (S k')); [lia|done].
Qed.

(** X8.  The second check of [assertparams] accepts every module that
    keeps the contract: it returns, after one [getparams], one
    [setparams] with the list just read and a second [getparams], and
    the parameters of the object are those it had. *)
Theorem X8_match_check_accepts_conforming (m : string) (st : module) :
  conforming getparams setparams m →
  ∃ st',
    assert_match_getsetparams getparams setparams m st = (st', Ok None) ∧
    getparams m (user st') = getparams m (user st) ∧
    history st'
    = history st ++ [EGetParams m;
                     ESetParams m (Some <$> getparams m (user st));
                     EGetParams m].
Proof.
  intros (slots & Hget & Hset).
  destruct (Hset (user st) _ (Hget (user st))) as (u' & Hs & Hg).
  unfold assert_match_getsetparams.
  rewrite mbind_run, call_getparams_spec, mbind_run.
  rewrite call_setparams_spec. cbn [user attrs history logged]. rewrite Hs.
  cbn [fst snd]. rewrite decide_False by (intros H; by apply H).
  rewrite mbind_run, call_getparams_spec.
  cbn [user attrs history logged]. rewrite Hg.
  destruct (check_order_spec m (getparams m (user st))
              (zip (getparams m (user st)) (getparams m (user st))) 0
              (logged [EGetParams m]
                 (Module_ u' (attrs st)
                    ((history st ++ [EGetParams m])
                     ++ [ESetParams m (Some <$> getparams m (user st))]))))
    as (st' & out & Hr & Hnone & Hst & _).
  assert (out = None) as ->.
  { apply Hnone. intros k p0 p1 Hk.
    apply lookup_zip_with_Some in Hk as (x & y & [= -> ->] & Hx & Hy).
    congruence. }
  rewrite (Hst eq_refl) in Hr. eexists. split; [exact Hr|].
  simpl. split; [done|]. by rewrite <-!app_assoc.
Qed.

(** X9.  What the second check reports, for any [getparams] and
    [setparams].  An exception of [setparams] leaves the check; a count
    returned by [setparams] that is not the length of the list that
    [getparams] returned is reported first; otherwise the check compares
    the lists read before and after as far as both reach: it returns
    when they agree there, whatever their lengths, and else reports the
    first position at which they differ. *)
Theorem X9_match_check_reports (m : string) (st : module) :
  (∀ e, (setparams m (Some <$> getparams m (user st)) (user st)).2 = Raise e →
        (assert_match_getsetparams getparams setparams m st).2 = Raise e) ∧
  (∀ n, (setparams m (Some <$> getparams m (user st)) (user st)).2 = Ok n →
        n ≠ length (getparams m (user st)) →
        (assert_match_getsetparams getparams setparams m st).2
        = Ok (Some (CountMismatch (length (getparams m (user st))) n))) ∧
  ((setparams m (Some <$> getparams m (user st)) (user st)).2
   = Ok (length (getparams m (user st))) →
   ∃ out,
     (assert_match_getsetparams getparams setparams m st).2 = Ok out ∧
     (out = None ↔
      ∀ i p0 p1,
        getparams m (user st) !! i = Some p0 →
        getparams m (setparams m (Some <$> getparams m (user st))
                       (user st)).1 !! i = Some p1 →
        p0 = p1) ∧
     (∀ i, out = Some (ParamMismatch i) ↔
           ∃ p0 p1,
             getparams m (user st) !! i = Some p0 ∧
             getparams m (setparams m (Some <$> getparams m (user st))
                            (user st)).1 !! i = Some p1 ∧
             p0 ≠ p1 ∧
             ∀ i' q0 q1, i' < i →
               getparams m (user st) !! i' = Some q0 →
               getparams m (setparams m (Some <$> getparams m (user st))
                              (user st)).1 !! i' = Some q1 →
               q0 = q1)).
Proof.
  set (l0 := getparams m (user st)).
  set (r := setparams m (Some <$> l0) (user st)).
  assert (Hstart : assert_match_getsetparams getparams setparams m st
    = match r.2 with
      | Ok n =>
          if decide (n ≠ length l0)
          then (Module_ r.1 (attrs st)
                  ((history st ++ [EGetParams m])
                   ++ [ESetParams m (Some <$> l0)]),
                Ok (Some (CountMismatch (length l0) n)))
          else check_order setparams m (getparams m r.1) 0
                 (zip l0 (getparams m r.1))
                 (logged [EGetParams m]
                    (Module_ r.1 (attrs st)
                       ((history st ++ [EGetParams m])
                        ++ [ESetParams m (Some <$> l0)])))
      | Raise e =>
          (Module_ r.1 (attrs st)
             ((history st ++ [EGetParams m])
              ++ [ESetParams m (Some <$> l0)]),
           Raise e)
      end).
  { unfold assert_match_getsetparams.
    rewrite mbind_run, call_getparams_spec, mbind_run.
    rewrite call_setparams_spec. cbn [user attrs history logged].
    fold l0. fold r. destruct r.2 as [n|e]; [|done].
    destruct (decide (n ≠ length l0)); [done|].
    by rewrite mbind_run, call_getparams_spec. }
  split_and!.
  - intros e He. by rewrite Hstart, He.
  - intros n Hn Hne. rewrite Hstart, Hn. by rewrite decide_True.
  - intros Hn. rewrite Hstart, Hn.
    rewrite decide_False by (intros H; by apply H).
    destruct (check_order_spec m (getparams m r.1)
                (zip l0 (getparams m r.1)) 0
                (logged [EGetParams m]
                   (Module_ r.1 (attrs st)
                      ((history st ++ [EGetParams m])
                       ++ [ESetParams m (Some <$> l0)]))))
      as (st' & out & -> & Hnone & _ & Hsome & _).
    exists out. split_and!; [done| |].
    + rewrite Hnone. split.
      * intros H i p0 p1 H0 H1. apply (H i).
        apply lookup_zip_with_Some. by exists p0, p1.
      * intros H k p0 p1 Hk.
        apply lookup_zip_with_Some in Hk as (x & y & [= -> ->] & Hx & Hy).
        by apply (H k).
    + intros i. rewrite Hsome. split.
      * intros (k & p0 & p1 & -> & Hk & Hne & Hmin).
        apply lookup_zip_with_Some in Hk as (x & y & [= -> ->] & Hx & Hy).
        exists x, y. split_and!; [done..|].
        intros i' q0 q1 Hlt H0 H1. apply (Hmin i'); [done|].
        apply lookup_zip_with_Some. by exists q0, q1.
      * intros (p0 & p1 & H0 & H1 & Hne & Hmin).
        exists i, p0, p1. split_and!; [done| |done|].
        -- apply lookup_zip_with_Some. by exists p0, p1.
        -- intros k' q0 q1 Hlt Hk.
           apply lookup_zip_with_Some in Hk as (x & y & [= -> ->] & Hx & Hy).
           by apply (Hmin k').
Qed.

End CheckFacts.

Lemma X8_match_check_accepts_conforming_witness :
  ∃ st',
    assert_match_getsetparams ex_getparams ex_setparams "forward" ex_module
    = (st', Ok None) ∧
    ex_getparams "forward" (user st')
    = ex_getparams "forward" (user ex_module) ∧
    history st'
    = history ex_module
      ++ [EGetParams "forward";
          ESetParams "forward"
            (Some <$> ex_getparams "forward" (user ex_module));
          EGetParams "forward"].
Proof.
  apply (X8_match_check_accepts_conforming ex_getparams ex_setparams
           "forward" ex_module).
  apply ex_conforming.
Defined.

Section DeclaredFacts.

Context {Obj : Type}.
Variable getparams : string → Obj → list nat.
Variable setparams : string → list (option nat) → Obj → Obj * result nat.
Variable is_float_tensor : nat → bool.
Local Abbreviation module := (@module Obj).

Lemma get_error_message_run (m : string) (params : list nat) (i : nat)
    (st : module) :
  get_error_message_ith_params setparams m params i st
  = (Module_ (setparams m (Some <$> take i params) (user st)).1 (attrs st)
       (history st ++ [ESetParams m (Some <$> take i params)]),
     Ok tt).
Proof.
  unfold get_error_message_ith_params. rewrite mbind_run. unfold attempt.
  by rewrite call_setparams_spec.
Qed.

(** The loop of lines 177-182 stops at the first declared parameter
    that is no float tensor. *)
Lemma check_float_first (m : string) (user_params : list nat) :
  ∀ (rest : list nat) (i0 k : nat) (p : nat) (st : module),
  rest !! k = Some p → is_float_tensor p = false →
  (∀ k' q, k' < k → rest !! k' = Some q → is_float_tensor q = true) →
  check_float setparams is_float_tensor m user_params i0 rest st
  = (Module_ (setparams m (Some <$> take (i0 + k) user_params) (user st)).1
       (attrs st)
       (history st ++ [ESetParams m (Some <$> take (i0 + k) user_params)]),
     Raise (GetSetParamsError (NonFloatParam (i0 + k)))).
Proof.
  induction rest as [|q rest IH]; intros i0 k p st Hk Hp Hbefore; [done|].
  destruct k as [|k]; simpl in Hk |- *.
  - injection Hk as ->. rewrite Hp, Nat.add_0_r.
    by rewrite mbind_run, get_error_message_run.
  - rewrite (Hbefore 0 q) by (done || lia).
    rewrite (IH (S i0) k p st Hk Hp).
    + by replace (S i0 + k) with (i0 + S k) by lia.
    + intros k' q' Hlt Hq'. apply (Hbefore (S k')); [lia|done].
Qed.

(** The loop of lines 198-208 stops at the first declared parameter
    without a gradient that is not among the tensors of the object. *)
Lemma check_excess_first (m : string) (all oper : list (nat * string))
    (user_params : list nat) :
  ∀ (rest : list nat) (i0 k : nat) (p : nat) (acc : list string)
    (st : module),
  rest !! k = Some p → p ∉ oper.*1 → p ∉ all.*1 →
  (∀ k' q, k' < k → rest !! k' = Some q → q ∈ oper.*1 ∨ q ∈ all.*1) →
  check_excess setparams m all oper user_params i0 rest acc st
  = (Module_ (setparams m (Some <$> take (i0 + k) user_params) (user st)).1
       (attrs st)
       (history st ++ [ESetParams m (Some <$> take (i0 + k) user_params)]),
     Raise (GetSetParamsError (NotAMember (i0 + k)))).
Proof.
  induction rest as [|q rest IH]; intros i0 k p acc st Hk Ho Ha Hbefore;
    [done|].
  destruct k as [|k]; simpl in Hk |- *.
  - injection Hk as ->. rewrite decide_False by done.
    rewrite (_get_tensor_name_None all p Ha), Nat.add_0_r.
    by rewrite mbind_run, get_error_message_run.
  - assert (∀ k' q', k' < k → rest !! k' = Some q' →
                     q' ∈ oper.*1 ∨ q' ∈ all.*1) as Hbefore'.
    { intros k' q' Hlt Hq'. apply (Hbefore (S k')); [lia|done]. }
    replace (i0 + S k) with (S i0 + k) by lia.
    destruct (decide (q ∈ oper.*1)) as [Hin|Hnin]; [by apply (IH _ _ p)|].
    destruct (Hbefore 0 q) as [?|Hq]; [lia|done|done|].
    destruct (_get_tensor_name_Some all q Hq) as (name & -> & _).
    by apply (IH _ _ p).
Qed.

(** X11.  When the declared parameters are float tensors, a declared
    parameter that got no gradient and is not among the tensors of the
    object makes the third check raise the error of its position [i],
    the first such position, whatever excess parameters there are: the
    error of excess parameters is not raised.  The call of [setparams]
    with the first [i] declared parameters is the last thing that
    happens to the object. *)
Theorem X11_non_member_before_excess (m : string) (all : list (nat * string))
    (grad_tensors : list bool) (st : module) (i p : nat) :
  (∀ q, q ∈ getparams m (user st) → is_float_tensor q = true) →
  getparams m (user st) !! i = Some p →
  p ∉ (operating all grad_tensors).*1 →
  p ∉ all.*1 →
  (∀ i' q, i' < i → getparams m (user st) !! i' = Some q →
           q ∈ (operating all grad_tensors).*1 ∨ q ∈ all.*1) →
  (assert_get_correct_params getparams setparams is_float_tensor m all
     grad_tensors st).2
  = Raise (GetSetParamsError (NotAMember i)) ∧
  last (history (assert_get_correct_params getparams setparams
                   is_float_tensor m all grad_tensors st).1)
  = Some (ESetParams m (Some <$> take i (getparams m (user st)))).
Proof.
  intros Hfloat Hi Ho Ha Hbefore. unfold assert_get_correct_params.
  rewrite mbind_run, call_getparams_spec, mbind_run.
  rewrite (check_float_pass setparams is_float_tensor m) by done.
  unfold check_missing_excess. rewrite !mbind_run.
  cbn [user logged].
  destruct ((if decide (0 < length (missing (operating all grad_tensors)
                                      (getparams m (user st))))
             then log (EWarn (missing (operating all grad_tensors)
                                (getparams m (user st))))
             else mret ()) (logged [EGetParams m] st))
    as [st1 r1] eqn:Hw.
  assert (r1 = Ok tt ∧ user st1 = user st) as [-> Hu].
  { destruct (decide _) in Hw; injection Hw as <- <-; done. }
  rewrite mbind_run.
  rewrite (check_excess_first m all _ _ _ 0 i p [] st1 Hi Ho Ha Hbefore).
  simpl. split; [done|]. by rewrite last_snoc.
Qed.

End DeclaredFacts.

(** X10.  Line 163 has collected the float tensors [all] of the object
    and the probe of line 171 has returned one gradient or [None] for
    each.  The third check then rejects a declared parameter that is no
    float tensor: at the first such position [i] it raises the error of
    that position.  Before it raises it calls [setparams] with the first
    [i] declared parameters, for the text of the message, and whatever
    that call does to the object stays; no warning has been given. *)
Theorem X10_non_float_param_rejected {Obj : Type}
    (getparams : string → Obj → list nat)
    (setparams : string → list (option nat) → Obj → Obj * result nat)
    (h : heap) (self : nat) (m : string) (all : list (nat * string))
    (grad_tensors : list bool) (st : @module Obj) (i p : nat) :
  _get_tensors h self "self" 20 = Ok (all.*1, all.*2) →
  length grad_tensors = length all →
  getparams m (user st) !! i = Some p →
  is_float h p = false →
  (∀ i' q, i' < i → getparams m (user st) !! i' = Some q →
           is_float h q = true) →
  assert_get_correct_params getparams setparams (is_float h) m all
    grad_tensors st
  = (Module_
       (setparams m (Some <$> take i (getparams m (user st))) (user st)).1
       (attrs st)
       (history st
        ++ [EGetParams m;
            ESetParams m (Some <$> take i (getparams m (user st)))]),
     Raise (GetSetParamsError (NonFloatParam i))).
Proof.
  intros _ _ Hi Hp Hbefore. unfold assert_get_correct_params.
  rewrite mbind_run, call_getparams_spec, mbind_run.
  rewrite (check_float_first setparams (is_float h) m _ _ 0 i p _ Hi Hp
             Hbefore).
  simpl. by rewrite <-app_assoc.
Qed.

Lemma X10_non_float_param_rejected_witness :
  assert_get_correct_params ex_getparams ex_setparams (is_float number_heap)
    "forward" [(1, "self.w"); (3, "self.c")] [true; false] ex_module
  = (Module_
       (ex_setparams "forward"
          (Some <$> take 1 (ex_getparams "forward" (user ex_module)))
          (user ex_module)).1
       (attrs ex_module)
       (history ex_module
        ++ [EGetParams "forward";
            ESetParams "forward"
              (Some <$> take 1 (ex_getparams "forward" (user ex_module)))]),
     Raise (GetSetParamsError (NonFloatParam 1))).
Proof.
  apply (X10_non_float_param_rejected ex_getparams ex_setparams number_heap 0
           "forward" [(1, "self.w"); (3, "self.c")] [true; false] ex_module
           1 2).
  - by vm_compute.
  - reflexivity.
  - reflexivity.
  - reflexivity.
  - intros i' q Hlt Hq. destruct i' as [|i']; [|lia].
    injection Hq as <-. reflexivity.
Defined.

Lemma X11_non_member_before_excess_witness :
  (assert_get_correct_params ex_getparams ex_setparams (λ _, true) "forward"
     [(1, "self.w"); (3, "self.c")] [true; false] ex_module).2
  = Raise (GetSetParamsError (NotAMember 1)) ∧
  last (history (assert_get_correct_params ex_getparams ex_setparams
                   (λ _, true) "forward" [(1, "self.w"); (3, "self.c")]
                   [true; false] ex_module).1)
  = Some (ESetParams "forward"
            (Some <$> take 1 (ex_getparams "forward" (user ex_module)))).
Proof.
  apply (X11_non_member_before_excess ex_getparams ex_setparams (λ _, true)
           "forward" [(1, "self.w"); (3, "self.c")] [true; false] ex_module
           1 2).
  - intros q _. reflexivity.
  - reflexivity.
  - compute_done.
  - compute_done.
  - intros i' q Hlt Hq. destruct i' as [|i']; [|lia].
    injection Hq as <-. left. compute_done.
Defined.

(** ** More on [_set_tensors] and [_get_tensors] *)

Lemma install_ext h h' e sl : ∀ ids ps,
  (∀ x, is_float h' x = is_float h x) →
  (∀ x, traversable h' x = traversable h x) →
  install h' e sl ids ps = install h e sl ids ps.
Proof.
  induction sl as [|[k x] sl IH]; intros ids ps Hf Ht; [done|].
  rewrite !install_cons, Hf, Ht.
  destruct (decide (x ∈ ids)); [by rewrite IH|].
  destruct (is_float h x).
  { destruct ps as [|p ps]; [done|]. by rewrite IH. }
  destruct (traversable h x); [done|]. by rewrite IH.
Qed.

Lemma tensors_of_ext h h' sl :
  (∀ x, is_float h' x = is_float h x) → tensors_of h' sl = tensors_of h sl.
Proof.
  intros Hf. induction sl as [|[k x] sl IH]; [done|].
  by rewrite !tensors_of_cons, Hf, IH.
Qed.

Lemma install_keys h e sl : ∀ ids ps,
  (install h e sl ids ps).1.1.1.*1 = sl.*1.
Proof.
  induction sl as [|[k x] sl IH]; intros ids ps; [done|].
  rewrite install_cons.
  destruct (decide (x ∈ ids)); [cbn; by rewrite IH|].
  destruct (is_float h x).
  { destruct ps as [|p ps']; [done|]. cbn. by rewrite IH. }
  destruct (traversable h x); [done|]. cbn. by rewrite IH.
Qed.

(** A slot is written only when it holds a float tensor, and only with
    a tensor of the list. *)
Lemma install_slot h e sl : ∀ ids ps i k y,
  (install h e sl ids ps).1.1.1 !! i = Some (k, y) →
  ∃ x, sl !! i = Some (k, x) ∧
       (y = x ∨ is_float h x = true ∧ y ∈ ps).
Proof.
  induction sl as [|[k0 x0] sl IH]; intros ids ps i k y; [done|].
  rewrite install_cons.
  assert (∀ ids' ps' v,
            (ps' = ps ∨ ∃ p, ps = p :: ps') →
            (v = x0 ∨ is_float h x0 = true ∧ v ∈ ps) →
            ((k0, v) :: (install h e sl ids' ps').1.1.1) !! i = Some (k, y) →
            ∃ x, ((k0, x0) :: sl) !! i = Some (k, x) ∧
                 (y = x ∨ is_float h x = true ∧ y ∈ ps)) as Hrec.
  { intros ids' ps' v Hps Hv Hi. destruct i as [|i]; simpl in Hi |- *.
    - injection Hi as <- <-. by exists x0.
    - destruct (IH ids' ps' i k y Hi) as (x & Hx & Hy).
      exists x. split; [done|]. destruct Hy as [Hy|[Hf Hy]]; [by left|].
      right. split; [done|]. destruct Hps as [->|[p ->]]; [done|by right]. }
  destruct (decide (x0 ∈ ids)).
  { apply Hrec; [by left|by left]. }
  destruct (is_float h x0) eqn:Hf.
  { destruct ps as [|p ps'].
    - cbn [fst]. intros Hi. exists y. by split; [|left].
    - apply Hrec; [right; by exists p|]. right. split; [done|by left]. }
  destruct (traversable h x0).
  { cbn [fst]. intros Hi. exists y. by split; [|left]. }
  apply Hrec; [by left|by left].
Qed.

(** How far the installation gets: with [N] tensor slots it takes the
    first [N] tensors of the list, or all of them and fails when there
    are fewer. *)
Lemma install_take h e sl : ∀ ids ps,
  flat h sl → NoDup (tensors_of h sl) →
  (∀ x, x ∈ tensors_of h sl → x ∉ ids) →
  (∀ p, p ∈ ps → is_float h p = true) →
  (install h e sl ids ps).2
  = (if decide (length (tensors_of h sl) ≤ length ps)
     then Ok tt else Raise IndexError) ∧
  (install h e sl ids ps).1.2 = drop (length (tensors_of h sl)) ps ∧
  tensors_of h (install h e sl ids ps).1.1.1
  = take (length (tensors_of h sl)) ps
    ++ drop (length ps) (tensors_of h sl).
Proof.
  induction sl as [|[k x] sl IH]; intros ids ps Hfl Hnd Hdis Hps.
  { cbn. split_and!; [done|by rewrite drop_0|]. by rewrite drop_nil. }
  apply flat_cons in Hfl as [Hx Hfl].
  rewrite tensors_of_cons in Hnd, Hdis |- *. rewrite install_cons.
  destruct (is_float h x) eqn:Hf.
  - apply NoDup_cons in Hnd as [Hxs Hnd].
    rewrite decide_False by (apply Hdis; by left).
    destruct ps as [|p ps']; cbn [fst snd length].
    { split_and!; [done|done|]. by rewrite tensors_of_cons, Hf. }
    destruct (IH (ids ++ [x]) ps') as (H1 & H2 & H3); [done|done| | |].
    + intros y Hy [Hin| ->%list_elem_of_singleton]%elem_of_app; [|done].
      revert Hin. apply Hdis. by right.
    + intros q Hq. apply Hps. by right.
    + assert (is_float h p = true) as Hp by (apply Hps; by left).
      split_and!.
      * rewrite H1. destruct (decide _), (decide _); done || lia.
      * done.
      * by rewrite tensors_of_cons, Hp, H3.
  - assert (∀ ids',
              (∀ y, y ∈ tensors_of h sl → y ∉ ids') →
              (install h e sl ids' ps).2
              = (if decide (length (tensors_of h sl) ≤ length ps)
                 then Ok tt else Raise IndexError) ∧
              (install h e sl ids' ps).1.2
              = drop (length (tensors_of h sl)) ps ∧
              tensors_of h ((k, x) :: (install h e sl ids' ps).1.1.1)
              = take (length (tensors_of h sl)) ps
                ++ drop (length ps) (tensors_of h sl)) as Hskip.
    { intros ids' Hdis'.
      destruct (IH ids' ps) as (H1 & H2 & H3); [done..|].
      split_and!; [done|done|]. by rewrite tensors_of_cons, Hf. }
    destruct (decide (x ∈ ids)); [by apply Hskip|].
    destruct Hx as [Hx|Hx]; [congruence|]. rewrite Hx. cbn [fst snd].
    apply Hskip.
    intros y Hy [Hin| ->%list_elem_of_singleton]%elem_of_app.
    + revert Hin. by apply Hdis.
    + unfold tensors_of in Hy. apply list_elem_of_filter in Hy as [Hy _].
      by rewrite Hf in Hy.
Qed.

(** Installing the tensors that were there, after others have been
    installed, gives the slots back. *)
Lemma install_restore h e e' sl : ∀ ids1 ids2 ps,
  flat h sl → NoDup (tensors_of h sl) →
  (∀ x, x ∈ tensors_of h sl → x ∉ ids1) →
  length ps = length (tensors_of h sl) →
  NoDup ps → (∀ p, p ∈ ps → is_float h p = true) →
  (∀ p, p ∈ ps → p ∉ ids2) →
  (install h e' (install h e sl ids1 ps).1.1.1 ids2 (tensors_of h sl)).1.1.1
  = sl.
Proof.
  induction sl as [|[k x] sl IH];
    intros ids1 ids2 ps Hfl Hnd Hdis Hlen Hnd' Hps Hdis'; [done|].
  apply flat_cons in Hfl as [Hx Hfl].
  rewrite tensors_of_cons in Hnd, Hdis, Hlen |- *.
  rewrite (install_cons h e).
  assert (∀ ids, (∀ p, p ∈ ps → p ∉ ids) → is_float h x = false →
                 (∀ p, p ∈ ps → p ∉ ids ++ [x])) as Hatom.
  { intros ids Hids Hf p Hp [Hin| ->%list_elem_of_singleton]%elem_of_app.
    - by apply (Hids p).
    - rewrite (Hps _ Hp) in Hf. done. }
  destruct (is_float h x) eqn:Hf.
  - apply NoDup_cons in Hnd as [Hxs Hnd].
    rewrite decide_False by (apply Hdis; by left).
    destruct ps as [|p ps']; [done|]. cbn [fst snd].
    apply NoDup_cons in Hnd' as [Hp' Hnd'].
    rewrite install_cons.
    rewrite decide_False by (apply Hdis'; by left).
    rewrite (Hps p) by by left. cbn [fst]. f_equal.
    apply IH; [done|done| | |done| |].
    + intros y Hy [Hin| ->%list_elem_of_singleton]%elem_of_app; [|done].
      revert Hin. apply Hdis. by right.
    + simpl in Hlen. lia.
    + intros q Hq. apply Hps. by right.
    + intros q Hq [Hin| ->%list_elem_of_singleton]%elem_of_app; [|done].
      revert Hin. apply Hdis'. by right.
  - assert (traversable h x = false) as Ht by (destruct Hx; congruence).
    assert (∀ ids1',
              (∀ y, y ∈ tensors_of h sl → y ∉ ids1') →
              (install h e' ((k, x) :: (install h e sl ids1' ps).1.1.1) ids2
                 (tensors_of h sl)).1.1.1 = (k, x) :: sl) as Hskip.
    { intros ids1' Hd1. rewrite install_cons, Hf, Ht.
      destruct (decide (x ∈ ids2)); cbn [fst]; f_equal.
      - by apply IH.
      - apply IH; try done. by apply Hatom. }
    destruct (decide (x ∈ ids1)); [by apply Hskip|].
    rewrite Ht. cbn [fst]. apply Hskip.
    intros y Hy [Hin| ->%list_elem_of_singleton]%elem_of_app.
    + revert Hin. by apply Hdis.
    + unfold tensors_of in Hy. apply list_elem_of_filter in Hy as [Hy _].
      by rewrite Hf in Hy.
Qed.

(** What the loop of [_get_tensors] collects: float tensors of the
    slots, under the names of their slots. *)
Lemma collect_sound h e prefix sl : ∀ ids res names n x name,
  length res = length names →
  (collect h e prefix sl ids res names).1.2.1 !! n = Some x →
  (collect h e prefix sl ids res names).1.2.2 !! n = Some name →
  (res !! n = Some x ∧ names !! n = Some name) ∨
  (is_float h x = true ∧ ∃ k, (k, x) ∈ sl ∧ name = name_format prefix k).
Proof.
  induction sl as [|[k0 x0] sl IH]; intros ids res names n x name Hlen;
    cbn [collect]; [by left|].
  assert (∀ ids', (collect h e prefix sl ids' res names).1.2.1 !! n = Some x →
                  (collect h e prefix sl ids' res names).1.2.2 !! n
                  = Some name →
                  (res !! n = Some x ∧ names !! n = Some name) ∨
                  (is_float h x = true ∧
                   ∃ k, (k, x) ∈ (k0, x0) :: sl ∧ name = name_format prefix k))
    as Hskip.
  { intros ids' H1 H2. destruct (IH ids' res names n x name Hlen H1 H2)
      as [?|(Hf & k & Hk & ->)]; [by left|].
    right. split; [done|]. exists k. split; [by right|done]. }
  destruct (decide (x0 ∈ ids)); [apply Hskip|].
  destruct (is_float h x0) eqn:Hf.
  { intros H1 H2.
    destruct (IH (ids ++ [x0]) (res ++ [x0])
                (names ++ [name_format prefix k0]) n x name)
      as [[Hr Hn]|(Hf' & k & Hk & ->)];
      [by rewrite !length_app, Hlen|done|done| |].
    - destruct (decide (n < length res)) as [Hlt|Hge].
      + left. rewrite lookup_app_l in Hr by done.
        by rewrite lookup_app_l in Hn by lia.
      + right. rewrite lookup_app_r in Hr by lia.
        rewrite lookup_app_r in Hn by lia. rewrite <-Hlen in Hn.
        apply list_lookup_singleton_Some in Hr as [_ <-].
        apply list_lookup_singleton_Some in Hn as [_ <-].
        split; [done|]. exists k0. split; [by left|done].
    - right. split; [done|]. exists k. split; [by right|done]. }
  destruct (traversable h x0); [by left|]. apply Hskip.
Qed.

(** When the loop returns, every float tensor of the slots has been
    collected. *)
Lemma collect_complete h e prefix sl : ∀ ids res names k x,
  (∀ y, y ∈ ids → is_float h y = true → y ∈ res) →
  (collect h e prefix sl ids res names).2 = Ok tt →
  (k, x) ∈ sl → is_float h x = true →
  x ∈ (collect h e prefix sl ids res names).1.2.1.
Proof.
  induction sl as [|[k0 x0] sl IH]; intros ids res names k x Hids Hok Hin Hf.
  { by apply elem_of_nil in Hin. }
  cbn [collect] in Hok |- *.
  assert (∀ ids' res' names',
            res' = res ∨ res' = res ++ [x0] →
            (x0 ∈ ids' ∧ (is_float h x0 = true → x0 ∈ res')) →
            (∀ y, y ∈ ids' → is_float h y = true → y ∈ res') →
            (collect h e prefix sl ids' res' names').2 = Ok tt →
            x ∈ (collect h e prefix sl ids' res' names').1.2.1) as Hrec.
  { intros ids' res' names' Hres [Hx0 Hx0'] Hids' Hok'.
    apply elem_of_cons in Hin as [Heq|Hin].
    - injection Heq as -> ->.
      destruct (collect_prefix h e prefix sl ids' res' names')
        as (m & mn & -> & _).
      cbn [fst]. apply elem_of_app. left. by apply Hx0'.
    - by apply (IH ids' res' names' k x). }
  destruct (decide (x0 ∈ ids)) as [Hx0|Hx0].
  { apply Hrec; [by left| |done|done]. split; [done|]. by apply Hids. }
  assert (x0 ∈ ids ++ [x0]) as Hx0' by (apply elem_of_app; right; by left).
  destruct (is_float h x0) eqn:Hf0.
  { apply Hrec; [by right| | |done].
    - split; [done|]. intros _. apply elem_of_app. right. by left.
    - intros y [Hy| ->%list_elem_of_singleton]%elem_of_app Hfy;
        apply elem_of_app; [left; by apply Hids|right; by left]. }
  destruct (traversable h x0); [done|].
  apply Hrec; [by left| | |done].
  - split; [done|]. congruence.
  - intros y [Hy| ->%list_elem_of_singleton]%elem_of_app Hfy;
      [by apply Hids|congruence].
Qed.

(** X12.  On an object whose slots hold float tensors, each in one slot,
    and values without attributes and iteration, [_set_tensors] takes
    from the front of the list one float tensor for each tensor slot and
    removes it from the list of the caller: what is left in the list
    are the tensors it did not need.  With fewer tensors than tensor
    slots it raises [IndexError] after it has written all it was given:
    the first slots hold the new tensors, the others their old ones. *)
Theorem X12_set_tensors_consumes_list (h : heap) (obj : nat)
    (all_params : list nat) (max_depth : nat) :
  traversable h obj = true →
  NoDup (slots (shape_of h obj)).*1 →
  flat h (slots (shape_of h obj)) →
  NoDup (tensors_of h (slots (shape_of h obj))) →
  (∀ p, p ∈ all_params → is_float h p = true) →
  ∃ h',
    _set_tensors h obj all_params max_depth
    = (h',
       drop (length (tensors_of h (slots (shape_of h obj)))) all_params,
       if decide (length (tensors_of h (slots (shape_of h obj)))
                  ≤ length all_params)
       then Ok tt else Raise IndexError) ∧
    tensors_of h' (slots (shape_of h' obj))
    = take (length (tensors_of h (slots (shape_of h obj)))) all_params
      ++ drop (length all_params) (tensors_of h (slots (shape_of h obj))).
Proof.
  intros Ht Hkeys Hfl Hnd Hps.
  destruct (_set_tensors_install h obj all_params max_depth Ht Hkeys)
    as (h' & Hset & Hat).
  destruct (install_take h (depth_error max_depth) _ [] all_params Hfl Hnd)
    as (Hok & Hrest & Htens); [intros x _ Hx; by apply elem_of_nil in Hx|done|].
  exists h'. rewrite Hset, Hok, Hrest. split; [done|].
  rewrite (at_slots _ _ _ _ Hat).
  by rewrite (tensors_of_ext h h') by apply Hat.
Qed.

Lemma X12_set_tensors_consumes_list_witness :
  ∃ h',
    _set_tensors flat_heap 0 [10] 20
    = (h',
       drop (length (tensors_of flat_heap (slots (shape_of flat_heap 0))))
         [10],
       if decide (length (tensors_of flat_heap (slots (shape_of flat_heap 0)))
                  ≤ length [10])
       then Ok tt else Raise IndexError) ∧
    tensors_of h' (slots (shape_of h' 0))
    = take (length (tensors_of flat_heap (slots (shape_of flat_heap 0)))) [10]
      ++ drop (length [10])
           (tensors_of flat_heap (slots (shape_of flat_heap 0))).
Proof.
  apply (X12_set_tensors_consumes_list flat_heap 0 [10] 20).
  - reflexivity.
  - compute_done.
  - apply flat_Forall. compute_done.
  - compute_done.
  - apply Forall_forall. compute_done.
Defined.

(** X13.  Whatever its outcome, [_set_tensors] changes nothing but
    slots of the object it is called on that held a float tensor: every
    other object of the store is as before, the object has the same
    keys in the same order, a slot that held something else holds it
    still, and a slot that changed holds a tensor of the list. *)
Theorem X13_set_tensors_frame (h : heap) (obj : nat) (all_params : list nat)
    (max_depth : nat) :
  NoDup (slots (shape_of h obj)).*1 →
  (∀ x, x ≠ obj →
        (_set_tensors h obj all_params max_depth).1.1 !! x = h !! x) ∧
  (slots (shape_of (_set_tensors h obj all_params max_depth).1.1 obj)).*1
  = (slots (shape_of h obj)).*1 ∧
  (∀ x, is_float (_set_tensors h obj all_params max_depth).1.1 x
        = is_float h x) ∧
  (∀ i k y,
     slots (shape_of (_set_tensors h obj all_params max_depth).1.1 obj) !! i
     = Some (k, y) →
     ∃ x, slots (shape_of h obj) !! i = Some (k, x) ∧
          (y = x ∨ is_float h x = true ∧ y ∈ all_params)).
Proof.
  intros Hkeys. destruct (traversable h obj) eqn:Ht.
  - destruct (_set_tensors_install h obj all_params max_depth Ht Hkeys)
      as (h' & -> & Hat).
    cbn [fst]. rewrite (at_slots _ _ _ _ Hat).
    split_and!; [apply Hat|apply install_keys|apply Hat|apply install_slot].
  - rewrite _set_tensors_Plain by done. cbn [fst].
    split_and!; [done|done|done|]. intros i k y Hi. exists y. by split; [|left].
Qed.

Lemma X13_set_tensors_frame_witness :
  (∀ x, x ≠ 0 → (_set_tensors shared_heap 0 [10] 20).1.1 !! x
                = shared_heap !! x) ∧
  (slots (shape_of (_set_tensors shared_heap 0 [10] 20).1.1 0)).*1
  = (slots (shape_of shared_heap 0)).*1 ∧
  (∀ x, is_float (_set_tensors shared_heap 0 [10] 20).1.1 x
        = is_float shared_heap x) ∧
  (∀ i k y,
     slots (shape_of (_set_tensors shared_heap 0 [10] 20).1.1 0) !! i
     = Some (k, y) →
     ∃ x, slots (shape_of shared_heap 0) !! i = Some (k, x) ∧
          (y = x ∨ is_float shared_heap x = true ∧ y ∈ [10])).
Proof.
  apply (X13_set_tensors_frame shared_heap 0 [10] 20). compute_done.
Defined.

(** X14.  The two installations of [__list_operating_params]: after
    [_set_tensors] has put copies in the place of the tensors of an
    object, a second [_set_tensors] with the list of the original
    tensors returns and puts every one of them back into its slot; no
    other object of the store has changed. *)
Theorem X14_set_tensors_then_restore (h : heap) (obj : nat)
    (copy_tensors : list nat) (max_depth : nat) :
  traversable h obj = true →
  NoDup (slots (shape_of h obj)).*1 →
  flat h (slots (shape_of h obj)) →
  NoDup (tensors_of h (slots (shape_of h obj))) →
  length copy_tensors = length (tensors_of h (slots (shape_of h obj))) →
  NoDup copy_tensors →
  (∀ p, p ∈ copy_tensors → is_float h p = true) →
  ∃ h1 h2,
    _set_tensors h obj copy_tensors max_depth = (h1, [], Ok tt) ∧
    _set_tensors h1 obj (tensors_of h (slots (shape_of h obj))) max_depth
    = (h2, [], Ok tt) ∧
    slots (shape_of h2 obj) = slots (shape_of h obj) ∧
    (∀ x, x ≠ obj → h2 !! x = h !! x).
Proof.
  intros Ht Hkeys Hfl Hnd Hlen Hps Hfloat.
  set (sl := slots (shape_of h obj)) in *.
  set (e := depth_error max_depth).
  destruct (_set_tensors_install h obj copy_tensors max_depth Ht Hkeys)
    as (h1 & Hset1 & Hat1).
  fold sl e in Hset1, Hat1.
  destruct (install_distinct h e sl [] copy_tensors Hfl Hnd)
    as (Hok & Hrest & Htens & Hfl1);
    [intros x _ Hx; by apply elem_of_nil in Hx|done|done|].
  rewrite Hok, Hrest in Hset1.
  set (sl1 := (install h e sl [] copy_tensors).1.1.1) in *.
  assert (traversable h1 obj = true) as Ht1
    by (by rewrite (at_traversable _ _ _ _ Hat1)).
  assert (NoDup (slots (shape_of h1 obj)).*1) as Hkeys1.
  { rewrite (at_slots _ _ _ _ Hat1). unfold sl1. by rewrite install_keys. }
  destruct (_set_tensors_install h1 obj (tensors_of h sl) max_depth Ht1 Hkeys1)
    as (h2 & Hset2 & Hat2).
  rewrite (at_slots _ _ _ _ Hat1) in Hset2, Hat2. fold e in Hset2, Hat2.
  rewrite (install_ext h h1) in Hset2, Hat2 by apply Hat1.
  destruct (install_distinct h e sl1 [] (tensors_of h sl))
    as (Hok2 & Hrest2 & _ & _);
    [done|by rewrite Htens|intros x _ Hx; by apply elem_of_nil in Hx
    |by rewrite Htens| |].
  { intros p Hp. unfold tensors_of in Hp.
    by apply list_elem_of_filter in Hp as [Hp _]. }
  rewrite Hok2, Hrest2 in Hset2.
  exists h1, h2. split_and!; [done|done| |].
  - rewrite (at_slots _ _ _ _ Hat2). unfold sl1.
    apply install_restore; try done.
    + intros x _ Hx. by apply elem_of_nil in Hx.
    + intros p _ Hp. by apply elem_of_nil in Hp.
  - intros x Hx. rewrite (at_frame _ _ _ _ Hat2) by done.
    by apply (at_frame _ _ _ _ Hat1).
Qed.

Lemma X14_set_tensors_then_restore_witness :
  ∃ h1 h2,
    _set_tensors flat_heap 0 [10; 11] 20 = (h1, [], Ok tt) ∧
    _set_tensors h1 0 (tensors_of flat_heap (slots (shape_of flat_heap 0))) 20
    = (h2, [], Ok tt) ∧
    slots (shape_of h2 0) = slots (shape_of flat_heap 0) ∧
    (∀ x, x ≠ 0 → h2 !! x = flat_heap !! x).
Proof.
  apply (X14_set_tensors_then_restore flat_heap 0 [10; 11] 20).
  - reflexivity.
  - compute_done.
  - apply flat_Forall. compute_done.
  - compute_done.
  - reflexivity.
  - compute_done.
  - apply Forall_forall. compute_done.
Defined.

(** X15.  [_get_tensors] reads only: whatever its outcome the store is
    as before.  When it returns, its two lists have the same length,
    the first holds exactly the float tensors of the slots of the
    object, each once, and the name at a position is the name of a slot
    that holds the tensor at that position: the prefix followed by the
    attribute or by the index. *)
Theorem X15_get_tensors_reads_slots (h : heap) (obj : nat) (prefix : string)
    (max_depth : nat) :
  objects (get_run h obj prefix max_depth).1 = h ∧
  ∀ res names,
    _get_tensors h obj prefix max_depth = Ok (res, names) →
    length names = length res ∧
    NoDup res ∧
    (∀ x, x ∈ res ↔
          is_float h x = true ∧ ∃ k, (k, x) ∈ slots (shape_of h obj)) ∧
    (∀ n x name,
       res !! n = Some x → names !! n = Some name →
       ∃ k, (k, x) ∈ slots (shape_of h obj) ∧ name = name_format prefix k).
Proof.
  destruct (traversable h obj) eqn:Ht.
  - rewrite get_run_collect, _get_tensors_collect by done.
    split; [done|]. intros res names Hok.
    set (sl := slots (shape_of h obj)) in *.
    set (e := depth_error max_depth) in *.
    destruct (collect_outcome h e prefix sl [] [] []) as [Hr|Hr];
      rewrite Hr in Hok; [|done].
    injection Hok as Hcap.
    destruct (collect_prefix h e prefix sl [] [] []) as (m & mn & Hpre & Hlen).
    rewrite Hcap in Hpre. injection Hpre as -> ->.
    pose proof (collect_NoDup h e prefix sl [] [] [] (NoDup_nil_2)
                  (λ x Hx, False_ind _ (not_elem_of_nil x Hx))) as Hnd.
    rewrite Hcap in Hnd. cbn [fst] in Hnd.
    assert (∀ n x name, m !! n = Some x → mn !! n = Some name →
              is_float h x = true ∧
              ∃ k, (k, x) ∈ sl ∧ name = name_format prefix k) as Hsound.
    { intros n x name Hx Hn.
      destruct (collect_sound h e prefix sl [] [] [] n x name eq_refl)
        as [[Hx' _]|H]; [by rewrite Hcap|by rewrite Hcap| |done].
      by rewrite lookup_nil in Hx'. }
    split_and!; [done|done| |].
    + intros x. split.
      * intros [n Hn]%list_elem_of_lookup.
        destruct (lookup_lt_is_Some_2 mn n) as [name Hname];
          [rewrite <-Hlen; by eapply lookup_lt_Some|].
        destruct (Hsound n x name Hn Hname) as (Hf & k & Hk & _).
        split; [done|by exists k].
      * intros (Hf & k & Hk).
        pose proof (collect_complete h e prefix sl [] [] [] k x
                      (λ y Hy, False_ind _ (not_elem_of_nil y Hy)) Hr Hk Hf)
          as Hin.
        by rewrite Hcap in Hin.
    + intros n x name Hx Hn. by destruct (Hsound n x name Hx Hn).
  - unfold _get_tensors. rewrite get_run_Plain by done. by split.
Qed.

(** ** [getmethodparams] and [setmethodparams] *)

Section MethodFacts.

Context {Obj : Type}.
Variable getparams : string → Obj → list nat.
Variable setparams : string → list (option nat) → Obj → Obj * result nat.
Local Abbreviation module := (@module Obj).

(** X16.  [setmethodparams(method, *getmethodparams(method))]: for a
    method of a module that keeps the contract it is [getparams]
    followed by [setparams]; it returns the number of parameters, the
    parameters are as before, and the cache of the unique parameters is
    neither read nor written.  For a method of another object it
    returns 0 and for a value that is no method it returns [None]; in
    both cases nothing is called. *)
Theorem X16_method_params_round_trip (method : pymethod) (st : module) :
  (∀ m, method = MethodOfModule m → conforming getparams setparams m) →
  ∃ st',
    (params ← getmethodparams getparams method;
     setmethodparams setparams method (Some <$> params)) st
    = (st', Ok (match method with
                | NotAMethod => None
                | MethodOfOther _ => Some 0
                | MethodOfModule m => Some (length (getparams m (user st)))
                end)) ∧
    attrs st' = attrs st ∧
    history st'
    = history st
      ++ match method with
         | MethodOfModule m =>
             [EGetParams m; ESetParams m (Some <$> getparams m (user st))]
         | _ => []
         end ∧
    (∀ m, method = MethodOfModule m →
          getparams m (user st') = getparams m (user st)) ∧
    ((∀ m, method ≠ MethodOfModule m) → user st' = user st).
Proof.
  intros Hconf. rewrite mbind_run.
  destruct method as [|m|m]; cbn [getmethodparams setmethodparams].
  - exists st. cbn. rewrite app_nil_r. split_and!; done.
  - exists st. cbn. rewrite app_nil_r. split_and!; done.
  - destruct (Hconf m eq_refl) as (slots & Hget & Hset).
    destruct (Hset (user st) _ (Hget (user st))) as (u' & Hs & Hg).
    rewrite call_getparams_spec, mbind_run, call_setparams_spec.
    cbn [user attrs history logged]. rewrite Hs. cbn [fst snd].
    eexists. split_and!; [done|done| | |].
    + cbn. by rewrite <-app_assoc.
    + intros m' [= <-]. done.
    + intros Hne. by destruct (Hne m).
Qed.

End MethodFacts.

Lemma X16_method_params_round_trip_witness :
  ∃ st',
    (params ← getmethodparams ex_getparams (MethodOfModule "forward");
     setmethodparams ex_setparams (MethodOfModule "forward") (Some <$> params))
      ex_module
    = (st', Ok (Some (length (ex_getparams "forward" (user ex_module))))) ∧
    attrs st' = attrs ex_module ∧
    history st'
    = history ex_module
      ++ [EGetParams "forward";
          ESetParams "forward"
            (Some <$> ex_getparams "forward" (user ex_module))] ∧
    (∀ m, MethodOfModule "forward" = MethodOfModule m →
          ex_getparams m (user st') = ex_getparams m (user ex_module)) ∧
    ((∀ m, MethodOfModule "forward" ≠ MethodOfModule m) →
     user st' = user ex_module).
Proof.
  apply (X16_method_params_round_trip ex_getparams ex_setparams
           (MethodOfModule "forward") ex_module).
  intros m _. apply ex_conforming.
Defined.

(** ** One tensor in two slots of a flat object *)

(** X17.  On an object whose slots hold no container, a float tensor
    [t] that sits in two slots [i < j], [i] being the first slot that
    holds it, is visited at slot [i] only: [_get_tensors] returns and
    has [t] in its list once, at a position [n], under the name of slot
    [i]; [_set_tensors] leaves [t] in slot [j], and given at least as
    many tensors as [_get_tensors] collects it returns and has put the
    [n]-th of them into slot [i]. *)
Theorem X17_alias_visited_at_first_slot (h : heap) (obj : nat)
    (prefix : string) (max_depth : nat) (all_params : list nat)
    (i j : nat) (ki kj : key) (t : nat) :
  NoDup (slots (shape_of h obj)).*1 →
  flat h (slots (shape_of h obj)) →
  slots (shape_of h obj) !! i = Some (ki, t) →
  slots (shape_of h obj) !! j = Some (kj, t) →
  i < j →
  (∀ i' k', i' < i → slots (shape_of h obj) !! i' ≠ Some (k', t)) →
  is_float h t = true →
  ∃ res names n,
    _get_tensors h obj prefix max_depth = Ok (res, names) ∧
    res !! n = Some t ∧
    names !! n = Some (name_format prefix ki) ∧
    (∀ n', res !! n' = Some t → n' = n) ∧
    slots (shape_of (_set_tensors h obj all_params max_depth).1.1 obj) !! j
    = Some (kj, t) ∧
    (length res ≤ length all_params →
     ∃ p, (_set_tensors h obj all_params max_depth).2 = Ok tt ∧
          all_params !! n = Some p ∧
          slots (shape_of (_set_tensors h obj all_params max_depth).1.1 obj)
            !! i = Some (ki, p)).
Proof.
  intros Hkeys Hfl Hi Hj Hij Hfirst Hf.
  destruct (alias_first_slot h obj prefix max_depth all_params i j ki kj t
              Hkeys Hi Hj Hij Hfirst Hf) as (_ & Hkeep & Hret & Hwhen).
  destruct (Hret Hfl) as [[res names] Hget].
  destruct (Hwhen res names Hget) as (n & Hres & Hname & Huniq & Hok & Hput).
  exists res, names, n. split_and!; [done..|].
  intros Hlen. destruct (Hput (Hok Hlen)) as (p & Hp & Hslot).
  exists p. split_and!; [by apply Hok|done|done].
Qed.

Lemma X17_alias_visited_at_first_slot_witness :
  ∃ res names n,
    _get_tensors shared_heap 0 "self" 20 = Ok (res, names) ∧
    res !! n = Some 1 ∧
    names !! n = Some (name_format "self" (KAttr "x")) ∧
    (∀ n', res !! n' = Some 1 → n' = n) ∧
    slots (shape_of (_set_tensors shared_heap 0 [10] 20).1.1 0) !! 2
    = Some (KAttr "y", 1) ∧
    (length res ≤ length [10] →
     ∃ p, (_set_tensors shared_heap 0 [10] 20).2 = Ok tt ∧
          [10] !! n = Some p ∧
          slots (shape_of (_set_tensors shared_heap 0 [10] 20).1.1 0)
            !! 0 = Some (KAttr "x", p)).
Proof.
  apply (X17_alias_visited_at_first_slot shared_heap 0 "self" 20 [10]
           0 2 (KAttr "x") (KAttr "y") 1).
  - compute_done.
  - apply flat_Forall. compute_done.
  - reflexivity.
  - reflexivity.
  - lia.
  - intros i' k' Hlt. lia.
  - reflexivity.
Defined.
